(** * pygame.draw: software rasterisation into a clipped pixel surface

    A shallow embedding of [src/pygame/draw.py]: colour resolution, the
    Cohen-Sutherland clipper, the line, polyline, polygon and rectangle
    drawers, and the properties of them stated in the specification.
    With them, [tostring] of [src/pygame/image.py].

    The first part is the program, the second the notions its properties
    are stated with, the third the proofs. *)

From Stdlib Require Import ZArith QArith Bool List Lia.
From Stdlib Require Import Floats.SpecFloat.
From stdpp Require Import base list.

Open Scope Z_scope.

(** * Part 1: the program *)

(** ** Exceptions and results

    Python code either returns a value or raises.  The [while True] loop of
    the clipper is run with a bound on its number of passes; [OutOfFuel]
    is the result of a run the bound cut short. *)

Inductive exn : Type :=
| InvalidColor          (* raise 'invalid color argument' *)
| InsufficientPoints    (* ValueError: pointlist too short *)
| NotImplementedError
| AssertionError
| OverflowError
| ZeroDivisionError
| FloatValueError       (* int() of a NaN *)
| IndexError.

Inductive res (A : Type) : Type :=
| Ok (a : A)
| Raise (e : exn)
| OutOfFuel.

Arguments Ok {A} a.
Arguments Raise {A} e.
Arguments OutOfFuel {A}.

#[export] Instance res_ret : MRet res := fun _ a => Ok a.

#[export] Instance res_bind : MBind res := fun _ _ k r =>
  match r with
  | Ok a => k a
  | Raise e => Raise e
  | OutOfFuel => OutOfFuel
  end.

(** ** Python floats

    The source computes slopes with [float]: conversion from an integer,
    division, multiplication, addition, comparison and truncation back to
    an integer by [int].  These operations form the interface [PyFloat];
    [binary64] is the IEEE 754 double precision arithmetic of CPython,
    [exactQ] is arithmetic without rounding. *)

Definition float_error (e : exn) : Prop :=
  e = OverflowError \/ e = ZeroDivisionError \/ e = FloatValueError.

Definition float_result {A} (r : res A) : Prop :=
  match r with
  | Ok _ => True
  | Raise e => float_error e
  | OutOfFuel => False
  end.

Class PyFloat (F : Type) : Type := {
  float_of_int : Z -> res F;        (* float(n), OverflowError when too large *)
  f_div : F -> F -> res F;          (* a / b, ZeroDivisionError when b == 0 *)
  f_mul : F -> F -> F;
  f_add : F -> F -> F;
  int_of_float : F -> res Z;        (* int(a), truncation toward zero *)
  f_cmp : F -> F -> comparison;     (* cmp(a, b) *)
  f_cmp_int : Z -> F -> comparison; (* cmp(n, a), exact *)
  f_one : F;                        (* 1.0 *)
  (* arithmetic returns, or raises one of its own exceptions *)
  float_of_int_result : forall n, float_result (float_of_int n);
  f_div_result : forall a b, float_result (f_div a b);
  int_of_float_result : forall a, float_result (int_of_float a)
}.

Module Binary64.

Definition prec : Z := 53.

Definition emax : Z := 1024.

Definition of_int (n : Z) : res spec_float :=
  match binary_normalize prec emax n 0 false with
  | S754_infinity _ => Raise OverflowError
  | f => Ok f
  end.

Definition is_zero (f : spec_float) : bool :=
  match f with S754_zero _ => true | _ => false end.

Definition div (a b : spec_float) : res spec_float :=
  if is_zero b then Raise ZeroDivisionError else Ok (SFdiv prec emax a b).

Definition trunc (f : spec_float) : res Z :=
  match f with
  | S754_zero _ => Ok 0
  | S754_infinity _ => Raise OverflowError
  | S754_nan => Raise FloatValueError
  | S754_finite s m e =>
      let a := match e with
               | Zneg p => Z.shiftr (Zpos m) (Zpos p)
               | _ => Z.shiftl (Zpos m) e
               end in
      Ok (if s then - a else a)
  end.

Definition cmp (a b : spec_float) : comparison :=
  match SFcompare a b with Some c => c | None => Gt end.

(** [n] against [±m·2^e], without rounding. *)
Definition cmp_int (n : Z) (a : spec_float) : comparison :=
  match a with
  | S754_zero _ => n ?= 0
  | S754_infinity s => if s then Gt else Lt
  | S754_nan => Gt
  | S754_finite s m e =>
      let v := if s then Zneg m else Zpos m in
      match e with
      | Zneg p => (Z.shiftl n (Zpos p)) ?= v
      | _ => n ?= Z.shiftl v e
      end
  end.

Definition one : spec_float := SFone prec emax.

Lemma of_int_result n : float_result (of_int n).
Proof.
  unfold of_int. destruct (binary_normalize _ _ _ _ _); cbn; auto.
  left. reflexivity.
Qed.

Lemma div_result a b : float_result (div a b).
Proof.
  unfold div. destruct (is_zero b); cbn; auto. right. left. reflexivity.
Qed.

Lemma trunc_result a : float_result (trunc a).
Proof.
  destruct a; cbn; auto; [left|right; right]; reflexivity.
Qed.

End Binary64.

#[export] Instance binary64 : PyFloat spec_float := {
  float_of_int := Binary64.of_int;
  f_div := Binary64.div;
  f_mul := SFmul Binary64.prec Binary64.emax;
  f_add := SFadd Binary64.prec Binary64.emax;
  int_of_float := Binary64.trunc;
  f_cmp := Binary64.cmp;
  f_cmp_int := Binary64.cmp_int;
  f_one := Binary64.one;
  float_of_int_result := Binary64.of_int_result;
  f_div_result := Binary64.div_result;
  int_of_float_result := Binary64.trunc_result
}.

Module ExactQ.

Definition div (a b : Q) : res Q :=
  if Qeq_bool b 0 then Raise ZeroDivisionError else Ok (a / b)%Q.

Definition trunc (a : Q) : res Z := Ok (Z.quot (Qnum a) (Zpos (Qden a))).

Lemma exact_div_result a b : float_result (div a b).
Proof.
  unfold div. destruct (Qeq_bool b 0); cbn; auto. right. left. reflexivity.
Qed.

End ExactQ.

Definition exactQ : PyFloat Q := {|
  float_of_int := fun n => Ok (inject_Z n);
  f_div := ExactQ.div;
  f_mul := Qmult;
  f_add := Qplus;
  int_of_float := ExactQ.trunc;
  f_cmp := Qcompare;
  f_cmp_int := fun n a => Qcompare (inject_Z n) a;
  f_one := 1%Q;
  float_of_int_result := fun n => I;
  f_div_result := ExactQ.exact_div_result;
  int_of_float_result := fun a => I
|}.

(** ** Clip arithmetic *)

Definition _LEFT : Z := 1.

Definition _RIGHT : Z := 2.

Definition _TOP : Z := 4.

Definition _BOTTOM : Z := 8.

Definition _endpoint_code (x y l r t b : Z) : Z :=
  let code := 0 in
  let code := if x <? l then Z.lor code _LEFT else code in
  let code := if y <? t then Z.lor code _TOP else code in
  let code := if x >? r then Z.lor code _RIGHT else code in
  let code := if y >? b then Z.lor code _BOTTOM else code in
  code.

Definition has_bit (code bit : Z) : bool := negb (Z.land code bit =? 0).

Section Clip.

Context {F : Type} `{PyFloat F}.

(** [m = (y2 - y1) / float(x2 - x1)], or [1.0] on a vertical segment. *)
Definition slope (x1 y1 x2 y2 : Z) : res F :=
  if negb (x1 =? x2) then
    fx ← float_of_int (x2 - x1);
    fy ← float_of_int (y2 - y1);
    f_div fy fx
  else Ok f_one.

(** [int(a * m)] *)
Definition int_mul (a : Z) (m : F) : res Z :=
  fa ← float_of_int a; int_of_float (f_mul fa m).

(** [int(a / m)] *)
Definition int_div (a : Z) (m : F) : res Z :=
  fa ← float_of_int a; q ← f_div fa m; int_of_float q.

(** The four boundary tests of one pass, applied in source order to the
    endpoint [(x1, y1)] with the outcode [code1] and the slope [m] taken
    at the start of the pass. *)
Definition clip_horizontal (code1 bit bound : Z) (m : F) (p : Z * Z)
  : res (Z * Z) :=
  let '(x1, y1) := p in
  if has_bit code1 bit then
    d ← int_mul (bound - x1) m;
    Ok (bound, y1 + d)            (* y1 += int((bound - x1) * m); x1 = bound *)
  else Ok (x1, y1).

Definition clip_vertical (code1 bit bound : Z) (m : F) (x2 : Z) (p : Z * Z)
  : res (Z * Z) :=
  let '(x1, y1) := p in
  if has_bit code1 bit then
    x1' ← (if negb (x1 =? x2) then
             d ← int_div (bound - y1) m; Ok (x1 + d)
           else Ok x1);
    Ok (x1', bound)               (* x1 += int((bound - y1) / m); y1 = bound *)
  else Ok (x1, y1).

Definition clip_endpoint (code1 x1 y1 x2 y2 left right top bottom : Z)
  : res (Z * Z) :=
  m ← slope x1 y1 x2 y2;
  p ← clip_horizontal code1 _LEFT left m (x1, y1);
  p ← clip_horizontal code1 _RIGHT right m p;
  p ← clip_vertical code1 _BOTTOM bottom m x2 p;
  clip_vertical code1 _TOP top m x2 p.

(** [_clip_line]; [None] is the rejected sentinel
    [(None, None, None, None)]. *)
Fixpoint _clip_line (fuel : nat) (x1 y1 x2 y2 left right top bottom : Z)
  : res (option (Z * Z * Z * Z)) :=
  match fuel with
  | O => OutOfFuel
  | S fuel' =>
      let code1 := _endpoint_code x1 y1 left right top bottom in
      let code2 := _endpoint_code x2 y2 left right top bottom in
      if (code1 =? 0) && (code2 =? 0) then Ok (Some (x1, y1, x2, y2))
      else if negb (Z.land code1 code2 =? 0) then Ok None
      else
        let '(x1, y1, x2, y2, code1) :=
          if code1 =? 0 then (x2, y2, x1, y1, code2)
          else (x1, y1, x2, y2, code1) in
        p ← clip_endpoint code1 x1 y1 x2 y2 left right top bottom;
        _clip_line fuel' p.1 p.2 x2 y2 left right top bottom
  end.

End Clip.

(** ** Surfaces

    The pixel surface is an external collaborator.  Its pixel buffer is an
    array of pixel values; the pixel at [(x, y)] is the element
    [y * (pitch / BytesPerPixel) + x]. *)

Record SDL_Rect : Type := mkRect {
  rect_x : Z;
  rect_y : Z;
  rect_w : Z;
  rect_h : Z
}.

Record SDL_PixelFormat : Type := mkFormat {
  BytesPerPixel : Z;
  Rloss : Z; Gloss : Z; Bloss : Z; Aloss : Z;
  Rshift : Z; Gshift : Z; Bshift : Z; Ashift : Z;
  Amask : Z
}.

Record Surface : Type := mkSurface {
  format : SDL_PixelFormat;
  surf_w : Z;
  surf_h : Z;
  pitch : Z;                 (* row stride in bytes *)
  clip_rect : SDL_Rect;
  pixels : list Z
}.

Definition set_pixels (s : Surface) (px : list Z) : Surface :=
  mkSurface (format s) (surf_w s) (surf_h s) (pitch s) (clip_rect s) px.

(** Row stride in pixels, [surf.pitch / surf.format.BytesPerPixel]. *)
Definition pitch_px (s : Surface) : Z := pitch s / BytesPerPixel (format s).

(** Drawing code runs against one surface, which it mutates in place, and
    returns or raises. *)
Definition Draw (A : Type) : Type := Surface -> Surface * res A.

#[export] Instance draw_ret : MRet Draw := fun _ a s => (s, Ok a).

#[export] Instance draw_bind : MBind Draw := fun _ _ k m s =>
  match m s with
  | (s', Ok a) => k a s'
  | (s', Raise e) => (s', Raise e)
  | (s', OutOfFuel) => (s', OutOfFuel)
  end.

Definition lift {A} (r : res A) : Draw A := fun s => (s, r).

Definition raise {A} (e : exn) : Draw A := lift (Raise e).

Definition get_surface : Draw Surface := fun s => (s, Ok s).

(** Overwrite by a region: every element whose index is in [region]
    becomes [color]. *)
Definition paint (region : nat -> bool) (color : Z) (px : list Z) : list Z :=
  imap (fun i v => if region i then color else v) px.

Definition in_rect (r : SDL_Rect) (x y : Z) : bool :=
  (rect_x r <=? x) && (x <? rect_x r + rect_w r) &&
  (rect_y r <=? y) && (y <? rect_y r + rect_h r).

Definition in_bounds (s : Surface) (x y : Z) : bool :=
  (0 <=? x) && (x <? surf_w s) && (0 <=? y) && (y <? surf_h s).

(** Modelled from the spec: [SDL_FillRect], the surface's fill-rectangle
    primitive, "clips internally to [clip_rect] and writes"; no write falls
    outside the clip rectangle intersected with the surface's bounds. *)
Definition fill_region (s : Surface) (r : SDL_Rect) (i : nat) : bool :=
  let p := pitch_px s in
  let x := Z.of_nat i mod p in
  let y := Z.of_nat i / p in
  in_rect r x y && in_rect (clip_rect s) x y && in_bounds s x y.

Definition SDL_FillRect (r : SDL_Rect) (color : Z) : Draw unit := fun s =>
  (set_pixels s (paint (fill_region s r) color (pixels s)), Ok tt).

(** [pixels[i] = color] on the raw buffer: a negative index counts from
    the end, an index out of range raises. *)
Definition buffer_index (n i : Z) : Z := if i <? 0 then i + n else i.

Definition set_pixel (i : Z) (color : Z) : Draw unit := fun s =>
  let n := Z.of_nat (length (pixels s)) in
  let j := buffer_index n i in
  if (0 <=? j) && (j <? n)
  then (set_pixels s (<[Z.to_nat j := color]> (pixels s)), Ok tt)
  else (s, Raise IndexError).

(** ** Colour resolution *)

Inductive color_arg : Type :=
| ColorRGB (r g b : Z)
| ColorRGBA (r g b a : Z)
| ColorInt (n : Z)
| ColorOther.                (* an argument of any other type *)

(** Modelled from the spec: [pygame.base._rgba_from_obj] recognises a
    3- or 4-channel tuple (a missing alpha is opaque) and nothing else. *)
Definition _rgba_from_obj (color : color_arg) : option (Z * Z * Z * Z) :=
  match color with
  | ColorRGB r g b => Some (r, g, b, 255)
  | ColorRGBA r g b a => Some (r, g, b, a)
  | _ => None
  end.

(** Modelled from the spec: [SDL_MapRGBA] maps the channels through the
    format's loss bits and shifts; alpha is kept where the format has an
    alpha mask. *)
Definition SDL_MapRGBA (f : SDL_PixelFormat) (r g b a : Z) : Z :=
  Z.lor (Z.lor (Z.lor (Z.shiftl (Z.shiftr r (Rloss f)) (Rshift f))
                      (Z.shiftl (Z.shiftr g (Gloss f)) (Gshift f)))
               (Z.shiftl (Z.shiftr b (Bloss f)) (Bshift f)))
        (Z.land (Z.shiftl (Z.shiftr a (Aloss f)) (Ashift f)) (Amask f)).

Definition _get_color (color : color_arg) (surface : Surface) : res Z :=
  match _rgba_from_obj color with
  | Some (r, g, b, a) => Ok (SDL_MapRGBA (format surface) r g b a)
  | None =>
      match color with
      | ColorInt n => Ok n
      | _ => Raise InvalidColor
      end
  end.

(** Modelled from the spec: [Rect.normalize] flips a negative width or
    height into the origin. *)
Definition normalize (r : SDL_Rect) : SDL_Rect :=
  let '(x, w) := if rect_w r <? 0 then (rect_x r + rect_w r, - rect_w r)
                 else (rect_x r, rect_w r) in
  let '(y, h) := if rect_h r <? 0 then (rect_y r + rect_h r, - rect_h r)
                 else (rect_y r, rect_h r) in
  mkRect x y w h.

Definition _get_rect (r : SDL_Rect) : SDL_Rect := normalize r.

(** ** rect *)

Definition rect (color : color_arg) (rect_arg : SDL_Rect) (width : Z)
  : Draw (option SDL_Rect) :=
  surface ← get_surface;
  color ← lift (_get_color color surface);
  let rect := _get_rect rect_arg in
  _ ← (if width =? 0 then SDL_FillRect rect color
       else
         let hw := width / 2 in
         let r := mkRect (rect_x rect) (rect_y rect - hw) (rect_w rect) width in
         _ ← SDL_FillRect r color;
         let r := mkRect (rect_x r) (rect_y r + rect_h rect) (rect_w r) (rect_h r) in
         _ ← SDL_FillRect r color;
         let r := mkRect (rect_x r - hw) (rect_y rect) width (rect_h rect + 1) in
         _ ← SDL_FillRect r color;
         let r := mkRect (rect_x r + rect_w rect) (rect_y r) (rect_w r) (rect_h r) in
         SDL_FillRect r color);
  mret (Some rect).

Section Drawing.

Context {F : Type} `{PyFloat F}.

(** ** line *)

(** The pixel walk of the thin line, [while x < dx]; [n] counts the
    passes left, [dx - x]. *)
Fixpoint bresenham (n : nat) (color dx dy incx incy y pixel : Z)
  : Draw unit :=
  match n with
  | O => mret tt
  | S n' =>
      _ ← set_pixel pixel color;              (* pixels[pixel] = color *)
      let y := y + dy in
      let '(y, pixel) :=
        if y >? dx then (y - dx, pixel + incy) else (y, pixel) in
      let pixel := pixel + incx in
      bresenham n' color dx dy incx incy y pixel
  end.

(** The setup of the walk between the clipped endpoints: the spans
    [dx >= dy] along the major and the minor axis, the buffer increments
    along each, and the index of the first pixel. *)
Definition walk_setup (pitch x1 y1 x2 y2 : Z) : Z * Z * Z * Z * Z :=
  let dx := x2 - x1 in
  let dy := y2 - y1 in
  let signx := 1 - (if dx <? 0 then 1 else 0) * 2 in
  let signy := 1 - (if dy <? 0 then 1 else 0) * 2 in
  let dx := signx * dx + 1 in
  let dy := signy * dy + 1 in
  let pixel := y1 * pitch + x1 in
  let incx := signx in
  let incy := signy * pitch in
  let '(dx, dy, incx, incy) :=
    if dx <? dy then (dy, dx, incy, incx) else (dx, dy, incx, incy) in
  (dx, dy, incx, incy, pixel).

(** The last branch of [line]: clip, then walk the pixels. *)
Definition thin_line (fuel : nat) (color : Z) (start_pos end_pos : Z * Z)
  : Draw unit :=
  surface ← get_surface;
  if BytesPerPixel (format surface) =? 3 then raise NotImplementedError
  else
    let clip := clip_rect surface in
    c ← lift (_clip_line fuel start_pos.1 start_pos.2 end_pos.1 end_pos.2
                (rect_x clip) (rect_x clip + rect_w clip - 1)
                (rect_y clip) (rect_y clip + rect_h clip - 1));
    match c with
    | None => mret tt
    | Some (x1, y1, x2, y2) =>
        if BytesPerPixel (format surface) =? 0 then raise ZeroDivisionError
        else
          let pitch := pitch surface / BytesPerPixel (format surface) in
          let '(dx, dy, incx, incy, pixel) :=
            walk_setup pitch x1 y1 x2 y2 in
          bresenham (Z.to_nat dx) color dx dy incx incy 0 pixel
    end.

(** [for i in range(width)] of the thick line; [draw] is [line] at
    width 1. *)
Fixpoint thick_loop (n : nat)
    (draw : Z * Z -> Z * Z -> Draw (option SDL_Rect))
    (xinc yinc x1 y1 x2 y2 : Z) : Draw unit :=
  match n with
  | O => mret tt
  | S n' =>
      _ ← draw (x1, y1) (x2, y2);
      thick_loop n' draw xinc yinc
        (x1 + xinc) (y1 + yinc) (x2 + xinc) (y2 + yinc)
  end.

(** [line]; [depth] bounds the nesting of its calls to itself (the thick
    line calls [line] at width 1, which goes no deeper). *)
Fixpoint line_rec (depth fuel : nat) (color : color_arg)
    (start_pos end_pos : Z * Z) (width : Z) : Draw (option SDL_Rect) :=
  match depth with
  | O => lift OutOfFuel
  | S depth' =>
      if width <? 1 then mret None
      else
        surface ← get_surface;
        color ← lift (_get_color color surface);
        _ ← (if start_pos.1 =? end_pos.1 then
               (* Vertical *)
               let y1 := Z.min start_pos.2 end_pos.2 in
               let y2 := Z.max start_pos.2 end_pos.2 in
               let r := mkRect (start_pos.1 - width / 2) y1 width (y2 - y1) in
               SDL_FillRect r color
             else if start_pos.2 =? end_pos.2 then
               (* Horizontal *)
               let x1 := Z.min start_pos.1 end_pos.1 in
               let x2 := Z.max start_pos.1 end_pos.1 in
               let r := mkRect x1 (start_pos.2 - width / 2) (x2 - x1) width in
               SDL_FillRect r color
             else if width >? 1 then
               let '(xinc, yinc) :=
                 if Z.abs (end_pos.1 - start_pos.1)
                      >? Z.abs (end_pos.2 - start_pos.2)
                 then (0, 1) else (1, 0) in
               let x1 := start_pos.1 - width * xinc / 2 in
               let y1 := start_pos.2 - width * yinc / 2 in
               let x2 := end_pos.1 - width * xinc / 2 in
               let y2 := end_pos.2 - width * yinc / 2 in
               thick_loop (Z.to_nat width)
                 (fun p q => line_rec depth' fuel (ColorInt color) p q 1)
                 xinc yinc x1 y1 x2 y2
             else thin_line fuel color start_pos end_pos);
        mret None
  end.

Definition line : nat -> color_arg -> Z * Z -> Z * Z -> Z
                  -> Draw (option SDL_Rect) :=
  line_rec 2.

(** ** lines *)

(** [for point in pointlist[1:]]; returns the last point. *)
Fixpoint segments (fuel : nat) (color : Z) (width : Z) (last : Z * Z)
    (points : list (Z * Z)) : Draw (Z * Z) :=
  match points with
  | [] => mret last
  | point :: points' =>
      _ ← line fuel (ColorInt color) last point width;
      segments fuel color width point points'
  end.

Definition lines (fuel : nat) (color : color_arg) (closed : bool)
    (pointlist : list (Z * Z)) (width : Z) : Draw (option SDL_Rect) :=
  if width <? 1 then mret None
  else
    surface ← get_surface;
    color ← lift (_get_color color surface);
    if (length pointlist <? 2)%nat then raise InsufficientPoints
    else
      match pointlist with
      | [] => raise IndexError
      | first :: rest =>
          last ← segments fuel color width first rest;
          _ ← (if closed then line fuel (ColorInt color) last first width
               else mret None);
          mret None
      end.

(** ** polygon *)

(** An x-intercept starts as the integer vertex coordinate and becomes a
    float once a slope has been added to it. *)
Inductive num : Type :=
| NInt (n : Z)
| NFloat (f : F).

Definition num_cmp (a b : num) : comparison :=
  match a, b with
  | NInt m, NInt n => m ?= n
  | NInt m, NFloat g => f_cmp_int m g
  | NFloat f, NInt n => CompOpp (f_cmp_int n f)
  | NFloat f, NFloat g => f_cmp f g
  end.

(** [int(a)] *)
Definition num_int (a : num) : res Z :=
  match a with
  | NInt n => Ok n
  | NFloat f => int_of_float f
  end.

(** [a += k] *)
Definition num_add (a : num) (k : F) : res num :=
  match a with
  | NInt n => f ← float_of_int n; Ok (NFloat (f_add f k))
  | NFloat f => Ok (NFloat (f_add f k))
  end.

(** The edge record [[x, y_low, y_high, dx/dy]]. *)
Record Edge : Type := mkEdge {
  edge_x : num;
  edge_ylow : Z;
  edge_yhigh : Z;
  edge_slope : F
}.

(** [(x2 - x1) / float(y2 - y1)] *)
Definition inverse_slope (x1 y1 x2 y2 : Z) : res F :=
  fy ← float_of_int (y2 - y1);
  fx ← float_of_int (x2 - x1);
  f_div fx fy.

(** [for x2, y2 in pointlist[1:] + [pointlist[0]]]: the edge list and
    the bounding box. *)
Fixpoint build_edges (points : list (Z * Z))
    (x1 y1 miny maxy minx maxx : Z) (edges : list Edge)
  : res (list Edge * (Z * Z * Z * Z)) :=
  match points with
  | [] => Ok (edges, (miny, maxy, minx, maxx))
  | (x2, y2) :: points' =>
      st ← (if y2 >? y1 then
              k ← inverse_slope x1 y1 x2 y2;
              Ok (edges ++ [mkEdge (NInt x1) y1 y2 k],
                  Z.min miny y1, Z.max maxy y2)
            else if y2 <? y1 then
              k ← inverse_slope x2 y2 x1 y1;
              Ok (edges ++ [mkEdge (NInt x2) y2 y1 k],
                  Z.min miny y2, Z.max maxy y1)
            else Ok (edges, miny, maxy));
      let '(edges, miny, maxy) := st in
      let minx := Z.min (Z.min minx x1) x2 in
      let maxx := Z.max (Z.max maxx x1) x2 in
      build_edges points' x2 y2 miny maxy minx maxx edges
  end.

Definition active (y : Z) (e : Edge) : bool :=
  (y >=? edge_ylow e) && (y <? edge_yhigh e).

(** [[e for e in edges if y >= e[1] and y < e[2]]]: the edge records are
    shared with [edges], so the scan list holds their positions. *)
Fixpoint scan_positions (y : Z) (i : nat) (edges : list Edge) : list nat :=
  match edges with
  | [] => []
  | e :: edges' =>
      if active y e then i :: scan_positions y (S i) edges'
      else scan_positions y (S i) edges'
  end.

Definition x_at (edges : list Edge) (i : nat) : num :=
  match edges !! i with
  | Some e => edge_x e
  | None => NInt 0
  end.

(** [scan_edges.sort(lambda a, b: cmp(a[0], b[0]))], a stable sort. *)
Fixpoint insert_by_x (edges : list Edge) (a : nat) (sorted : list nat)
  : list nat :=
  match sorted with
  | [] => [a]
  | b :: sorted' =>
      match num_cmp (x_at edges b) (x_at edges a) with
      | Gt => a :: b :: sorted'
      | _ => b :: insert_by_x edges a sorted'
      end
  end.

Definition sort_by_x (edges : list Edge) (scan : list nat) : list nat :=
  fold_left (fun sorted a => insert_by_x edges a sorted) scan [].

(** [scan_edges[i][0] += scan_edges[i][3]] *)
Definition advance (edges : list Edge) (i : nat) : res (list Edge) :=
  match edges !! i with
  | Some e =>
      x ← num_add (edge_x e) (edge_slope e);
      Ok (<[i := mkEdge x (edge_ylow e) (edge_yhigh e) (edge_slope e)]> edges)
  | None => Raise IndexError
  end.

(** [for i in range(0, len(scan_edges), 2)] *)
Fixpoint fill_spans (y color : Z) (scan : list nat) (edges : list Edge)
  : Draw (list Edge) :=
  match scan with
  | a :: b :: scan' =>
      x ← lift (num_int (x_at edges a));
      x' ← lift (num_int (x_at edges b));
      _ ← SDL_FillRect (mkRect x y (x' - x) 1) color;
      edges ← lift (advance edges a);
      edges ← lift (advance edges b);
      fill_spans y color scan' edges
  | [a] => raise IndexError
  | [] => mret edges
  end.

(** [for y in range(miny, maxy)]; [n] counts the scanlines left. *)
Fixpoint scan_lines (n : nat) (y color : Z) (edges : list Edge)
  : Draw unit :=
  match n with
  | O => mret tt
  | S n' =>
      let scan_edges := sort_by_x edges (scan_positions y 0 edges) in
      if negb (Nat.even (length scan_edges)) then raise AssertionError
      else
        edges ← fill_spans y color scan_edges edges;
        scan_lines n' (y + 1) color edges
  end.

Definition polygon (fuel : nat) (color : color_arg)
    (pointlist : list (Z * Z)) (width : Z) : Draw (option SDL_Rect) :=
  if width >? 0 then lines fuel color true pointlist width
  else
    surface ← get_surface;
    color ← lift (_get_color color surface);
    if (length pointlist <? 3)%nat then raise InsufficientPoints
    else
      match pointlist with
      | [] => raise IndexError
      | (x1, y1) :: rest =>
          st ← lift (build_edges (rest ++ [(x1, y1)]) x1 y1 y1 y1 x1 x1 []);
          let '(edges, (miny, maxy, minx, maxx)) := st in
          let clip := clip_rect surface in
          let miny := Z.max miny (rect_y clip) in
          let maxy := Z.min (maxy + 1) (rect_y clip + rect_h clip) in
          _ ← scan_lines (Z.to_nat (maxy - miny)) miny color edges;
          mret (Some (mkRect minx miny (maxx - minx + 1) (maxy - miny + 1)))
      end.

End Drawing.

(** ** The four drawing operations *)

Inductive drawing : Type :=
| DrawRect (color : color_arg) (r : SDL_Rect) (width : Z)
| DrawPolygon (color : color_arg) (pointlist : list (Z * Z)) (width : Z)
| DrawLine (color : color_arg) (start_pos end_pos : Z * Z) (width : Z)
| DrawLines (color : color_arg) (closed : bool) (pointlist : list (Z * Z))
    (width : Z).

Definition draw {F : Type} `{PyFloat F} (fuel : nat) (d : drawing)
  : Draw (option SDL_Rect) :=
  match d with
  | DrawRect color r width => rect color r width
  | DrawPolygon color pointlist width => polygon fuel color pointlist width
  | DrawLine color start_pos end_pos width =>
      line fuel color start_pos end_pos width
  | DrawLines color closed pointlist width =>
      lines fuel color closed pointlist width
  end.

(** ** pygame.image: tostring

    [src/pygame/image.py] turns the pixels of a surface into a string of
    bytes.  Beside the fields the drawing code reads, it reads the flags of
    the surface, the colour masks of its format, its palette and its colour
    key.  Locking and unlocking the surface change nothing of what is
    read.  A string is the list of its character codes. *)

Record ImageSurface : Type := mkImage {
  _surf : Surface;
  flags : Z;
  Rmask : Z; Gmask : Z; Bmask : Z;
  palette : list (Z * Z * Z);    (* surf.format.palette.colors *)
  colorkey : Z
}.

Definition SDL_OPENGL : Z := 2.            (* 0x00000002 *)

Definition SDL_SRCCOLORKEY : Z := 4096.    (* 0x00001000 *)

Inductive image_exn : Type :=
| OpenGLSurface         (* NotImplementedError, 'TODO: OpenGL support.' *)
| NotEightBit           (* ValueError, 'Can only create "P" format data ...' *)
| UnboundLocalError     (* a local variable read before its assignment *)
| PaletteIndexError     (* IndexError, palette[c] *)
| ChrValueError.        (* ValueError, chr() arg not in range(256) *)

Inductive image_res (A : Type) : Type :=
| Returned (a : A)
| Raised (e : image_exn).

Arguments Returned {A} a.
Arguments Raised {A} e.

#[export] Instance image_ret : MRet image_res := fun _ a => Returned a.

#[export] Instance image_bind : MBind image_res := fun _ _ k r =>
  match r with
  | Returned a => k a
  | Raised e => Raised e
  end.

Inductive format_arg : Type :=
| FormatP
| FormatRGB
| FormatRGBX
| FormatRGBA
| FormatARGB
| FormatOther.               (* any other string *)

(** The truth value of an integer. *)
Definition truthy (n : Z) : bool := negb (n =? 0).

(** [l[i:j]]: a negative bound counts from the end, both bounds are cut
    to the length of [l]. *)
Definition slice_bound (n i : Z) : Z :=
  if i <? 0 then Z.max 0 (i + n) else Z.min i n.

Definition py_slice {A} (l : list A) (i j : Z) : list A :=
  let n := Z.of_nat (length l) in
  let a := slice_bound n i in
  let b := slice_bound n j in
  take (Z.to_nat (b - a)) (drop (Z.to_nat a) l).

(** [range(surf.h - 1, 0, -1)] if [flipped], else [range(surf.h)]. *)
Definition h_range (h : Z) (flipped : bool) : list Z :=
  if flipped then reverse (seqZ 1 (h - 1)) else seqZ 0 h.

(** [chr(c)] *)
Definition chr (c : Z) : image_res Z :=
  if (0 <=? c) && (c <? 256) then Returned c else Raised ChrValueError.

(** [((c & mask) >> shift) << loss] *)
Definition channel (c mask shift loss : Z) : Z :=
  Z.shiftl (Z.shiftr (Z.land c mask) shift) loss.

(** [(palette[c].r, palette[c].g, palette[c].b, 255)]; pixel values are
    unsigned. *)
Definition palette_tuple (pal : list (Z * Z * Z)) (c : Z)
  : image_res (Z * Z * Z * Z) :=
  match (if 0 <=? c then pal !! Z.to_nat c else None) with
  | Some (r, g, b) => Returned (r, g, b, 255)
  | None => Raised PaletteIndexError
  end.

(** The list [pixels] of channel tuples, one for each element of
    [surf.pixels]. *)
Definition pixel_tuples (surface : ImageSurface) (fmt : format_arg)
  : image_res (list (Z * Z * Z * Z)) :=
  let surf := _surf surface in
  let f := format surf in
  if BytesPerPixel f =? 1 then
    (* [surf.flags & SDL_SRCCOLORKEY and not Amask and format == 'RGBX']:
       [Amask] is a local variable of the function, and assigned in the
       other branch only *)
    if truthy (Z.land (flags surface) SDL_SRCCOLORKEY)
    then Raised UnboundLocalError
    else mapM (palette_tuple (palette surface)) (pixels surf)
  else
    let rgb c := (channel c (Rmask surface) (Rshift f) (Rloss f),
                  channel c (Gmask surface) (Gshift f) (Gloss f),
                  channel c (Bmask surface) (Bshift f) (Bloss f)) in
    if truthy (Z.land (flags surface) SDL_SRCCOLORKEY) && (Amask f =? 0) &&
       match fmt with FormatRGBX => true | _ => false end
    then
      Returned (map (fun c => (rgb c,
                               if c =? colorkey surface then 0 else 255))
                    (pixels surf))
    else
      Returned (map (fun c => (rgb c, channel c (Amask f) (Ashift f) (Aloss f)))
                    (pixels surf)).

(** The characters of one pixel in each format. *)
Definition chars_RGB (c : Z * Z * Z * Z) : image_res (list Z) :=
  let '(r, g, b, a) := c in
  c0 ← chr r; c1 ← chr g; c2 ← chr b; mret [c0; c1; c2].

Definition chars_RGBA (c : Z * Z * Z * Z) : image_res (list Z) :=
  let '(r, g, b, a) := c in
  c0 ← chr r; c1 ← chr g; c2 ← chr b; c3 ← chr a; mret [c0; c1; c2; c3].

(** [chr(c[3]) + chr(c[1]) + chr(c[2]) + chr(c[0])] *)
Definition chars_ARGB (c : Z * Z * Z * Z) : image_res (list Z) :=
  let '(r, g, b, a) := c in
  c3 ← chr a; c1 ← chr g; c2 ← chr b; c0 ← chr r; mret [c3; c1; c2; c0].

(** [''.join([... for c in pixels[y*pitch:y*pitch + w]])] *)
Definition join_row (chars : Z * Z * Z * Z -> image_res (list Z))
    (pixels : list (Z * Z * Z * Z)) (pitch w y : Z) : image_res (list Z) :=
  cs ← mapM chars (py_slice pixels (y * pitch) (y * pitch + w));
  mret (concat cs).

(** The list [rows] that [tostring] joins. *)
Definition tostring_rows (surface : ImageSurface) (fmt : format_arg)
    (flipped : bool) : image_res (list (list Z)) :=
  let surf := _surf surface in
  if truthy (Z.land (flags surface) SDL_OPENGL) then Raised OpenGLSurface
  else
    let pitch := pitch surf in
    let w := surf_w surf in
    let h_range := h_range (surf_h surf) flipped in
    match fmt with
    | FormatP =>
        if negb (BytesPerPixel (format surf) =? 1) then Raised NotEightBit
        else
          (* [surf.pixels.to_string()]: one byte for each pixel *)
          let pixels := pixels surf in
          if pitch =? w then mret [pixels]
          else mret (map (fun y => py_slice pixels (y * pitch) (y * pitch + w))
                         h_range)
    | _ =>
        pixels ← pixel_tuples surface fmt;
        match fmt with
        | FormatRGB => mapM (join_row chars_RGB pixels pitch w) h_range
        | FormatRGBA | FormatRGBX =>
            mapM (join_row chars_RGBA pixels pitch w) h_range
        | FormatARGB => mapM (join_row chars_ARGB pixels pitch w) h_range
        | _ => mret []
        end
    end.

(** [tostring]: [''.join(rows)] *)
Definition tostring (surface : ImageSurface) (fmt : format_arg)
    (flipped : bool) : image_res (list Z) :=
  rows ← tostring_rows surface fmt flipped;
  mret (concat rows).

(** * Part 2: the notions the properties are stated with *)

(** ** Float arithmetic that interpolates without overshoot *)

(** [v] lies between [p] and [q], in either order. *)
Definition between (v p q : Z) : Prop :=
  (p <= v <= q) \/ (q <= v <= p).

(** The interpolation laws the clipper's geometry relies on.  With
    [m = dy / float(dx)], moving a fraction [a/dx] of the way along x moves
    at most [dy] along y ([int(a * m)]), and moving a fraction [a/dy] of
    the way along y moves at most [dx] along x ([int(a / m)]). *)
Class NoOvershoot (F : Type) `{PyFloat F} : Prop := {
  mul_between : forall a dy dx fx fy m fa d,
    float_of_int dx = Ok fx -> float_of_int dy = Ok fy ->
    f_div fy fx = Ok m -> float_of_int a = Ok fa ->
    int_of_float (f_mul fa m) = Ok d ->
    dx <> 0 -> between a 0 dx -> between d 0 dy;
  div_between : forall a dy dx fx fy m fa q d,
    float_of_int dx = Ok fx -> float_of_int dy = Ok fy ->
    f_div fy fx = Ok m -> float_of_int a = Ok fa ->
    f_div fa m = Ok q -> int_of_float q = Ok d ->
    dx <> 0 -> between a 0 dy -> between d 0 dx
}.

(** ** Points, boxes and runs of the clipper *)

(** A point is inside the inclusive box exactly when its outcode is zero. *)
Definition inside (x y l r t b : Z) : Prop :=
  l <= x <= r /\ t <= y <= b.

(** Two points are beyond the same boundary of the box. *)
Definition same_side (x1 y1 x2 y2 l r t b : Z) : Prop :=
  (x1 < l /\ x2 < l) \/ (x1 > r /\ x2 > r) \/
  (y1 < t /\ y2 < t) \/ (y1 > b /\ y2 > b).

(** An endpoint needs no further pass: it is inside the box, or the
    segment is rejected. *)
Definition settled (x y x2 y2 l r t b : Z) : Prop :=
  inside x y l r t b \/ same_side x y x2 y2 l r t b.

(** The loop returns within [n] passes. *)
Definition finishes {F : Type} `{PyFloat F} (n : nat) (x1 y1 x2 y2 l r t b : Z) : Prop :=
  forall fuel, (n <= fuel)%nat ->
    _clip_line fuel x1 y1 x2 y2 l r t b <> OutOfFuel.

(** The outcode of an endpoint beyond exactly one boundary. *)
Definition one_boundary (code : Z) : Prop :=
  code = _LEFT \/ code = _RIGHT \/ code = _TOP \/ code = _BOTTOM.

(** The point [(x, y)] lies on the boundary that [code] names. *)
Definition on_boundary (code x y l r t b : Z) : Prop :=
  (code = _LEFT /\ x = l) \/ (code = _RIGHT /\ x = r) \/
  (code = _TOP /\ y = t) \/ (code = _BOTTOM /\ y = b).

(** The result of a run on a segment that crosses one boundary: [moved]
    names the endpoint outside and [kept] the one inside. *)
Definition single_crossing_result (r : res (option (Z * Z * Z * Z)))
    (code mx my kx ky l' r' t' b' : Z) : Prop :=
  match r with
  | Ok (Some (xa, ya, xb, yb)) =>
      (xb, yb) = (kx, ky) /\
      on_boundary code xa ya l' r' t' b' /\
      inside xa ya l' r' t' b' /\
      between xa mx kx /\ between ya my ky
  | Ok None => False
  | Raise _ => True          (* the float arithmetic raised *)
  | OutOfFuel => False
  end.

(** The third sentence of C3 as it is stated says at least that, of a
    segment with one endpoint inside and the other beyond one boundary,
    one endpoint is returned where it was given. *)
Definition single_crossing_keeps_an_endpoint {F : Type} `{PyFloat F}
  : Prop :=
  forall x1 y1 x2 y2 l r t b,
    inside x1 y1 l r t b ->
    one_boundary (_endpoint_code x2 y2 l r t b) ->
    exists fuel xa ya xb yb,
      _clip_line fuel x1 y1 x2 y2 l r t b = Ok (Some (xa, ya, xb, yb)) /\
      ((xa, ya) = (x1, y1) \/ (xb, yb) = (x2, y2)).

(** ** Drawing as overwriting

    A drawing computation never reads a pixel: on every surface with the
    attributes of [s] it returns the same result and overwrites the same
    elements with the same values.  [patch] gives the value written at an
    index, if any; [allowed] bounds the indices written. *)

Definition apply_patch (patch : nat -> option Z) (px : list Z) : list Z :=
  imap (fun i v => default v (patch i)) px.

Definition OverwritesAt (allowed : nat -> Prop) (s : Surface) {A}
    (m : Draw A) : Prop :=
  exists patch : nat -> option Z,
    (forall i v, patch i = Some v -> allowed i) /\
    forall px, length px = length (pixels s) ->
      m (set_pixels s px) = (set_pixels s (apply_patch patch px), (m s).2).

(** ** The clip rectangle and the pixels inside it *)

(** The clip rectangle as the inclusive box handed to [_clip_line]. *)
Definition clip_left (s : Surface) : Z := rect_x (clip_rect s).

Definition clip_right (s : Surface) : Z :=
  rect_x (clip_rect s) + rect_w (clip_rect s) - 1.

Definition clip_top (s : Surface) : Z := rect_y (clip_rect s).

Definition clip_bottom (s : Surface) : Z :=
  rect_y (clip_rect s) + rect_h (clip_rect s) - 1.

(** What the surface guarantees: the clip rectangle lies within the pixel
    bounds, and a row of the buffer holds at least a row of pixels. *)
Definition wf_surface (s : Surface) : Prop :=
  surf_w s <= pitch_px s /\
  0 <= rect_x (clip_rect s) /\ 0 <= rect_y (clip_rect s) /\
  rect_x (clip_rect s) + rect_w (clip_rect s) <= surf_w s /\
  rect_y (clip_rect s) + rect_h (clip_rect s) <= surf_h s.

(** The buffer element [i] is a pixel inside the clip rectangle and the
    pixel bounds. *)
Definition in_clip_bounds (s : Surface) (i : nat) : bool :=
  let p := pitch_px s in
  let x := Z.of_nat i mod p in
  let y := Z.of_nat i / p in
  in_rect (clip_rect s) x y && in_bounds s x y.

(** ** The stores of the thin line *)

(** The indices the walk stores to, in order. *)
Fixpoint bresenham_indices (n : nat) (dx dy incx incy y pixel : Z)
  : list Z :=
  match n with
  | O => []
  | S n' =>
      pixel ::
      (let y := y + dy in
       let '(y, pixel) :=
         if y >? dx then (y - dx, pixel + incy) else (y, pixel) in
       let pixel := pixel + incx in
       bresenham_indices n' dx dy incx incy y pixel)
  end.

Fixpoint store_all (indices : list Z) (color : Z) : Draw unit :=
  match indices with
  | [] => mret tt
  | i :: indices' => _ ← set_pixel i color; store_all indices' color
  end.

(** The indices the walk of the thin line reaches on [surface], in order.
    The line stores to them one after the other, as far as the first
    that is out of the range of the buffer, where the store raises; on a
    surface whose clip rectangle lies within its buffer that is all of
    them. *)
Definition thin_line_indices {F : Type} `{PyFloat F} (fuel : nat)
    (surface : Surface) (start_pos end_pos : Z * Z) : list Z :=
  if BytesPerPixel (format surface) =? 3 then []
  else
    let clip := clip_rect surface in
    match _clip_line fuel start_pos.1 start_pos.2 end_pos.1 end_pos.2
            (rect_x clip) (rect_x clip + rect_w clip - 1)
            (rect_y clip) (rect_y clip + rect_h clip - 1) with
    | Ok (Some (x1, y1, x2, y2)) =>
        if BytesPerPixel (format surface) =? 0 then []
        else
          let pitch := pitch surface / BytesPerPixel (format surface) in
          let '(dx, dy, incx, incy, pixel) := walk_setup pitch x1 y1 x2 y2 in
          bresenham_indices (Z.to_nat dx) dx dy incx incy 0 pixel
    | _ => []
    end.

(** ** Arguments *)

(** An 8 by 6 surface of 32-bit pixels, all zero, clipped to the rectangle
    [(1, 1, 6, 4)]. *)
Definition surface_8x6 : Surface :=
  mkSurface (mkFormat 4 0 0 0 0 16 8 0 24 0) 8 6 32 (mkRect 1 1 6 4)
    (replicate 48 0).

(** A colour argument the resolver accepts. *)
Definition valid_color (color : color_arg) : Prop := color <> ColorOther.

(** The sentence of C6 on polygons, as it is stated: with a valid colour
    and a width of at least 1, fewer than three points raise. *)
Definition polygon_needs_three_points {F : Type} `{PyFloat F} : Prop :=
  forall fuel color pointlist width s,
    valid_color color -> 1 <= width -> (length pointlist < 3)%nat ->
    (polygon fuel color pointlist width s).2 = Raise InsufficientPoints.

(** ** Convex outlines and active edges *)

(** Twice the signed area of the triangle [p q r]: the direction in which
    the outline turns at [q]. *)
Definition cross (p q r : Z * Z) : Z :=
  (q.1 - p.1) * (r.2 - q.2) - (q.2 - p.2) * (r.1 - q.1).

Fixpoint turns_of (l : list (Z * Z)) : list Z :=
  match l with
  | p :: l' =>
      match l' with
      | q :: r :: _ => cross p q r :: turns_of l'
      | _ => []
      end
  | [] => []
  end.

(** The outline, closed, never turns both ways: what a simple convex
    polygon satisfies. *)
Definition convex_polygon (pointlist : list (Z * Z)) : Prop :=
  let turns := turns_of (pointlist ++ take 2 pointlist) in
  Forall (fun c => 0 <= c) turns \/ Forall (fun c => c <= 0) turns.

(** The scanline [y] separates the ordinates [ya] and [yb]. *)
Definition separates (y ya yb : Z) : bool := xorb (ya <=? y) (yb <=? y).

Definition active_odd {F : Type} (y : Z) (edges : list (@Edge F)) : bool :=
  Nat.odd (length (filter (fun e => active y e = true) edges)).

(** The y-spans of the edge records, which the fill never changes. *)
Definition spans {F : Type} (edges : list (@Edge F)) : list (Z * Z) :=
  map (fun e => (edge_ylow e, edge_yhigh e)) edges.

(** ** Ranges *)

(** [v] brought into the range [[lo, hi]]. *)
Definition clamp (lo hi v : Z) : Z := Z.max lo (Z.min hi v).

(** ** Floats of integers in binary64 *)

(** A float with a full 53-bit mantissa. *)
Definition normal53 (m : positive) : Prop := 2 ^ 52 <= Zpos m < 2 ^ 53.

(** [f] is the float of the integer [z], exactly. *)
Definition represents (f : spec_float) (z : Z) : Prop :=
  match f with
  | S754_zero _ => z = 0
  | S754_finite s m e =>
      z <> 0 /\ s = (z <? 0) /\ normal53 m /\ -52 <= e <= 0 /\
      Zpos m = Z.abs z * 2 ^ (- e)
  | _ => False
  end.

(** [int] of a finite float. *)
Definition magnitude (m : positive) (e : Z) : Z :=
  if e <? 0 then Zpos m / 2 ^ (- e) else Zpos m * 2 ^ e.

(** ** Clipping with bounded coordinates *)

(** Float arithmetic interpolates within the bound [B]: on a segment whose
    spans [x2 - x1 <> 0] and [y2 - y1] are at most [B] in magnitude the
    slope is computed, and so are [int(a * m)], no further from zero than
    [y2 - y1] when [a] is no further from zero than [x2 - x1], and (on a
    segment that is not flat) [int(a / m)], no further from zero than
    [x2 - x1] when [a] is no further from zero than [y2 - y1]; each lies on
    the side of zero that its span does when [a] lies on the side of its
    own. *)
Definition interpolates {F : Type} `{PyFloat F} (B : Z) : Prop :=
  forall x1 y1 x2 y2,
    x1 <> x2 -> Z.abs (x2 - x1) <= B -> Z.abs (y2 - y1) <= B ->
    exists m : F,
      slope x1 y1 x2 y2 = Ok m /\
      (forall a, Z.abs a <= Z.abs (x2 - x1) ->
         exists d, int_mul a m = Ok d /\ Z.abs d <= Z.abs (y2 - y1) /\
                   (between a 0 (x2 - x1) -> between d 0 (y2 - y1))) /\
      (y1 <> y2 ->
       forall a, Z.abs a <= Z.abs (y2 - y1) ->
         exists e, int_div a m = Ok e /\ Z.abs e <= Z.abs (x2 - x1) /\
                   (between a 0 (y2 - y1) -> between e 0 (x2 - x1))).

(** The segment and the box lie within [K] of the origin. *)
Definition fits (K x1 y1 x2 y2 l r t b : Z) : Prop :=
  (Z.abs x1 <= K /\ Z.abs y1 <= K) /\ (Z.abs x2 <= K /\ Z.abs y2 <= K) /\
  (Z.abs l <= K /\ Z.abs r <= K) /\ (Z.abs t <= K /\ Z.abs b <= K).

(** The loop returns within [n] passes, a segment or the rejection, and
    raises nothing. *)
Definition returns {F : Type} `{PyFloat F} (n : nat)
    (x1 y1 x2 y2 l r t b : Z) : Prop :=
  exists result, forall fuel, (n <= fuel)%nat ->
    _clip_line fuel x1 y1 x2 y2 l r t b = Ok result.

(** ** Surfaces a line can be drawn on *)

(** What a software surface guarantees when its pixels are not 3 bytes
    wide: the clip rectangle lies within the pixel bounds and has no
    negative side, and the buffer holds every row. *)
Definition drawable (s : Surface) : Prop :=
  wf_surface s /\
  0 <= rect_w (clip_rect s) /\ 0 <= rect_h (clip_rect s) /\
  pitch_px s * surf_h s <= Z.of_nat (length (pixels s)) /\
  BytesPerPixel (format s) <> 3 /\ BytesPerPixel (format s) <> 0.

(** ** The outline of a rectangle *)

(** The point [(x, y)] lies on the boundary of the closed rectangle with
    the corners [(r.x, r.y)] and [(r.x + r.w, r.y + r.h)]. *)
Definition on_outline (r : SDL_Rect) (x y : Z) : bool :=
  (rect_x r <=? x) && (x <=? rect_x r + rect_w r) &&
  (rect_y r <=? y) && (y <=? rect_y r + rect_h r) &&
  ((x =? rect_x r) || (x =? rect_x r + rect_w r) ||
   (y =? rect_y r) || (y =? rect_y r + rect_h r)).

(** The buffer elements of the outline that a fill may write. *)
Definition outline_region (s : Surface) (r : SDL_Rect) (i : nat) : bool :=
  let p := pitch_px s in
  let x := Z.of_nat i mod p in
  let y := Z.of_nat i / p in
  on_outline r x y && in_rect (clip_rect s) x y && in_bounds s x y.

(** ** Extremes of a list *)

Definition least (v : Z) (l : list Z) : Prop :=
  v ∈ l /\ Forall (fun u => v <= u) l.

Definition greatest (v : Z) (l : list Z) : Prop :=
  v ∈ l /\ Forall (fun u => u <= v) l.

(** ** Rows a drawing leaves alone *)

(** From [s] to [s'] only pixels have changed, and only on the rows that
    [painted] holds of. *)
Definition rows_kept (painted : Z -> Prop) (s s' : Surface) : Prop :=
  exists px,
    s' = set_pixels s px /\ length px = length (pixels s) /\
    forall i : nat,
      ~ painted (Z.of_nat i / pitch_px s) -> px !! i = pixels s !! i.

(** ** Strings of image bytes *)

(** The string with the first and the fourth character of every group of
    four exchanged. *)
Fixpoint exchange_first_fourth (s : list Z) : list Z :=
  match s with
  | c0 :: c1 :: c2 :: c3 :: rest =>
      c3 :: c1 :: c2 :: c0 :: exchange_first_fourth rest
  | _ => s
  end.

(** A colour channel whose every value fits in a byte: the mask, moved
    down by the shift and up by the loss, stays below 256. *)
Definition byte_channel (mask shift loss : Z) : Prop :=
  0 <= mask /\ 0 <= shift /\ 0 <= loss /\
  Z.shiftl (Z.shiftr mask shift) loss < 256.

(** A channel tuple [chr] accepts. *)
Definition byte_tuple (c : Z * Z * Z * Z) : Prop :=
  0 <= c.1.1.1 < 256 /\ 0 <= c.1.1.2 < 256 /\ 0 <= c.1.2 < 256 /\
  0 <= c.2 < 256.

(** ** Clip steps *)


(** ** Stores of the pixel walk *)

(** The buffer elements whose index is one of [stores]. *)
Definition stored (stores : list Z) (i : nat) : bool :=
  bool_decide (Z.of_nat i ∈ stores).

(** * Part 3: proofs *)

(** ** Float results *)

Lemma float_result_returns {A} (r : res A) : float_result r -> r <> OutOfFuel.
Proof. destruct r; [discriminate|discriminate|contradiction]. Qed.

Lemma float_result_no_assert {A} (r : res A) :
  float_result r -> r <> Raise AssertionError.
Proof.
  destruct r as [a|e|]; cbn; [discriminate| |contradiction].
  unfold float_error. intros [->|[->| ->]]; discriminate.
Qed.

Lemma float_of_int_returns {F : Type} `{PyFloat F} n :
  float_of_int n <> OutOfFuel.
Proof. apply float_result_returns, float_of_int_result. Qed.

Lemma f_div_returns {F : Type} `{PyFloat F} a b : f_div a b <> OutOfFuel.
Proof. apply float_result_returns, f_div_result. Qed.

Lemma int_of_float_returns {F : Type} `{PyFloat F} a :
  int_of_float a <> OutOfFuel.
Proof. apply float_result_returns, int_of_float_result. Qed.

(** ** Exact arithmetic interpolates without overshoot *)

(** Truncated division keeps a scaled offset within its range. *)
Lemma quot_scale_between a c p :
  0 < p -> 0 <= a <= p -> between (Z.quot (a * c) p) 0 c.
Proof.
  intros Hp Ha. unfold between.
  pose proof (Z.quot_rem' (a * c) p) as E.
  pose proof (Z.rem_bound_abs (a * c) p ltac:(lia)) as Hb.
  destruct (Z_le_gt_dec 0 c) as [Hc|Hc].
  - pose proof (Z.rem_nonneg (a * c) p ltac:(lia) ltac:(nia)). left. nia.
  - pose proof (Z.rem_nonpos (a * c) p ltac:(lia) ltac:(nia)). right. nia.
Qed.

Lemma quot_scale_between_neg a c p :
  0 < p -> - p <= a <= 0 -> between (Z.quot (a * c) p) 0 (- c).
Proof.
  intros Hp Ha. replace (a * c) with ((- a) * (- c)) by lia.
  apply quot_scale_between; lia.
Qed.

Lemma exactQ_mul_between a dy dx fx fy m fa d :
  @float_of_int Q exactQ dx = Ok fx -> @float_of_int Q exactQ dy = Ok fy ->
  @f_div Q exactQ fy fx = Ok m -> @float_of_int Q exactQ a = Ok fa ->
  @int_of_float Q exactQ (@f_mul Q exactQ fa m) = Ok d ->
  dx <> 0 -> between a 0 dx -> between d 0 dy.
Proof.
  cbn. unfold ExactQ.div, ExactQ.trunc.
  intros [= <-] [= <-] Hm [= <-] [= <-] Hne Hb.
  destruct (Qeq_bool _ 0); [discriminate|]. injection Hm as <-.
  unfold between in Hb.
  destruct dx as [|p|p]; [lia| |]; unfold Qdiv, Qmult, Qinv, inject_Z; cbn.
  - rewrite Z.mul_1_r. apply quot_scale_between; lia.
  - replace dy with (- (dy * -1)) at 2 by lia.
    apply quot_scale_between_neg; lia.
Qed.

Lemma exactQ_div_between a dy dx fx fy m fa q d :
  @float_of_int Q exactQ dx = Ok fx -> @float_of_int Q exactQ dy = Ok fy ->
  @f_div Q exactQ fy fx = Ok m -> @float_of_int Q exactQ a = Ok fa ->
  @f_div Q exactQ fa m = Ok q -> @int_of_float Q exactQ q = Ok d ->
  dx <> 0 -> between a 0 dy -> between d 0 dx.
Proof.
  cbn. unfold ExactQ.div, ExactQ.trunc.
  intros [= <-] [= <-] Hm [= <-] Hq [= <-] Hne Hb.
  destruct (Qeq_bool _ 0); [discriminate|]. injection Hm as <-.
  destruct (Qeq_bool _ 0) eqn:Hz; [discriminate|]. injection Hq as <-.
  unfold between in Hb.
  destruct dx as [|p|p]; [lia| |];
    unfold Qdiv, Qmult, Qinv, inject_Z in *; cbn in *.
  - rewrite Z.mul_1_r in *.
    destruct dy as [|n|n]; cbn in *; [discriminate Hz| |];
      rewrite ?Pos.mul_1_l.
    + apply quot_scale_between; lia.
    + apply (quot_scale_between_neg a (Z.neg p)); lia.
  - destruct dy as [|n|n]; [discriminate Hz| |].
    + replace (Z.pos n * -1) with (Z.neg n) in * by lia. cbn.
      rewrite ?Pos.mul_1_l. apply (quot_scale_between a (Z.neg p)); lia.
    + replace (Z.neg n * -1) with (Z.pos n) in * by lia. cbn.
      rewrite ?Pos.mul_1_l. apply (quot_scale_between_neg a (Z.pos p)); lia.
Qed.

Lemma exactQ_NoOvershoot : @NoOvershoot Q exactQ.
Proof.
  split; [exact exactQ_mul_between | exact exactQ_div_between].
Qed.

(** ** Outcodes as comparisons *)

Lemma has_bit_LEFT x y l r t b :
  has_bit (_endpoint_code x y l r t b) _LEFT = (x <? l).
Proof.
  unfold _endpoint_code; destruct (x <? l), (y <? t), (x >? r), (y >? b);
    reflexivity.
Qed.

Lemma has_bit_RIGHT x y l r t b :
  has_bit (_endpoint_code x y l r t b) _RIGHT = (x >? r).
Proof.
  unfold _endpoint_code; destruct (x <? l), (y <? t), (x >? r), (y >? b);
    reflexivity.
Qed.

Lemma has_bit_TOP x y l r t b :
  has_bit (_endpoint_code x y l r t b) _TOP = (y <? t).
Proof.
  unfold _endpoint_code; destruct (x <? l), (y <? t), (x >? r), (y >? b);
    reflexivity.
Qed.

Lemma has_bit_BOTTOM x y l r t b :
  has_bit (_endpoint_code x y l r t b) _BOTTOM = (y >? b).
Proof.
  unfold _endpoint_code; destruct (x <? l), (y <? t), (x >? r), (y >? b);
    reflexivity.
Qed.

Lemma code_zero_inside x y l r t b :
  (_endpoint_code x y l r t b =? 0) = true <-> inside x y l r t b.
Proof.
  unfold _endpoint_code, inside.
  destruct (Z.ltb_spec x l), (Z.ltb_spec y t), (Z.gtb_spec x r),
    (Z.gtb_spec y b); cbn; split; intros; try discriminate; lia.
Qed.

Lemma code_zero_outside x y l r t b :
  (_endpoint_code x y l r t b =? 0) = false <-> ~ inside x y l r t b.
Proof.
  rewrite <- code_zero_inside. destruct (_ =? 0); split; congruence.
Qed.

Lemma codes_share_same_side x1 y1 x2 y2 l r t b :
  negb (Z.land (_endpoint_code x1 y1 l r t b)
               (_endpoint_code x2 y2 l r t b) =? 0) = true
  <-> same_side x1 y1 x2 y2 l r t b.
Proof.
  unfold _endpoint_code, same_side.
  destruct (Z.ltb_spec x1 l), (Z.ltb_spec y1 t), (Z.gtb_spec x1 r),
    (Z.gtb_spec y1 b), (Z.ltb_spec x2 l), (Z.ltb_spec y2 t),
    (Z.gtb_spec x2 r), (Z.gtb_spec y2 b); cbn; split; intros;
    try discriminate; try reflexivity; lia.
Qed.

Lemma codes_disjoint_not_same_side x1 y1 x2 y2 l r t b :
  negb (Z.land (_endpoint_code x1 y1 l r t b)
               (_endpoint_code x2 y2 l r t b) =? 0) = false
  <-> ~ same_side x1 y1 x2 y2 l r t b.
Proof.
  rewrite <- codes_share_same_side. destruct (negb _); split; congruence.
Qed.

(** ** One clipping pass *)

Lemma bind_Ok_inv {A B} (r : res A) (k : A -> res B) (v : B) :
  (r ≫= k) = Ok v -> exists a, r = Ok a /\ k a = Ok v.
Proof. destruct r; cbn; intros E; try discriminate; eauto. Qed.

Ltac inv_bind :=
  repeat match goal with
    | E : (_ ≫= _) = Ok _ |- _ =>
        apply bind_Ok_inv in E; destruct E as (? & ? & E)
    | E : Ok _ = Ok _ |- _ => injection E as E
    | E : (_, _) = (_, _) |- _ => injection E as ? ?
    end.

Section ClipFacts.

Context {F : Type} `{NoOvershoot F}.

Lemma int_mul_between x1 y1 x2 y2 m a d :
  slope x1 y1 x2 y2 = Ok m -> x1 <> x2 ->
  int_mul a m = Ok d ->
  between a 0 (x2 - x1) -> between d 0 (y2 - y1).
Proof.
  unfold slope, int_mul. intros Em Hx Ed Ha.
  destruct (Z.eqb_spec x1 x2) as [|_]; [contradiction|]. cbn in Em.
  inv_bind. eapply (mul_between a (y2 - y1) (x2 - x1)); eauto. lia.
Qed.

Lemma int_div_between x1 y1 x2 y2 m a d :
  slope x1 y1 x2 y2 = Ok m -> x1 <> x2 ->
  int_div a m = Ok d ->
  between a 0 (y2 - y1) -> between d 0 (x2 - x1).
Proof.
  unfold slope, int_div. intros Em Hx Ed Ha.
  destruct (Z.eqb_spec x1 x2) as [|_]; [contradiction|]. cbn in Em.
  inv_bind. eapply (div_between a (y2 - y1) (x2 - x1)); eauto. lia.
Qed.

Lemma clip_horizontal_inv c bit bound (m : F) x1 y1 x' y' :
  clip_horizontal c bit bound m (x1, y1) = Ok (x', y') ->
  (has_bit c bit = false /\ x' = x1 /\ y' = y1) \/
  (has_bit c bit = true /\ x' = bound /\
   exists d, int_mul (bound - x1) m = Ok d /\ y' = y1 + d).
Proof.
  unfold clip_horizontal. destruct (has_bit c bit); intros E.
  - inv_bind. subst. right. eauto 6.
  - inv_bind. subst. left. auto.
Qed.

Lemma clip_vertical_inv c bit bound (m : F) x2 x1 y1 x' y' :
  clip_vertical c bit bound m x2 (x1, y1) = Ok (x', y') ->
  (has_bit c bit = false /\ x' = x1 /\ y' = y1) \/
  (has_bit c bit = true /\ y' = bound /\
   ((x1 = x2 /\ x' = x1) \/
    (x1 <> x2 /\ exists d, int_div (bound - y1) m = Ok d /\ x' = x1 + d))).
Proof.
  unfold clip_vertical. destruct (has_bit c bit); intros E.
  - right. destruct (Z.eqb_spec x1 x2); cbn in E; inv_bind; subst; eauto 8.
  - inv_bind. subst. left. auto.
Qed.

(** Where a pass leaves the endpoint it clips: [xh] is its abscissa after
    the horizontal tests, [d] the shift along y of a horizontal clip and
    [e] the shift along x of a vertical one. *)
Lemma clip_endpoint_inv x1 y1 x2 y2 l r t b x' y' :
  ~ same_side x1 y1 x2 y2 l r t b ->
  clip_endpoint (_endpoint_code x1 y1 l r t b) x1 y1 x2 y2 l r t b
    = Ok (x', y') ->
  exists xh d e,
    ((x1 < l /\ xh = l) \/ (x1 > r /\ xh = r) \/
     (l <= x1 <= r /\ xh = x1 /\ d = 0)) /\
    between d 0 (y2 - y1) /\
    ((y1 < t /\ y' = t /\ x' = xh + e) \/
     (y1 > b /\ y' = b /\ x' = xh + e) \/
     (t <= y1 <= b /\ y' = y1 + d /\ x' = xh)) /\
    (l <= x1 <= r -> between e 0 (x2 - x1)).
Proof.
  unfold clip_endpoint, same_side. intros Hs E.
  apply bind_Ok_inv in E. destruct E as (m & Em & E).
  apply bind_Ok_inv in E. destruct E as ([xa ya] & Ea & E).
  apply bind_Ok_inv in E. destruct E as ([xb yb] & Eb & E).
  apply bind_Ok_inv in E. destruct E as ([xc yc] & Ec & E).
  apply clip_horizontal_inv in Ea, Eb. apply clip_vertical_inv in Ec, E.
  rewrite has_bit_LEFT in Ea. rewrite has_bit_RIGHT in Eb.
  rewrite has_bit_BOTTOM in Ec. rewrite has_bit_TOP in E.
  assert (Hmul : forall a d, x1 <> x2 -> int_mul a m = Ok d ->
                   between a 0 (x2 - x1) -> between d 0 (y2 - y1))
    by (intros; eapply int_mul_between; eauto).
  assert (Hdiv : forall a d, x1 <> x2 -> int_div a m = Ok d ->
                   between a 0 (y2 - y1) -> between d 0 (x2 - x1))
    by (intros; eapply int_div_between; eauto).
  clear Em. unfold between in *.
  assert (Hh : exists d,
             ((x1 < l /\ xb = l) \/ (x1 > r /\ xb = r) \/
              (l <= x1 <= r /\ xb = x1 /\ d = 0)) /\
             (0 <= d <= y2 - y1 \/ y2 - y1 <= d <= 0) /\ yb = y1 + d).
  { destruct (Z.ltb_spec x1 l), (Z.gtb_spec x1 r);
      destruct Ea as [(Ha & -> & ->) | (Ha & -> & da & Eda & ->)];
      try discriminate Ha;
      destruct Eb as [(Hb & -> & ->) | (Hb & -> & db & Edb & ->)];
      try discriminate Hb; try (exfalso; lia).
    - exists da. split; [lia|]. split; [|lia]. apply (Hmul _ _ ltac:(lia) Eda). lia.
    - exists db. split; [lia|]. split; [|lia]. apply (Hmul _ _ ltac:(lia) Edb). lia.
    - exists 0. lia. }
  destruct Hh as (d & Hxb & Hd & ->). exists xb, d, (x' - xb).
  split; [exact Hxb|]. split; [exact Hd|].
  destruct (Z.gtb_spec y1 b), (Z.ltb_spec y1 t);
    destruct Ec as [(Hc & -> & ->) | (Hc & -> & Ec)];
    try discriminate Hc;
    destruct E as [(He & -> & ->) | (He & -> & E)];
    try discriminate He; try (exfalso; lia).
  - split; [lia|]. intros Hin.
    destruct Ec as [(-> & ->) | (Hne & e & Ee & ->)]; [lia|].
    assert (xb = x1 /\ d = 0) as (-> & ->) by lia.
    replace (x1 + e - x1) with e by lia.
    apply (Hdiv _ _ Hne Ee). lia.
  - split; [lia|]. intros Hin.
    destruct E as [(-> & ->) | (Hne & e & Ee & ->)]; [lia|].
    assert (xb = x1 /\ d = 0) as (-> & ->) by lia.
    replace (x1 + e - x1) with e by lia.
    apply (Hdiv _ _ Hne Ee). lia.
  - split; [lia|]. lia.
Qed.

(** Clipping the same endpoint twice against a fixed other endpoint
    settles it. *)
Lemma two_passes_settle x1 y1 x2 y2 l r t b xa ya xb yb :
  ~ same_side x1 y1 x2 y2 l r t b ->
  clip_endpoint (_endpoint_code x1 y1 l r t b) x1 y1 x2 y2 l r t b
    = Ok (xa, ya) ->
  ~ settled xa ya x2 y2 l r t b ->
  clip_endpoint (_endpoint_code xa ya l r t b) xa ya x2 y2 l r t b
    = Ok (xb, yb) ->
  settled xb yb x2 y2 l r t b.
Proof.
  intros Hs E1 Hn E2.
  assert (Hs2 : ~ same_side xa ya x2 y2 l r t b)
    by (intros ?; apply Hn; right; assumption).
  apply clip_endpoint_inv in E1; [|assumption].
  apply clip_endpoint_inv in E2; [|assumption].
  destruct E1 as (xh1 & d1 & e1 & H1 & _ & H1' & _).
  destruct E2 as (xh2 & d2 & e2 & H2 & Hd2 & H2' & He2).
  unfold settled, inside, same_side, between in *.
  destruct H1 as [(? & ->) | [(? & ->) | (? & -> & ->)]];
    destruct H1' as [(? & -> & ->) | [(? & -> & ->) | (? & -> & ->)]];
    destruct H2 as [(? & ->) | [(? & ->) | (? & -> & ->)]];
    destruct H2' as [(? & -> & ->) | [(? & -> & ->) | (? & -> & ->)]];
    lia.
Qed.

Lemma same_side_sym x1 y1 x2 y2 l r t b :
  same_side x1 y1 x2 y2 l r t b -> same_side x2 y2 x1 y1 l r t b.
Proof. unfold same_side. lia. Qed.

Lemma finishes_mono n n' x1 y1 x2 y2 l r t b :
  (n <= n')%nat -> finishes n x1 y1 x2 y2 l r t b ->
  finishes n' x1 y1 x2 y2 l r t b.
Proof. unfold finishes. intros Hle Hf fuel Hfuel. apply Hf. lia. Qed.

Lemma bind_returns {A B} (r : res A) (k : A -> res B) :
  r <> OutOfFuel -> (forall a, k a <> OutOfFuel) -> (r ≫= k) <> OutOfFuel.
Proof. destruct r; cbn; auto; discriminate. Qed.

Lemma clip_endpoint_returns c x1 y1 x2 y2 l r t b :
  clip_endpoint c x1 y1 x2 y2 l r t b <> OutOfFuel.
Proof.
  pose proof (@float_of_int_returns F _). pose proof (@f_div_returns F _).
  pose proof (@int_of_float_returns F _).
  unfold clip_endpoint, slope, clip_horizontal, clip_vertical, int_mul,
    int_div.
  repeat first
    [ apply bind_returns; [|intros ?]
    | match goal with
      | |- (let '(_, _) := ?p in _) <> _ => destruct p
      | |- (if ?c then _ else _) <> _ => destruct c
      end
    | discriminate | solve [auto] ].
Qed.

(** One pass: either the loop returns, or the first endpoint is clipped,
    or (the first being inside) the two are exchanged and the second is
    clipped. *)
Lemma finishes_pass n x1 y1 x2 y2 l r t b :
  (~ inside x1 y1 l r t b -> ~ same_side x1 y1 x2 y2 l r t b ->
   forall x' y',
     clip_endpoint (_endpoint_code x1 y1 l r t b) x1 y1 x2 y2 l r t b
       = Ok (x', y') ->
     finishes n x' y' x2 y2 l r t b) ->
  (inside x1 y1 l r t b -> ~ inside x2 y2 l r t b ->
   forall x' y',
     clip_endpoint (_endpoint_code x2 y2 l r t b) x2 y2 x1 y1 l r t b
       = Ok (x', y') ->
     finishes n x' y' x1 y1 l r t b) ->
  finishes (S n) x1 y1 x2 y2 l r t b.
Proof.
  intros H1 H2 fuel Hfuel. destruct fuel as [|fuel]; [lia|]. cbn [_clip_line].
  destruct (_endpoint_code x1 y1 l r t b =? 0) eqn:E1;
    destruct (_endpoint_code x2 y2 l r t b =? 0) eqn:E2;
    cbn [andb]; try discriminate;
    destruct (negb (Z.land _ _ =? 0)) eqn:E3; try discriminate.
  - apply code_zero_inside in E1. apply code_zero_outside in E2.
    pose proof (clip_endpoint_returns (_endpoint_code x2 y2 l r t b)
                  x2 y2 x1 y1 l r t b) as Hr.
    destruct (clip_endpoint _ x2 y2 x1 y1 l r t b) as [[x' y']| |];
      cbn; try discriminate; [|congruence].
    apply (H2 E1 E2 x' y' eq_refl). lia.
  - apply code_zero_outside in E1. apply codes_disjoint_not_same_side in E3.
    pose proof (clip_endpoint_returns (_endpoint_code x1 y1 l r t b)
                  x1 y1 x2 y2 l r t b) as Hr.
    destruct (clip_endpoint _ x1 y1 x2 y2 l r t b) as [[x' y']| |];
      cbn; try discriminate; [|congruence].
    apply (H1 E1 E3 x' y' eq_refl). lia.
  - apply code_zero_outside in E1. apply codes_disjoint_not_same_side in E3.
    pose proof (clip_endpoint_returns (_endpoint_code x1 y1 l r t b)
                  x1 y1 x2 y2 l r t b) as Hr.
    destruct (clip_endpoint _ x1 y1 x2 y2 l r t b) as [[x' y']| |];
      cbn; try discriminate; [|congruence].
    apply (H1 E1 E3 x' y' eq_refl). lia.
Qed.

Lemma finishes_settled x1 y1 x2 y2 l r t b :
  (inside x1 y1 l r t b /\ inside x2 y2 l r t b) \/
  same_side x1 y1 x2 y2 l r t b ->
  finishes 1 x1 y1 x2 y2 l r t b.
Proof.
  intros Hst. apply finishes_pass.
  - intros Hn Hs. destruct Hst as [[? _]|?]; contradiction.
  - intros Hin Hn. destruct Hst as [[_ ?]|Hs]; [contradiction|].
    unfold same_side, inside in *. lia.
Qed.

(** The first endpoint is one pass away from being settled and the
    second is inside. *)
Lemma finishes_last_pass x1 y1 x2 y2 l r t b :
  inside x2 y2 l r t b ->
  (forall x' y',
     clip_endpoint (_endpoint_code x1 y1 l r t b) x1 y1 x2 y2 l r t b
       = Ok (x', y') ->
     settled x' y' x2 y2 l r t b) ->
  finishes 2 x1 y1 x2 y2 l r t b.
Proof.
  intros Hin Hone. apply finishes_pass.
  - intros _ _ x' y' E. apply finishes_settled.
    destruct (Hone _ _ E); auto.
  - intros _ Hn. contradiction.
Qed.

(** The first endpoint is inside; the second takes at most two passes. *)
Lemma finishes_first_inside x1 y1 x2 y2 l r t b :
  inside x1 y1 l r t b -> finishes 3 x1 y1 x2 y2 l r t b.
Proof.
  intros Hin. apply finishes_pass; [intros; contradiction|].
  intros _ Hout xa ya Ea.
  assert (Hns : ~ same_side x2 y2 x1 y1 l r t b)
    by (unfold same_side, inside in *; lia).
  apply finishes_last_pass; [assumption|].
  intros xb yb Eb.
  assert (Hdec : settled xa ya x1 y1 l r t b \/
                 ~ settled xa ya x1 y1 l r t b)
    by (unfold settled, inside, same_side; lia).
  destruct Hdec as [Hst|Hst].
  - destruct Hst as [Hi|Hs]; [|unfold same_side, inside in *; lia].
    apply code_zero_inside in Hi. apply Z.eqb_eq in Hi. rewrite Hi in Eb.
    cbn in Eb. unfold clip_endpoint in Eb.
    apply bind_Ok_inv in Eb. destruct Eb as (m & _ & Eb). cbn in Eb.
    injection Eb as <- <-. left. apply code_zero_inside.
    rewrite Hi. reflexivity.
  - eapply two_passes_settle; eauto.
Qed.

(** Every run returns within five passes: at most two clip each
    endpoint, and the last one accepts or rejects. *)
Lemma inside_dec x y l r t b :
  inside x y l r t b \/ ~ inside x y l r t b.
Proof. unfold inside. lia. Qed.

Lemma finishes_five x1 y1 x2 y2 l r t b :
  finishes 5 x1 y1 x2 y2 l r t b.
Proof.
  destruct (inside_dec x1 y1 l r t b) as [Hin|Hout].
  { apply (finishes_mono 3); [lia|]. apply finishes_first_inside, Hin. }
  apply finishes_pass; [|intros; contradiction].
  intros _ Hns xa ya Ea.
  destruct (inside_dec xa ya l r t b) as [Hina|Houta].
  { apply (finishes_mono 3); [lia|]. apply finishes_first_inside, Hina. }
  apply finishes_pass; [|intros; contradiction].
  intros _ Hnsa xb yb Eb.
  assert (Hst : settled xb yb x2 y2 l r t b).
  { apply (two_passes_settle x1 y1 x2 y2 l r t b xa ya xb yb Hns Ea);
      [|exact Eb].
    unfold settled. intros [?|?]; contradiction. }
  destruct Hst as [Hi|Hs].
  - apply finishes_first_inside, Hi.
  - apply (finishes_mono 1); [lia|]. apply finishes_settled. auto.
Qed.

Lemma clip_line_fuel_mono fuel x1 y1 x2 y2 l r t b :
  _clip_line fuel x1 y1 x2 y2 l r t b <> OutOfFuel ->
  _clip_line (S fuel) x1 y1 x2 y2 l r t b
    = _clip_line fuel x1 y1 x2 y2 l r t b.
Proof.
  revert x1 y1 x2 y2. induction fuel as [|fuel IH]; intros x1 y1 x2 y2 Hr.
  - contradiction.
  - cbn [_clip_line] in *.
    destruct (_ && _); [reflexivity|].
    destruct (negb _); [reflexivity|].
    destruct (if _ =? 0 then _ else _) as [[[[xa ya] xb] yb] c].
    destruct (clip_endpoint _ _ _ _ _ _ _ _ _) as [[x' y']| |];
      cbn in *; try reflexivity.
    apply IH, Hr.
Qed.

Lemma clip_line_fuel_ge n fuel x1 y1 x2 y2 l r t b :
  _clip_line n x1 y1 x2 y2 l r t b <> OutOfFuel -> (n <= fuel)%nat ->
  _clip_line fuel x1 y1 x2 y2 l r t b = _clip_line n x1 y1 x2 y2 l r t b.
Proof.
  intros Hn Hle. induction Hle as [|fuel Hle IH]; [reflexivity|].
  rewrite clip_line_fuel_mono; [exact IH|]. rewrite IH. exact Hn.
Qed.

(** An accepted segment has both endpoints inside the box. *)
Lemma clip_line_accepts_inside fuel x1 y1 x2 y2 l r t b xa ya xb yb :
  _clip_line fuel x1 y1 x2 y2 l r t b = Ok (Some (xa, ya, xb, yb)) ->
  inside xa ya l r t b /\ inside xb yb l r t b.
Proof.
  revert x1 y1 x2 y2. induction fuel as [|fuel IH]; intros x1 y1 x2 y2.
  - discriminate.
  - cbn [_clip_line].
    destruct (_endpoint_code x1 y1 l r t b =? 0) eqn:E1;
      destruct (_endpoint_code x2 y2 l r t b =? 0) eqn:E2; cbn [andb].
    + intros [= <- <- <- <-]. split; apply code_zero_inside; assumption.
    + destruct (negb _); [discriminate|].
      destruct (clip_endpoint _ _ _ _ _ _ _ _ _) as [[x' y']| |];
        cbn; try discriminate. apply IH.
    + destruct (negb _); [discriminate|].
      destruct (clip_endpoint _ _ _ _ _ _ _ _ _) as [[x' y']| |];
        cbn; try discriminate. apply IH.
    + destruct (negb _); [discriminate|].
      destruct (clip_endpoint _ _ _ _ _ _ _ _ _) as [[x' y']| |];
        cbn; try discriminate. apply IH.
Qed.

Lemma one_boundary_cases x y l r t b :
  one_boundary (_endpoint_code x y l r t b) ->
  (x < l /\ x <= r /\ t <= y <= b /\ _endpoint_code x y l r t b = _LEFT) \/
  (x > r /\ l <= x /\ t <= y <= b /\ _endpoint_code x y l r t b = _RIGHT) \/
  (y < t /\ y <= b /\ l <= x <= r /\ _endpoint_code x y l r t b = _TOP) \/
  (y > b /\ t <= y /\ l <= x <= r /\ _endpoint_code x y l r t b = _BOTTOM).
Proof.
  unfold one_boundary, _endpoint_code, _LEFT, _RIGHT, _TOP, _BOTTOM.
  destruct (Z.ltb_spec x l), (Z.ltb_spec y t), (Z.gtb_spec x r),
    (Z.gtb_spec y b);
    repeat match goal with
      | |- context [Z.lor ?a ?b] =>
          let v := eval vm_compute in (Z.lor a b) in
          change (Z.lor a b) with v
      end; lia.
Qed.

(** One pass settles an endpoint that is beyond one boundary only, the
    other endpoint being inside: it lands on that boundary, inside. *)
Lemma single_crossing_pass x1 y1 x2 y2 l r t b xa ya :
  one_boundary (_endpoint_code x1 y1 l r t b) ->
  inside x2 y2 l r t b ->
  clip_endpoint (_endpoint_code x1 y1 l r t b) x1 y1 x2 y2 l r t b
    = Ok (xa, ya) ->
  inside xa ya l r t b /\
  on_boundary (_endpoint_code x1 y1 l r t b) xa ya l r t b /\
  between xa x1 x2 /\ between ya y1 y2.
Proof.
  intros Hone Hin E. apply one_boundary_cases in Hone.
  apply clip_endpoint_inv in E;
    [|unfold same_side, inside in *; lia].
  destruct E as (xh & d & e & Hh & Hd & Hv & He).
  unfold inside, on_boundary, between in *.
  destruct Hone as [(? & ? & ? & ->) | [(? & ? & ? & ->) |
                   [(? & ? & ? & ->) | (? & ? & ? & ->)]]];
    destruct Hh as [(? & ->) | [(? & ->) | (? & -> & ->)]];
    destruct Hv as [(? & -> & ->) | [(? & -> & ->) | (? & -> & ->)]];
    unfold _LEFT, _RIGHT, _TOP, _BOTTOM; try lia;
    (assert (Hx : l <= x1 <= r) by lia); specialize (He Hx); lia.
Qed.

Lemma clip_line_accept fuel x1 y1 x2 y2 l r t b :
  inside x1 y1 l r t b -> inside x2 y2 l r t b ->
  _clip_line (S fuel) x1 y1 x2 y2 l r t b = Ok (Some (x1, y1, x2, y2)).
Proof.
  intros H1 H2. apply code_zero_inside in H1, H2. cbn [_clip_line].
  rewrite H1, H2. reflexivity.
Qed.

Lemma clip_line_reject fuel x1 y1 x2 y2 l r t b :
  same_side x1 y1 x2 y2 l r t b ->
  _clip_line (S fuel) x1 y1 x2 y2 l r t b = Ok None.
Proof.
  intros Hs. cbn [_clip_line].
  assert (Hn : ~ (inside x1 y1 l r t b /\ inside x2 y2 l r t b))
    by (unfold same_side, inside in *; lia).
  destruct (_endpoint_code x1 y1 l r t b =? 0) eqn:E1;
    destruct (_endpoint_code x2 y2 l r t b =? 0) eqn:E2; cbn [andb];
    try (apply codes_share_same_side in Hs; rewrite Hs; reflexivity).
  exfalso. apply Hn. split; apply code_zero_inside; assumption.
Qed.

Lemma clip_line_first_outside fuel x1 y1 x2 y2 l r t b :
  one_boundary (_endpoint_code x1 y1 l r t b) ->
  inside x2 y2 l r t b ->
  single_crossing_result (_clip_line (S (S fuel)) x1 y1 x2 y2 l r t b)
    (_endpoint_code x1 y1 l r t b) x1 y1 x2 y2 l r t b.
Proof.
  intros Hone Hin. pose proof (one_boundary_cases _ _ _ _ _ _ Hone) as Hc.
  assert (Hout : ~ inside x1 y1 l r t b) by (unfold inside; lia).
  assert (Hns : ~ same_side x1 y1 x2 y2 l r t b)
    by (unfold same_side, inside in *; lia).
  apply code_zero_outside in Hout.
  apply codes_disjoint_not_same_side in Hns.
  remember (S fuel) as n. cbn [_clip_line]. rewrite Hout, Hns. cbn [andb].
  pose proof (clip_endpoint_returns (_endpoint_code x1 y1 l r t b)
                x1 y1 x2 y2 l r t b) as Hr.
  destruct (clip_endpoint _ x1 y1 x2 y2 l r t b) as [[xa ya]| |] eqn:E;
    cbn; [|exact I|congruence].
  destruct (single_crossing_pass _ _ _ _ _ _ _ _ _ _ Hone Hin E)
    as (Hia & Hb & Hx & Hy).
  subst n. rewrite clip_line_accept by assumption. cbn. auto.
Qed.

Lemma clip_line_first_inside fuel x1 y1 x2 y2 l r t b :
  inside x1 y1 l r t b ->
  one_boundary (_endpoint_code x2 y2 l r t b) ->
  single_crossing_result (_clip_line (S (S fuel)) x1 y1 x2 y2 l r t b)
    (_endpoint_code x2 y2 l r t b) x2 y2 x1 y1 l r t b.
Proof.
  intros Hin Hone. pose proof (one_boundary_cases _ _ _ _ _ _ Hone) as Hc.
  assert (Hout : ~ inside x2 y2 l r t b) by (unfold inside; lia).
  assert (Hns : ~ same_side x1 y1 x2 y2 l r t b)
    by (unfold same_side, inside in *; lia).
  apply code_zero_inside in Hin as Hin'. apply code_zero_outside in Hout.
  apply codes_disjoint_not_same_side in Hns.
  remember (S fuel) as n. cbn [_clip_line].
  rewrite Hin', Hout, Hns. cbn [andb].
  pose proof (clip_endpoint_returns (_endpoint_code x2 y2 l r t b)
                x2 y2 x1 y1 l r t b) as Hr.
  destruct (clip_endpoint _ x2 y2 x1 y1 l r t b) as [[xa ya]| |] eqn:E;
    cbn; [|exact I|congruence].
  destruct (single_crossing_pass _ _ _ _ _ _ _ _ _ _ Hone Hin E)
    as (Hia & Hb & Hx & Hy).
  subst n. rewrite clip_line_accept by assumption. cbn. auto.
Qed.

End ClipFacts.

(** ** Properties of the clipper *)

Lemma clip_line_first_inside_exchanged :
  ~ @single_crossing_keeps_an_endpoint spec_float binary64.
Proof.
  intros Hclaim.
  destruct (Hclaim 2 4 (-2) 0 0 10 0 10) as (fuel & xa & ya & xb & yb & E & Hk).
  - unfold inside. lia.
  - left. reflexivity.
  - assert (E2 : _clip_line (F:=spec_float) 2 2 4 (-2) 0 0 10 0 10
                 = Ok (Some (0, 2, 2, 4))) by (vm_compute; reflexivity).
    destruct fuel as [|[|fuel]]; [discriminate E|discriminate E|].
    rewrite (clip_line_fuel_ge 2 (S (S fuel))) in E;
      [|rewrite E2; discriminate|lia].
    rewrite E2 in E. injection E as <- <- <- <-.
    destruct Hk as [Hk|Hk]; discriminate Hk.
Qed.

(** With float arithmetic that interpolates without overshoot: a segment
    with both endpoints inside the box is returned unchanged; a segment
    whose outcodes share a bit is rejected; and of a segment with one
    endpoint inside and the other beyond exactly one boundary, the endpoint
    outside is moved onto that boundary, unless the arithmetic raises. *)
Lemma clip_line_cases_without_overshoot {F : Type} `{NoOvershoot F}
    (fuel : nat)
    (x1 y1 x2 y2 l r t b : Z) :
  let code1 := _endpoint_code x1 y1 l r t b in
  let code2 := _endpoint_code x2 y2 l r t b in
  (code1 = 0 -> code2 = 0 ->
   _clip_line (S fuel) x1 y1 x2 y2 l r t b = Ok (Some (x1, y1, x2, y2))) /\
  (Z.land code1 code2 <> 0 ->
   _clip_line (S fuel) x1 y1 x2 y2 l r t b = Ok None) /\
  (one_boundary code1 -> code2 = 0 ->
   single_crossing_result (_clip_line (S (S fuel)) x1 y1 x2 y2 l r t b)
     code1 x1 y1 x2 y2 l r t b) /\
  (code1 = 0 -> one_boundary code2 ->
   single_crossing_result (_clip_line (S (S fuel)) x1 y1 x2 y2 l r t b)
     code2 x2 y2 x1 y1 l r t b).
Proof.
  intros code1 code2. subst code1 code2. repeat split.
  - intros E1 E2. apply clip_line_accept; apply code_zero_inside;
      apply Z.eqb_eq; assumption.
  - intros Hs. apply clip_line_reject. apply codes_share_same_side.
    apply negb_true_iff, Z.eqb_neq. exact Hs.
  - intros Hone E2. apply clip_line_first_outside; [exact Hone|].
    apply code_zero_inside, Z.eqb_eq. exact E2.
  - intros E1 Hone. apply clip_line_first_inside; [|exact Hone].
    apply code_zero_inside, Z.eqb_eq. exact E1.
Qed.

(** With float arithmetic that interpolates without overshoot the loop
    is through within five passes, for every segment and every box: it
    accepts, rejects, or the arithmetic raises; at most two passes clip
    each endpoint. *)
Lemma clip_line_terminates_without_overshoot {F : Type} `{NoOvershoot F}
    (x1 y1 x2 y2 l r t b : Z) :
  exists result,
    result <> OutOfFuel /\
    forall fuel, (5 <= fuel)%nat ->
      _clip_line fuel x1 y1 x2 y2 l r t b = result.
Proof.
  exists (_clip_line 5 x1 y1 x2 y2 l r t b).
  assert (Hr : _clip_line 5 x1 y1 x2 y2 l r t b <> OutOfFuel)
    by (apply (finishes_five x1 y1 x2 y2 l r t b); lia).
  split; [exact Hr|]. intros fuel Hfuel.
  apply clip_line_fuel_ge; assumption.
Qed.

(** ** Patches *)

Lemma set_pixels_same s : set_pixels s (pixels s) = s.
Proof. destruct s; reflexivity. Qed.

Lemma set_pixels_twice s px px' :
  set_pixels (set_pixels s px) px' = set_pixels s px'.
Proof. reflexivity. Qed.

Lemma length_apply_patch patch px : length (apply_patch patch px) = length px.
Proof. apply length_imap. Qed.

Lemma lookup_apply_patch patch px (i : nat) :
  apply_patch patch px !! i = (fun v => default v (patch i)) <$> px !! i.
Proof. apply list_lookup_imap. Qed.

Lemma apply_patch_none px : apply_patch (fun _ => None) px = px.
Proof.
  apply list_eq. intros i. rewrite lookup_apply_patch.
  destruct (px !! i); reflexivity.
Qed.

Lemma apply_patch_compose p1 p2 px :
  apply_patch p2 (apply_patch p1 px)
  = apply_patch (fun i => match p2 i with Some v => Some v | None => p1 i end) px.
Proof.
  apply list_eq. intros i. rewrite !lookup_apply_patch.
  destruct (px !! i); cbn; [|reflexivity]. destruct (p2 i); reflexivity.
Qed.

Lemma apply_patch_idem patch px :
  apply_patch patch (apply_patch patch px) = apply_patch patch px.
Proof.
  apply list_eq. intros i. rewrite !lookup_apply_patch.
  destruct (px !! i); cbn; [|reflexivity]. destruct (patch i); reflexivity.
Qed.

Lemma insert_as_patch (px : list Z) (k : nat) (c : Z) :
  (k < length px)%nat ->
  <[k := c]> px
  = apply_patch (fun i => if (i =? k)%nat then Some c else None) px.
Proof.
  intros Hk. apply list_eq. intros i. rewrite lookup_apply_patch.
  destruct (Nat.eqb_spec i k) as [->|Hne].
  - rewrite list_lookup_insert_eq by exact Hk.
    destruct (lookup_lt_is_Some_2 px k Hk) as [v ->]. reflexivity.
  - rewrite list_lookup_insert_ne by congruence.
    destruct (px !! i); reflexivity.
Qed.

Lemma OverwritesAt_ext allowed s {A} (m m' : Draw A) :
  (forall s', m s' = m' s') ->
  OverwritesAt allowed s m' -> OverwritesAt allowed s m.
Proof.
  intros E (p & Hp & Hm). exists p. split; [exact Hp|].
  intros px Hpx. rewrite !E. apply Hm, Hpx.
Qed.

Section Overwrites.

Variable allowed : nat -> Prop.
Variable s : Surface.

Lemma ow_at_s {A} (m : Draw A) patch :
  (forall px, length px = length (pixels s) ->
     m (set_pixels s px) = (set_pixels s (apply_patch patch px), (m s).2)) ->
  m s = (set_pixels s (apply_patch patch (pixels s)), (m s).2).
Proof.
  intros Hm. specialize (Hm (pixels s) eq_refl).
  rewrite set_pixels_same in Hm. exact Hm.
Qed.

Lemma ow_lift {A} (r : res A) : OverwritesAt allowed s (lift r).
Proof.
  exists (fun _ => None). split; [discriminate|].
  intros px _. unfold lift. rewrite apply_patch_none. reflexivity.
Qed.

Lemma ow_ret {A} (a : A) : OverwritesAt allowed s (mret a).
Proof. apply (ow_lift (Ok a)). Qed.

Lemma ow_raise {A} e : OverwritesAt allowed s (@raise A e).
Proof. apply ow_lift. Qed.

Lemma ow_bind {A B} (m : Draw A) (k : A -> Draw B) :
  OverwritesAt allowed s m ->
  (forall a, (m s).2 = Ok a -> OverwritesAt allowed s (k a)) ->
  OverwritesAt allowed s (m ≫= k).
Proof.
  intros (p1 & Hp1 & Hm) Hk.
  pose proof (ow_at_s m p1 Hm) as Hs.
  destruct (m s) as [s1 [a| |]] eqn:Em; cbn in *.
  - destruct (Hk a eq_refl) as (p2 & Hp2 & Hka).
    injection Hs as Hs1. subst s1.
    exists (fun i => match p2 i with Some v => Some v | None => p1 i end).
    split.
    { intros i v. destruct (p2 i) eqn:E2; eauto. }
    assert (Hout : forall px, length px = length (pixels s) ->
              (m ≫= k) (set_pixels s px)
              = (set_pixels s (apply_patch p2 (apply_patch p1 px)),
                 (k a s).2)).
    { intros px Hpx. unfold mbind, draw_bind. rewrite (Hm px Hpx).
      apply Hka. rewrite length_apply_patch. exact Hpx. }
    intros px Hpx. rewrite (Hout px Hpx), apply_patch_compose.
    f_equal. unfold mbind, draw_bind. rewrite Em.
    rewrite (Hka (apply_patch p1 (pixels s))); [reflexivity|].
    now rewrite length_apply_patch.
  - exists p1. split; [exact Hp1|]. intros px Hpx.
    unfold mbind, draw_bind. rewrite (Hm px Hpx), Em. reflexivity.
  - exists p1. split; [exact Hp1|]. intros px Hpx.
    unfold mbind, draw_bind. rewrite (Hm px Hpx), Em. reflexivity.
Qed.

End Overwrites.

(** ** The pixel walk *)

Section Walk.

Context {F : Type} `{PyFloat F}.

Lemma bresenham_stores n color dx dy incx incy y pixel s :
  bresenham n color dx dy incx incy y pixel s
  = store_all (bresenham_indices n dx dy incx incy y pixel) color s.
Proof.
  revert y pixel s. induction n as [|n IH]; intros y pixel s;
    cbn [bresenham bresenham_indices store_all]; [reflexivity|].
  unfold mbind, draw_bind. destruct (set_pixel pixel color s) as [s' [[]| |]];
    try reflexivity.
  destruct (y + dy >? dx); apply IH.
Qed.

(** After [k] passes the walk has advanced [k] steps along the major
    axis and [c] steps along the minor one, and [c] stays below [dy]. *)
Lemma bresenham_indices_steps dx dy incx incy pixel0 :
  1 <= dy <= dx ->
  forall n k c y,
    Z.of_nat n + k = dx -> 0 <= k -> 0 <= c ->
    y = k * dy - c * dx ->
    (k = 0 /\ c = 0) \/ 1 <= y <= dx ->
    forall i,
      i ∈ bresenham_indices n dx dy incx incy y
            (pixel0 + k * incx + c * incy) ->
      exists k' c', 0 <= k' < dx /\ 0 <= c' < dy /\
                    i = pixel0 + k' * incx + c' * incy.
Proof.
  intros Hd. induction n as [|n IH]; intros k c y Hn Hk Hc Hy Hinv i Hi;
    cbn [bresenham_indices] in Hi.
  - inversion Hi.
  - apply elem_of_cons in Hi. destruct Hi as [->|Hi].
    + exists k, c. split; [lia|]. split; [nia|reflexivity].
    + destruct (Z.gtb_spec (y + dy) dx) as [Hgt|Hle].
      * replace (pixel0 + k * incx + c * incy + incy + incx)
          with (pixel0 + (k + 1) * incx + (c + 1) * incy) in Hi by lia.
        apply (IH (k + 1) (c + 1) (y + dy - dx)) in Hi; [exact Hi|nia..].
      * replace (pixel0 + k * incx + c * incy + incx)
          with (pixel0 + (k + 1) * incx + c * incy) in Hi by lia.
        apply (IH (k + 1) c (y + dy)) in Hi; [exact Hi|nia..].
Qed.

(** Between two endpoints inside a box, every step of the walk is the
    buffer index of a point inside the box. *)
Lemma walk_setup_in_box pitch x1 y1 x2 y2 l r t b :
  inside x1 y1 l r t b -> inside x2 y2 l r t b ->
  let '(dx, dy, incx, incy, pixel) := walk_setup pitch x1 y1 x2 y2 in
  1 <= dy <= dx /\
  forall k c, 0 <= k < dx -> 0 <= c < dy ->
    exists x y, inside x y l r t b /\
                pixel + k * incx + c * incy = y * pitch + x.
Proof.
  unfold inside, walk_setup. intros H1 H2.
  set (signx := 1 - (if x2 - x1 <? 0 then 1 else 0) * 2).
  set (signy := 1 - (if y2 - y1 <? 0 then 1 else 0) * 2).
  assert (Hsx : signx * (x2 - x1) = Z.abs (x2 - x1) /\
                (signx = 1 \/ signx = -1))
    by (unfold signx; destruct (Z.ltb_spec (x2 - x1) 0); lia).
  assert (Hsy : signy * (y2 - y1) = Z.abs (y2 - y1) /\
                (signy = 1 \/ signy = -1))
    by (unfold signy; destruct (Z.ltb_spec (y2 - y1) 0); lia).
  destruct Hsx as [Hsx Hsx'], Hsy as [Hsy Hsy']. clearbody signx signy.
  destruct (Z.ltb_spec (signx * (x2 - x1) + 1) (signy * (y2 - y1) + 1))
    as [Hlt|Hge]; (split; [lia|]); intros k c Hk Hc.
  - exists (x1 + signx * c), (y1 + signy * k). split; [|ring].
    destruct Hsx', Hsy'; subst signx signy; lia.
  - exists (x1 + signx * k), (y1 + signy * c). split; [|ring].
    destruct Hsx', Hsy'; subst signx signy; lia.
Qed.

Lemma thin_line_stores fuel color start_pos end_pos s :
  (thin_line fuel color start_pos end_pos s).1
  = (store_all (thin_line_indices fuel s start_pos end_pos) color s).1.
Proof.
  unfold thin_line, thin_line_indices, mbind, draw_bind, get_surface, lift.
  destruct (BytesPerPixel (format s) =? 3); [reflexivity|].
  destruct (_clip_line _ _ _ _ _ _ _ _ _) as [[[[[x1 y1] x2] y2]|]| |];
    try reflexivity.
  destruct (BytesPerPixel (format s) =? 0); [reflexivity|].
  destruct (walk_setup _ _ _ _ _) as [[[[dx dy] incx] incy] pixel].
  rewrite bresenham_stores. reflexivity.
Qed.

Lemma inside_in_rect s x y :
  inside x y (clip_left s) (clip_right s) (clip_top s) (clip_bottom s)
  <-> in_rect (clip_rect s) x y = true.
Proof.
  unfold inside, in_rect, clip_left, clip_right, clip_top, clip_bottom.
  rewrite !andb_true_iff, !Z.leb_le, !Z.ltb_lt. lia.
Qed.

Lemma thin_line_indices_in_clip fuel s start_pos end_pos i :
  i ∈ thin_line_indices fuel s start_pos end_pos ->
  exists x y, in_rect (clip_rect s) x y = true /\ i = y * pitch_px s + x.
Proof.
  unfold thin_line_indices.
  destruct (BytesPerPixel (format s) =? 3); [inversion 1|].
  destruct (_clip_line _ _ _ _ _ _ _ _ _) as [[[[[x1 y1] x2] y2]|]| |] eqn:Hc;
    try (inversion 1; fail).
  destruct (BytesPerPixel (format s) =? 0); [inversion 1|].
  apply clip_line_accepts_inside in Hc. destruct Hc as [H1 H2].
  fold (pitch_px s).
  pose proof (walk_setup_in_box (pitch_px s) x1 y1 x2 y2 _ _ _ _ H1 H2)
    as Hw.
  destruct (walk_setup (pitch_px s) x1 y1 x2 y2)
    as [[[[dx dy] incx] incy] pixel].
  destruct Hw as (Hd & Hbox). intros Hi.
  replace pixel with (pixel + 0 * incx + 0 * incy) in Hi by lia.
  apply (bresenham_indices_steps dx dy incx incy pixel Hd
           (Z.to_nat dx) 0 0 0) in Hi; try lia.
  destruct Hi as (k & c & Hk & Hc & ->).
  destruct (Hbox k c Hk Hc) as (x & y & Hin & E).
  exists x, y. split; [|exact E]. apply inside_in_rect. exact Hin.
Qed.

End Walk.

(** ** Every drawing operation overwrites, within what the two writing
    primitives may touch *)

Section OverwritesDraw.

Context {F : Type} `{PyFloat F}.
Variable allowed : nat -> Prop.
Variable s : Surface.

Hypothesis allowed_fill :
  forall r i, fill_region s r i = true -> allowed i.
Hypothesis allowed_pixel :
  forall x y j,
    inside x y (clip_left s) (clip_right s) (clip_top s) (clip_bottom s) ->
    j = buffer_index (Z.of_nat (length (pixels s))) (y * pitch_px s + x) ->
    0 <= j < Z.of_nat (length (pixels s)) ->
    allowed (Z.to_nat j).

Lemma ow_bind_surface {A} (k : Surface -> Draw A) :
  (forall px s', k (set_pixels s px) s' = k s s') ->
  OverwritesAt allowed s (k s) ->
  OverwritesAt allowed s (get_surface ≫= k).
Proof.
  intros Hattr (p & Hp & Hk). exists p. split; [exact Hp|].
  intros px Hpx. unfold mbind, draw_bind, get_surface.
  rewrite Hattr. apply Hk, Hpx.
Qed.

Lemma ow_fill r color : OverwritesAt allowed s (SDL_FillRect r color).
Proof.
  exists (fun i => if fill_region s r i then Some color else None). split.
  - intros i v Hi. apply (allowed_fill r).
    destruct (fill_region s r i); [reflexivity|discriminate].
  - intros px _. unfold SDL_FillRect. cbn. f_equal. f_equal.
    unfold paint, apply_patch. apply imap_ext. intros i v _.
    change (fill_region (set_pixels s px) r i) with (fill_region s r i).
    destruct (fill_region s r i); reflexivity.
Qed.

Lemma ow_set_pixel x y color :
  inside x y (clip_left s) (clip_right s) (clip_top s) (clip_bottom s) ->
  OverwritesAt allowed s (set_pixel (y * pitch_px s + x) color).
Proof.
  intros Hin. unfold OverwritesAt, set_pixel.
  set (n := Z.of_nat (length (pixels s))).
  set (j := buffer_index n (y * pitch_px s + x)).
  destruct ((0 <=? j) && (j <? n)) eqn:Hr.
  - exists (fun i => if (i =? Z.to_nat j)%nat then Some color else None).
    split.
    + intros i v Hi. destruct (Nat.eqb_spec i (Z.to_nat j)); [|discriminate].
      subst i. apply (allowed_pixel x y j Hin eq_refl). fold n. lia.
    + intros px Hpx. cbn. rewrite Hpx. fold n j. rewrite Hr. cbn.
      rewrite insert_as_patch by lia. reflexivity.
  - exists (fun _ => None). split; [discriminate|].
    intros px Hpx. cbn. rewrite Hpx. fold n j. rewrite Hr.
    rewrite apply_patch_none. reflexivity.
Qed.

Lemma ow_store_all color indices :
  (forall i, i ∈ indices ->
     exists x y,
       inside x y (clip_left s) (clip_right s) (clip_top s) (clip_bottom s)
       /\ i = y * pitch_px s + x) ->
  OverwritesAt allowed s (store_all indices color).
Proof.
  induction indices as [|i indices IH]; intros Hin; cbn [store_all].
  - apply ow_ret.
  - apply ow_bind.
    + destruct (Hin i) as (x & y & Hxy & ->); [left|].
      apply ow_set_pixel, Hxy.
    + intros _ _. apply IH. intros j Hj. apply Hin. right. exact Hj.
Qed.

Lemma ow_thin_line fuel color start_pos end_pos :
  OverwritesAt allowed s (thin_line fuel color start_pos end_pos).
Proof.
  unfold thin_line. apply ow_bind_surface; [reflexivity|].
  destruct (BytesPerPixel (format s) =? 3); [apply ow_raise|].
  apply ow_bind; [apply ow_lift|].
  intros [[[[x1 y1] x2] y2]|] Hc; [|apply ow_ret].
  destruct (BytesPerPixel (format s) =? 0); [apply ow_raise|].
  cbn in Hc. apply clip_line_accepts_inside in Hc.
  fold (clip_left s) (clip_right s) (clip_top s) (clip_bottom s) in Hc.
  fold (clip_right s) (clip_bottom s) in Hc.
  fold (pitch_px s). destruct Hc as [H1 H2].
  pose proof (walk_setup_in_box (pitch_px s) x1 y1 x2 y2 _ _ _ _ H1 H2)
    as Hw.
  destruct (walk_setup (pitch_px s) x1 y1 x2 y2)
    as [[[[dx dy] incx] incy] pixel].
  destruct Hw as (Hd & Hbox).
  eapply OverwritesAt_ext; [intros; apply bresenham_stores|].
  apply ow_store_all. intros i Hi.
  replace pixel with (pixel + 0 * incx + 0 * incy) in Hi by lia.
  apply (bresenham_indices_steps dx dy incx incy pixel Hd
           (Z.to_nat dx) 0 0 0) in Hi; try lia.
  destruct Hi as (k & c' & Hk & Hc' & ->). apply Hbox; assumption.
Qed.

Lemma ow_thick_loop n draw xinc yinc x1 y1 x2 y2 :
  (forall p q, OverwritesAt allowed s (draw p q)) ->
  OverwritesAt allowed s (thick_loop n draw xinc yinc x1 y1 x2 y2).
Proof.
  intros Hdraw. revert x1 y1 x2 y2.
  induction n as [|n IH]; intros x1 y1 x2 y2; cbn [thick_loop].
  - apply ow_ret.
  - apply ow_bind; [apply Hdraw|]. intros _ _. apply IH.
Qed.

Lemma ow_line_rec depth fuel color start_pos end_pos width :
  OverwritesAt allowed s (line_rec depth fuel color start_pos end_pos width).
Proof.
  revert color start_pos end_pos width.
  induction depth as [|depth IH]; intros color start_pos end_pos width;
    cbn [line_rec].
  - apply ow_lift.
  - destruct (width <? 1); [apply ow_ret|].
    apply ow_bind_surface; [reflexivity|].
    apply ow_bind; [apply ow_lift|]. intros c _.
    apply ow_bind; [|intros; apply ow_ret].
    destruct (_ =? _); [apply ow_fill|].
    destruct (_ =? _); [apply ow_fill|].
    destruct (width >? 1); [|apply ow_thin_line].
    destruct (_ >? _); apply ow_thick_loop; intros; apply IH.
Qed.

Lemma ow_line fuel color start_pos end_pos width :
  OverwritesAt allowed s (line fuel color start_pos end_pos width).
Proof. apply ow_line_rec. Qed.

Lemma ow_segments fuel color width last points :
  OverwritesAt allowed s (segments fuel color width last points).
Proof.
  revert last. induction points as [|point points IH]; intros last;
    cbn [segments].
  - apply ow_ret.
  - apply ow_bind; [apply ow_line|]. intros _ _. apply IH.
Qed.

Lemma ow_lines fuel color closed pointlist width :
  OverwritesAt allowed s (lines fuel color closed pointlist width).
Proof.
  unfold lines. destruct (width <? 1); [apply ow_ret|].
  apply ow_bind_surface; [reflexivity|].
  apply ow_bind; [apply ow_lift|]. intros c _.
  destruct (_ <? _)%nat; [apply ow_raise|].
  destruct pointlist as [|first rest]; [apply ow_raise|].
  apply ow_bind; [apply ow_segments|]. intros last _.
  apply ow_bind; [|intros; apply ow_ret].
  destruct closed; [apply ow_line|apply ow_ret].
Qed.

Lemma ow_fill_spans y color scan :
  forall edges, OverwritesAt allowed s (fill_spans y color scan edges).
Proof.
  induction scan as [scan IH] using (induction_ltof1 _ (@length nat)).
  unfold ltof in IH. intros edges.
  destruct scan as [|a [|b scan']]; cbn [fill_spans].
  - apply ow_ret.
  - apply ow_raise.
  - apply ow_bind; [apply ow_lift|]. intros x _.
    apply ow_bind; [apply ow_lift|]. intros x' _.
    apply ow_bind; [apply ow_fill|]. intros _ _.
    apply ow_bind; [apply ow_lift|]. intros e1 _.
    apply ow_bind; [apply ow_lift|]. intros e2 _.
    apply IH. cbn. lia.
Qed.

Lemma ow_scan_lines n color :
  forall y edges, OverwritesAt allowed s (scan_lines n y color edges).
Proof.
  induction n as [|n IH]; intros y edges; cbn [scan_lines].
  - apply ow_ret.
  - destruct (negb _); [apply ow_raise|].
    apply ow_bind; [apply ow_fill_spans|]. intros e _. apply IH.
Qed.

Lemma ow_polygon fuel color pointlist width :
  OverwritesAt allowed s (polygon fuel color pointlist width).
Proof.
  unfold polygon. destruct (width >? 0); [apply ow_lines|].
  apply ow_bind_surface; [reflexivity|].
  apply ow_bind; [apply ow_lift|]. intros c _.
  destruct (_ <? _)%nat; [apply ow_raise|].
  destruct pointlist as [|[x1 y1] rest]; [apply ow_raise|].
  apply ow_bind; [apply ow_lift|].
  intros [edges [[[miny maxy] minx] maxx]] _.
  apply ow_bind; [apply ow_scan_lines|]. intros; apply ow_ret.
Qed.

Lemma ow_rect color rect_arg width :
  OverwritesAt allowed s (rect color rect_arg width).
Proof.
  unfold rect. apply ow_bind_surface; [reflexivity|].
  apply ow_bind; [apply ow_lift|]. intros c _.
  apply ow_bind; [|intros; apply ow_ret].
  destruct (width =? 0); [apply ow_fill|].
  repeat (apply ow_bind; [apply ow_fill|]; intros _ _).
  apply ow_fill.
Qed.

Lemma ow_draw fuel d : OverwritesAt allowed s (draw fuel d).
Proof.
  destruct d; cbn [draw].
  - apply ow_rect.
  - apply ow_polygon.
  - apply ow_line.
  - apply ow_lines.
Qed.

End OverwritesDraw.

Lemma fill_region_in_clip s r i :
  fill_region s r i = true -> in_clip_bounds s i = true.
Proof.
  unfold fill_region, in_clip_bounds. rewrite !andb_true_iff. tauto.
Qed.

Lemma clip_pixel_in_clip s x y j :
  wf_surface s ->
  inside x y (clip_left s) (clip_right s) (clip_top s) (clip_bottom s) ->
  j = buffer_index (Z.of_nat (length (pixels s))) (y * pitch_px s + x) ->
  0 <= j < Z.of_nat (length (pixels s)) ->
  in_clip_bounds s (Z.to_nat j) = true.
Proof.
  intros (Hp & Hx & Hy & Hw & Hh) Hin -> Hj.
  pose proof (proj1 (inside_in_rect s x y) Hin) as Hr.
  unfold inside, clip_left, clip_right, clip_top, clip_bottom in Hin.
  assert (Hidx : 0 <= y * pitch_px s + x) by nia.
  unfold buffer_index in *.
  destruct (Z.ltb_spec (y * pitch_px s + x) 0); [lia|].
  unfold in_clip_bounds. rewrite Z2Nat.id by lia.
  assert (Hm : (y * pitch_px s + x) mod pitch_px s = x).
  { rewrite Z.add_comm, Z.mod_add by lia. apply Z.mod_small. lia. }
  assert (Hq : (y * pitch_px s + x) / pitch_px s = y).
  { rewrite Z.add_comm, Z.div_add by lia. rewrite Z.div_small by lia. lia. }
  rewrite Hm, Hq, Hr. unfold in_bounds.
  rewrite !andb_true_iff, !Z.leb_le, !Z.ltb_lt. lia.
Qed.

(** ** Properties of the drawing operations *)

(** C1. No drawing operation (rect, polygon, line, lines) modifies a buffer
    element that is not a pixel inside the clip rectangle intersected with
    the pixel bounds; and every index the thin line's pixel loop stores to
    is the index [y * pitch + x] of a point [(x, y)] of the clip
    rectangle. *)
Theorem drawing_within_clip {F : Type} `{PyFloat F} (fuel : nat)
    (d : drawing) (s : Surface) :
  wf_surface s ->
  (forall i : nat, in_clip_bounds s i = false ->
     pixels (draw fuel d s).1 !! i = pixels s !! i) /\
  (forall start_pos end_pos i,
     i ∈ thin_line_indices fuel s start_pos end_pos ->
     exists x y, in_rect (clip_rect s) x y = true /\ i = y * pitch_px s + x).
Proof.
  intros Hwf. split.
  - intros i Hi.
    destruct (ow_draw (fun i => in_clip_bounds s i = true) s
                (fill_region_in_clip s)
                (fun x y j => clip_pixel_in_clip s x y j Hwf) fuel d)
      as (patch & Hpatch & Hm).
    rewrite (ow_at_s s _ patch Hm). cbn. rewrite lookup_apply_patch.
    destruct (patch i) as [v|] eqn:Ep.
    + apply Hpatch in Ep. congruence.
    + destruct (pixels s !! i); reflexivity.
  - intros start_pos end_pos i. apply thin_line_indices_in_clip.
Qed.

Lemma drawing_within_clip_witness :
  wf_surface surface_8x6 /\
  pixels (draw (F:=spec_float) 5
            (DrawLine (ColorInt 7) (-3, 0) (10, 5) 1) surface_8x6).1 !! 8%nat
  = pixels surface_8x6 !! 8%nat.
Proof.
  assert (Hwf : wf_surface surface_8x6) by (vm_compute; intuition discriminate).
  split; [exact Hwf|].
  apply (drawing_within_clip 5 _ surface_8x6 Hwf). reflexivity.
Defined.

(** C9. Drawing a shape twice in succession leaves the surface as drawing
    it once does: every store writes a value that does not depend on the
    pixels already there. *)
Theorem drawing_idempotent {F : Type} `{PyFloat F} (fuel : nat)
    (d : drawing) (s : Surface) :
  (draw fuel d (draw fuel d s).1).1 = (draw fuel d s).1 /\
  (draw fuel d (draw fuel d s).1).2 = (draw fuel d s).2.
Proof.
  destruct (ow_draw (fun _ => True) s (fun _ _ _ => I)
              (fun _ _ _ _ _ _ => I) fuel d) as (patch & _ & Hm).
  rewrite (ow_at_s s _ patch Hm). cbn [fst snd].
  rewrite Hm by apply length_apply_patch.
  rewrite apply_patch_idem. split; reflexivity.
Qed.

(** C5. With a width above zero, [polygon] is [lines] with [closed=True]
    on the same vertices, colour and width: the same surface results, and
    the same return value or exception. *)
Theorem polygon_stroke_is_closed_lines {F : Type} `{PyFloat F} (fuel : nat)
    (color : color_arg) (pointlist : list (Z * Z)) (width : Z) (s : Surface) :
  0 < width ->
  polygon fuel color pointlist width s
  = lines fuel color true pointlist width s.
Proof.
  intros Hw. unfold polygon.
  destruct (Z.gtb_spec width 0); [reflexivity|lia].
Qed.

Lemma polygon_stroke_is_closed_lines_witness :
  0 < 2 /\
  polygon (F:=spec_float) 5 (ColorRGB 1 2 3) [(1, 1); (6, 2); (3, 4)] 2
    surface_8x6
  = lines 5 (ColorRGB 1 2 3) true [(1, 1); (6, 2); (3, 4)] 2 surface_8x6.
Proof.
  split; [lia|]. apply polygon_stroke_is_closed_lines. lia.
Defined.

Lemma get_color_valid color s :
  valid_color color -> exists c, _get_color color s = Ok c.
Proof.
  unfold valid_color, _get_color. destruct color; cbn; eauto. congruence.
Qed.

Lemma polygon_two_points_no_error :
  ~ @polygon_needs_three_points spec_float binary64.
Proof.
  intros Hclaim.
  specialize (Hclaim 5%nat (ColorInt 7) [(1, 1); (5, 3)] 1 surface_8x6).
  vm_compute in Hclaim.
  assert (E : Ok None = Raise InsufficientPoints :> res (option SDL_Rect)).
  { apply Hclaim; [discriminate|discriminate|lia]. }
  discriminate E.
Qed.

(** C6, amended.  With a valid colour: [lines] with a width of at least 1
    and fewer than two points raises, and [polygon] with a width of at most
    0 and fewer than three points raises, both leaving the surface as it
    was; [polygon] with a width of at least 1 is [lines] closed on the same
    arguments, so it raises, the surface as it was, with fewer than two
    points, and its own check of three points does not run. *)
Theorem point_count_errors {F : Type} `{PyFloat F} (fuel : nat)
    (color : color_arg) (closed : bool) (pointlist : list (Z * Z))
    (width : Z) (s : Surface) :
  valid_color color ->
  (1 <= width -> (length pointlist < 2)%nat ->
   lines fuel color closed pointlist width s = (s, Raise InsufficientPoints))
  /\
  (width <= 0 -> (length pointlist < 3)%nat ->
   polygon fuel color pointlist width s = (s, Raise InsufficientPoints))
  /\
  (1 <= width ->
   polygon fuel color pointlist width s
   = lines fuel color true pointlist width s)
  /\
  (1 <= width -> (length pointlist < 2)%nat ->
   polygon fuel color pointlist width s = (s, Raise InsufficientPoints)).
Proof.
  intros Hc. destruct (get_color_valid color s Hc) as (c & Ec).
  assert (Hl : forall closed', 1 <= width -> (length pointlist < 2)%nat ->
            lines fuel color closed' pointlist width s
            = (s, Raise InsufficientPoints)).
  { intros closed' Hw Hn. unfold lines.
    destruct (Z.ltb_spec width 1); [lia|].
    unfold mbind, draw_bind, get_surface, lift. rewrite Ec.
    destruct (Nat.ltb_spec (length pointlist) 2); [reflexivity|lia]. }
  assert (Hp : 1 <= width ->
            polygon fuel color pointlist width s
            = lines fuel color true pointlist width s).
  { intros Hw. unfold polygon.
    destruct (Z.gtb_spec width 0); [reflexivity|lia]. }
  split; [|split; [|split]].
  - apply Hl.
  - intros Hw Hn. unfold polygon.
    destruct (Z.gtb_spec width 0); [lia|].
    unfold mbind, draw_bind, get_surface, lift. rewrite Ec.
    destruct (Nat.ltb_spec (length pointlist) 3); [reflexivity|lia].
  - exact Hp.
  - intros Hw Hn. rewrite (Hp Hw). apply Hl; assumption.
Qed.

Lemma point_count_errors_witness :
  valid_color (ColorRGB 1 2 3) /\
  lines (F:=spec_float) 5 (ColorRGB 1 2 3) false [(1, 1)] 1 surface_8x6
  = (surface_8x6, Raise InsufficientPoints).
Proof.
  assert (Hc : valid_color (ColorRGB 1 2 3)) by discriminate.
  split; [exact Hc|].
  apply (proj1 (point_count_errors 5 (ColorRGB 1 2 3) false [(1, 1)] 1
                  surface_8x6 Hc)); [lia|cbn; lia].
Defined.

(** C7. With a width below 1, [line] and [lines] store no pixel, leave the
    surface as it was and return [None]. *)
Theorem narrow_line_draws_nothing {F : Type} `{PyFloat F} (fuel : nat)
    (color : color_arg) (start_pos end_pos : Z * Z) (closed : bool)
    (pointlist : list (Z * Z)) (width : Z) (s : Surface) :
  width < 1 ->
  line fuel color start_pos end_pos width s = (s, Ok None) /\
  lines fuel color closed pointlist width s = (s, Ok None).
Proof.
  intros Hw. unfold line, lines. cbn [line_rec].
  destruct (Z.ltb_spec width 1); [|lia]. split; reflexivity.
Qed.

Lemma narrow_line_draws_nothing_witness :
  0 < 1 /\
  line (F:=spec_float) 5 (ColorInt 7) (1, 1) (5, 3) 0 surface_8x6
  = (surface_8x6, Ok None).
Proof.
  split; [lia|].
  apply (proj1 (narrow_line_draws_nothing 5 (ColorInt 7) (1, 1) (5, 3)
                  false [] 0 surface_8x6 ltac:(lia))).
Defined.

(** C10. [line] tests the width before it resolves the colour: with a
    width below 1 a colour of an invalid type raises nothing and [None] is
    returned; with a width of at least 1 it raises before any geometry is
    processed, the surface untouched. *)
Theorem line_width_before_color {F : Type} `{PyFloat F} (fuel : nat)
    (color : color_arg) (start_pos end_pos : Z * Z) (width : Z)
    (s : Surface) :
  ~ valid_color color ->
  (width < 1 -> line fuel color start_pos end_pos width s = (s, Ok None)) /\
  (1 <= width ->
   line fuel color start_pos end_pos width s = (s, Raise InvalidColor)).
Proof.
  intros Hc. assert (color = ColorOther) as ->.
  { unfold valid_color in Hc. destruct color; try (exfalso; apply Hc; discriminate).
    reflexivity. }
  unfold line. cbn [line_rec]. split; intros Hw.
  - destruct (Z.ltb_spec width 1); [reflexivity|lia].
  - destruct (Z.ltb_spec width 1); [lia|reflexivity].
Qed.

Lemma line_width_before_color_witness :
  ~ valid_color ColorOther /\
  line (F:=spec_float) 5 ColorOther (1, 1) (5, 3) 1 surface_8x6
  = (surface_8x6, Raise InvalidColor).
Proof.
  assert (Hc : ~ valid_color ColorOther) by (intros Hv; apply Hv; reflexivity).
  split; [exact Hc|].
  apply (proj2 (line_width_before_color 5 ColorOther (1, 1) (5, 3) 1
                  surface_8x6 Hc)).
  lia.
Defined.

(** C2, at the input where the code departs from it: a thin line across
    the clip rectangle changes five pixels and returns [None], the value it
    also returns when nothing is drawn. *)
Theorem line_drawn_returns_none :
  (line (F:=spec_float) 5 (ColorInt 7) (1, 1) (5, 3) 1 surface_8x6).2
  = Ok None /\
  pixels (line (F:=spec_float) 5 (ColorInt 7) (1, 1) (5, 3) 1 surface_8x6).1
  = [0; 0; 0; 0; 0; 0; 0; 0;
     0; 7; 7; 0; 0; 0; 0; 0;
     0; 0; 0; 7; 7; 0; 0; 0;
     0; 0; 0; 0; 0; 7; 0; 0;
     0; 0; 0; 0; 0; 0; 0; 0;
     0; 0; 0; 0; 0; 0; 0; 0] /\
  (line (F:=spec_float) 5 (ColorInt 7) (1, 1) (5, 3) 0 surface_8x6).2
  = Ok None.
Proof. vm_compute. repeat split. Qed.

(** ** The even-odd rule of the polygon fill *)

Section EvenOdd.

Context {F : Type} `{PyFloat F}.

Lemma active_odd_app y (edges : list (@Edge F)) e :
  active_odd y (edges ++ [e]) = xorb (active_odd y edges) (active y e).
Proof.
  unfold active_odd. rewrite filter_app, length_app.
  rewrite filter_cons, filter_nil.
  destruct (decide (active y e = true)) as [E|E].
  - rewrite E. cbn [length]. rewrite Nat.add_1_r, Nat.odd_succ.
    rewrite <- Nat.negb_odd. destruct (Nat.odd _); reflexivity.
  - apply not_true_is_false in E. rewrite E. cbn [length].
    rewrite Nat.add_0_r. destruct (Nat.odd _); reflexivity.
Qed.

Lemma last_cons_default {A} (a d : A) l :
  List.last (a :: l) d = List.last l a.
Proof.
  revert a d. induction l as [|b l IH]; intros a d; [reflexivity|].
  change (List.last (a :: b :: l) d) with (List.last (b :: l) d).
  rewrite (IH b d), (IH b a). reflexivity.
Qed.

(** Walking the outline from ordinate [y1], the parity of the active
    edges changes exactly when the scanline separates [y1] from the
    ordinate reached. *)
Lemma build_edges_parity y points :
  forall x1 y1 miny maxy minx maxx edges0 edges box,
    build_edges points x1 y1 miny maxy minx maxx edges0 = Ok (edges, box) ->
    active_odd y edges
    = xorb (active_odd y edges0)
           (separates y y1 (List.last (map snd points) y1)).
Proof.
  induction points as [|[x2 y2] points IH];
    intros x1 y1 miny maxy minx maxx edges0 edges box E.
  - cbn in E. injection E as <- _. unfold separates. cbn.
    destruct (y1 <=? y), (active_odd y edges0); reflexivity.
  - cbn [build_edges] in E. apply bind_Ok_inv in E.
    destruct E as ([[edges1 miny1] maxy1] & E1 & E).
    apply IH in E. rewrite E. clear E IH.
    assert (Hstep : active_odd y edges1
                    = xorb (active_odd y edges0) (separates y y1 y2)).
    { unfold separates.
      destruct (Z.gtb_spec y2 y1) as [Hgt|Hle].
      - apply bind_Ok_inv in E1. destruct E1 as (k & _ & E1).
        injection E1 as <- _ _. rewrite active_odd_app. f_equal.
        unfold active. cbn.
        destruct (Z.geb_spec y y1), (Z.ltb_spec y y2), (Z.leb_spec y1 y),
          (Z.leb_spec y2 y); cbn; try reflexivity; lia.
      - destruct (Z.ltb_spec y2 y1) as [Hlt|Hge].
        + apply bind_Ok_inv in E1. destruct E1 as (k & _ & E1).
          injection E1 as <- _ _. rewrite active_odd_app. f_equal.
          unfold active. cbn.
          destruct (Z.geb_spec y y2), (Z.ltb_spec y y1), (Z.leb_spec y1 y),
            (Z.leb_spec y2 y); cbn; try reflexivity; lia.
        + injection E1 as <- _ _. assert (y2 = y1) as -> by lia.
          destruct (y1 <=? y), (active_odd y edges0); reflexivity. }
    rewrite Hstep. unfold separates.
    cbn [map snd]. rewrite last_cons_default.
    destruct (active_odd y edges0), (y1 <=? y), (y2 <=? y),
      (List.last (map snd points) y2 <=? y); reflexivity.
Qed.

Lemma length_scan_positions y i (edges : list (@Edge F)) :
  length (scan_positions y i edges)
  = length (filter (fun e => active y e = true) edges).
Proof.
  revert i. induction edges as [|e edges IH]; intros i; [reflexivity|].
  cbn [scan_positions]. rewrite filter_cons.
  destruct (decide (active y e = true)) as [E|E].
  - rewrite E. cbn [length]. rewrite IH. reflexivity.
  - apply not_true_is_false in E. rewrite E. apply IH.
Qed.

Lemma scan_positions_spans y (edges edges' : list (@Edge F)) :
  spans edges = spans edges' ->
  forall i, scan_positions y i edges = scan_positions y i edges'.
Proof.
  revert edges'. induction edges as [|e edges IH];
    intros [|e' edges'] E i; try discriminate; [reflexivity|].
  injection E as E1 E2 E. cbn [scan_positions]. unfold active.
  rewrite E1, E2, (IH _ E). reflexivity.
Qed.

(** The edge list of a closed outline has an even number of active
    edges on every scanline. *)
Lemma closed_outline_even x1 y1 rest edges box y :
  build_edges (rest ++ [(x1, y1)]) x1 y1 y1 y1 x1 x1 [] = Ok (edges, box) ->
  Nat.even (length (scan_positions y 0 edges)) = true.
Proof.
  intros E. apply (build_edges_parity y) in E.
  rewrite map_app in E. change (map snd [(x1, y1)]) with [y1] in E.
  rewrite last_last in E. unfold separates in E.
  rewrite xorb_nilpotent in E. cbn in E.
  unfold active_odd in E. rewrite <- (length_scan_positions y 0) in E.
  rewrite <- Nat.negb_odd, E. reflexivity.
Qed.

Lemma length_insert_by_x edges a sorted :
  length (insert_by_x edges a sorted) = S (length sorted).
Proof.
  induction sorted as [|b sorted IH]; cbn [insert_by_x]; [reflexivity|].
  destruct (num_cmp _ _); cbn [length]; rewrite ?IH; reflexivity.
Qed.

Lemma length_sort_by_x edges scan :
  length (sort_by_x edges scan) = length scan.
Proof.
  unfold sort_by_x.
  assert (Hgen : forall acc,
             length (fold_left (fun sorted a => insert_by_x edges a sorted)
                       scan acc)
             = (length scan + length acc)%nat).
  { induction scan as [|a scan IH]; intros acc; [reflexivity|].
    cbn [fold_left length]. rewrite IH, length_insert_by_x. lia. }
  rewrite Hgen. cbn. lia.
Qed.

Lemma advance_spans edges i edges' :
  advance edges i = Ok edges' -> spans edges' = spans edges.
Proof.
  unfold advance. destruct (edges !! i) as [e|] eqn:Ei; [|discriminate].
  intros E. apply bind_Ok_inv in E. destruct E as (x & _ & E).
  injection E as <-. unfold spans.
  rewrite list_fmap_insert. cbn. apply list_insert_id.
  rewrite list_lookup_fmap, Ei. reflexivity.
Qed.

Lemma num_int_result a : float_result (num_int a).
Proof. destruct a; cbn; [exact I|apply int_of_float_result]. Qed.

Lemma num_add_result a k : float_result (num_add a k).
Proof.
  destruct a as [n|f]; cbn; [|exact I].
  pose proof (float_of_int_result n) as Hn.
  destruct (float_of_int n); cbn; auto.
Qed.

Lemma advance_no_assert edges i : advance edges i <> Raise AssertionError.
Proof.
  unfold advance. destruct (edges !! i) as [e|]; [|discriminate].
  pose proof (float_result_no_assert _
                (num_add_result (edge_x e) (edge_slope e))) as Hn.
  destruct (num_add _ _); cbn; congruence.
Qed.

(** Filling the spans of a scanline fails no assertion and leaves the
    y-spans of the edges as they were. *)
Lemma fill_spans_spans y color scan :
  forall edges s,
    (fill_spans y color scan edges s).2 <> Raise AssertionError /\
    forall edges',
      (fill_spans y color scan edges s).2 = Ok edges' ->
      spans edges' = spans edges.
Proof.
  induction scan as [scan IH] using (induction_ltof1 _ (@length nat)).
  unfold ltof in IH. intros edges s.
  destruct scan as [|a [|b scan']]; cbn [fill_spans].
  - split; [discriminate|]. intros edges' [= <-]. reflexivity.
  - split; discriminate.
  - unfold mbind, draw_bind, lift, SDL_FillRect.
    pose proof (float_result_no_assert _ (num_int_result (x_at edges a))).
    destruct (num_int (x_at edges a)) as [x| |];
      [|cbn; split; [congruence|discriminate]|cbn; split; discriminate].
    pose proof (float_result_no_assert _ (num_int_result (x_at edges b))).
    destruct (num_int (x_at edges b)) as [x'| |];
      [|cbn; split; [congruence|discriminate]|cbn; split; discriminate].
    pose proof (advance_no_assert edges a).
    destruct (advance edges a) as [e1| |] eqn:E1;
      [|cbn; split; [congruence|discriminate]|cbn; split; discriminate].
    pose proof (advance_no_assert e1 b).
    destruct (advance e1 b) as [e2| |] eqn:E2;
      [|cbn; split; [congruence|discriminate]|cbn; split; discriminate].
    apply advance_spans in E1, E2.
    destruct (IH scan' ltac:(cbn; lia) e2
                (set_pixels s
                   (paint (fill_region s (mkRect x y (x' - x) 1)) color
                      (pixels s)))) as [Hn Hs].
    split; [exact Hn|]. intros edges' E. rewrite (Hs _ E). congruence.
Qed.

(** With an even number of active edges on every scanline, the scan
    never fails its assertion. *)
Lemma scan_lines_no_assert n color :
  forall y edges s,
    (forall y', Nat.even (length (scan_positions y' 0 edges)) = true) ->
    (scan_lines n y color edges s).2 <> Raise AssertionError.
Proof.
  induction n as [|n IH]; intros y edges s Heven; cbn [scan_lines];
    [discriminate|].
  rewrite length_sort_by_x, Heven. cbn [negb].
  unfold mbind, draw_bind.
  destruct (fill_spans_spans y color
              (sort_by_x edges (scan_positions y 0 edges)) edges s)
    as [Hn Hs].
  destruct (fill_spans _ _ _ _ _) as [s' [edges'| |]];
    cbn in *; [|congruence|discriminate].
  apply IH. intros y'.
  rewrite (scan_positions_spans y' edges' edges (Hs _ eq_refl)).
  apply Heven.
Qed.

Lemma build_edges_no_assert points :
  forall x1 y1 miny maxy minx maxx edges,
    build_edges points x1 y1 miny maxy minx maxx edges
    <> Raise AssertionError.
Proof.
  assert (Hslope : forall a b c d,
             inverse_slope a b c d <> Raise AssertionError).
  { intros a b c d. unfold inverse_slope.
    pose proof (float_result_no_assert _ (float_of_int_result (d - b))).
    destruct (float_of_int (d - b)); cbn; try congruence.
    pose proof (float_result_no_assert _ (float_of_int_result (c - a))).
    destruct (float_of_int (c - a)); cbn; try congruence.
    apply float_result_no_assert, f_div_result. }
  induction points as [|[x2 y2] points IH];
    intros x1 y1 miny maxy minx maxx edges; cbn [build_edges];
    [discriminate|].
  destruct (y2 >? y1).
  - pose proof (Hslope x1 y1 x2 y2).
    destruct (inverse_slope x1 y1 x2 y2); cbn; try congruence;
      try discriminate; try apply IH.
  - destruct (y2 <? y1); [|apply IH].
    pose proof (Hslope x2 y2 x1 y1).
    destruct (inverse_slope x2 y2 x1 y1); cbn; try congruence;
      try discriminate; try apply IH.
Qed.

Lemma polygon_fill_no_assert fuel color pointlist s :
  (polygon fuel color pointlist 0 s).2 <> Raise AssertionError.
Proof.
  unfold polygon. cbn [Z.gtb Z.compare].
  unfold mbind, draw_bind, get_surface, lift, raise.
  destruct (_get_color color s) as [c|e|] eqn:Ec; cbn;
    [| |discriminate].
  2:{ unfold _get_color in Ec. destruct (_rgba_from_obj color) as [[[[? ?] ?] ?]|];
        [discriminate|]. destruct color; try discriminate;
        injection Ec as <-; discriminate. }
  match goal with
  | |- context [if ?c then _ else _] => destruct c
  end; [cbn; discriminate|].
  destruct pointlist as [|[x1 y1] rest]; [cbn; discriminate|].
  pose proof (build_edges_no_assert (rest ++ [(x1, y1)]) x1 y1 y1 y1 x1 x1 [])
    as Hb.
  destruct (build_edges _ _ _ _ _ _ _ _)
    as [[edges [[[miny maxy] minx] maxx]]| |] eqn:Eb; cbn;
    [|congruence|discriminate].
  match goal with
  | |- context [scan_lines ?n ?y ?c ?e ?s'] =>
      pose proof (scan_lines_no_assert n c y e s'
                    (fun y' => closed_outline_even _ _ _ _ _ y' Eb)) as Hs;
      destruct (scan_lines n y c e s') as [s1 [[]| |]]
  end; cbn in *; [discriminate|congruence|discriminate].
Qed.

End EvenOdd.

(** C8. The edge list built from the vertices of a simple convex polygon
    with at least three vertices has an even number of active edges (edges
    whose half-open y-span holds the scanline) on every scanline, and the
    fill with width 0 never fails its even-count assertion. *)
Theorem polygon_scanlines_even {F : Type} `{PyFloat F}
    (pointlist : list (Z * Z)) :
  convex_polygon pointlist -> (3 <= length pointlist)%nat ->
  (forall x1 y1 rest edges box y,
     pointlist = (x1, y1) :: rest ->
     build_edges (rest ++ [(x1, y1)]) x1 y1 y1 y1 x1 x1 [] = Ok (edges, box) ->
     Nat.even (length (scan_positions y 0 edges)) = true) /\
  (forall fuel color s,
     (polygon fuel color pointlist 0 s).2 <> Raise AssertionError).
Proof.
  intros _ _. split.
  - intros x1 y1 rest edges box y _ E. eapply closed_outline_even, E.
  - intros fuel color s. apply polygon_fill_no_assert.
Qed.

Lemma polygon_scanlines_even_witness :
  convex_polygon [(1, 1); (6, 2); (3, 4)] /\
  (3 <= length [(1, 1); (6, 2); (3, 4)])%nat /\
  (polygon (F:=spec_float) 5 (ColorInt 7) [(1, 1); (6, 2); (3, 4)] 0
     surface_8x6).2 <> Raise AssertionError.
Proof.
  assert (Hc : convex_polygon [(1, 1); (6, 2); (3, 4)]).
  { left. cbn. repeat constructor; unfold cross; cbn; lia. }
  assert (Hn : (3 <= length [(1, 1); (6, 2); (3, 4)])%nat) by (cbn; lia).
  split; [exact Hc|]. split; [exact Hn|].
  apply (proj2 (polygon_scanlines_even [(1, 1); (6, 2); (3, 4)] Hc Hn)).
Defined.

(** ** More on the clipper *)

(** X1. The outcode of a point records the four comparisons with the box
    one bit each: the test [code & _LEFT] succeeds exactly when [x < l],
    [code & _RIGHT] when [x > r], [code & _TOP] when [y < t] and
    [code & _BOTTOM] when [y > b]; the code is 0 exactly when the point is
    inside the inclusive box. *)
Theorem endpoint_code_bits (x y l r t b : Z) :
  let code := _endpoint_code x y l r t b in
  (Z.land code _LEFT <> 0 <-> x < l) /\
  (Z.land code _RIGHT <> 0 <-> x > r) /\
  (Z.land code _TOP <> 0 <-> y < t) /\
  (Z.land code _BOTTOM <> 0 <-> y > b) /\
  (code = 0 <-> l <= x <= r /\ t <= y <= b).
Proof.
  cbn zeta. unfold _endpoint_code, _LEFT, _RIGHT, _TOP, _BOTTOM.
  destruct (Z.ltb_spec x l), (Z.ltb_spec y t), (Z.gtb_spec x r),
    (Z.gtb_spec y b);
    repeat match goal with
      | |- context [Z.lor ?a ?b] =>
          let v := eval vm_compute in (Z.lor a b) in
          change (Z.lor a b) with v
      | |- context [Z.land ?a ?b] =>
          let v := eval vm_compute in (Z.land a b) in
          change (Z.land a b) with v
      end; lia.
Qed.

Section ClipSteps.

Context {F : Type} `{PyFloat F}.

(** One pass that clips the first endpoint. *)
Lemma clip_line_step_first fuel x1 y1 x2 y2 l r t b x' y' :
  ~ inside x1 y1 l r t b -> ~ same_side x1 y1 x2 y2 l r t b ->
  clip_endpoint (_endpoint_code x1 y1 l r t b) x1 y1 x2 y2 l r t b
    = Ok (x', y') ->
  _clip_line (S fuel) x1 y1 x2 y2 l r t b
  = _clip_line fuel x' y' x2 y2 l r t b.
Proof.
  intros Hout Hns E. apply code_zero_outside in Hout.
  apply codes_disjoint_not_same_side in Hns.
  cbn [_clip_line]. rewrite Hout, Hns, E. reflexivity.
Qed.

(** One pass that exchanges the endpoints and clips the second. *)
Lemma clip_line_step_second fuel x1 y1 x2 y2 l r t b x' y' :
  inside x1 y1 l r t b -> ~ inside x2 y2 l r t b ->
  clip_endpoint (_endpoint_code x2 y2 l r t b) x2 y2 x1 y1 l r t b
    = Ok (x', y') ->
  _clip_line (S fuel) x1 y1 x2 y2 l r t b
  = _clip_line fuel x' y' x1 y1 l r t b.
Proof.
  intros Hin Hout E.
  assert (Hns : ~ same_side x1 y1 x2 y2 l r t b)
    by (unfold same_side, inside in *; lia).
  apply code_zero_inside in Hin. apply code_zero_outside in Hout.
  apply codes_disjoint_not_same_side in Hns.
  cbn [_clip_line]. rewrite Hin, Hout, Hns, E. reflexivity.
Qed.

(** On a vertical segment a pass only moves the ordinate, and the slope
    [1.0] goes unused. *)
Lemma clip_endpoint_vertical x y1 y2 l r t b :
  l <= x <= r -> t <= b ->
  clip_endpoint (_endpoint_code x y1 l r t b) x y1 x y2 l r t b
  = Ok (x, clamp t b y1).
Proof.
  intros Hx Htb. unfold clip_endpoint, slope, clip_horizontal, clip_vertical.
  rewrite has_bit_LEFT, has_bit_RIGHT, has_bit_BOTTOM, has_bit_TOP.
  rewrite Z.eqb_refl. cbn.
  destruct (Z.ltb_spec x l); [lia|]. destruct (Z.gtb_spec x r); [lia|]. cbn.
  rewrite Z.eqb_refl. unfold clamp.
  destruct (Z.gtb_spec y1 b), (Z.ltb_spec y1 t); cbn; rewrite ?Z.eqb_refl; cbn;
    do 2 f_equal; lia.
Qed.

End ClipSteps.

(** X2. Whatever the float arithmetic does, a segment the clipper returns
    has both endpoints inside the inclusive box, and clipping it again
    returns it unchanged. *)
Theorem clip_line_result_inside {F : Type} `{PyFloat F} (fuel : nat)
    (x1 y1 x2 y2 l r t b xa ya xb yb : Z) :
  _clip_line fuel x1 y1 x2 y2 l r t b = Ok (Some (xa, ya, xb, yb)) ->
  (l <= xa <= r /\ t <= ya <= b) /\ (l <= xb <= r /\ t <= yb <= b) /\
  forall fuel', _clip_line (S fuel') xa ya xb yb l r t b
                = Ok (Some (xa, ya, xb, yb)).
Proof.
  intros E. apply clip_line_accepts_inside in E. destruct E as [Ha Hb].
  split; [exact Ha|]. split; [exact Hb|].
  intros fuel'. apply clip_line_accept; assumption.
Qed.

Lemma clip_line_result_inside_witness :
  _clip_line (F:=spec_float) 5 (-3) 0 10 5 1 6 1 4 = Ok (Some (6, 4, 1, 1)) /\
  (1 <= 6 <= 6 /\ 1 <= 4 <= 4) /\ (1 <= 1 <= 6 /\ 1 <= 1 <= 4).
Proof.
  assert (E : _clip_line (F:=spec_float) 5 (-3) 0 10 5 1 6 1 4
              = Ok (Some (6, 4, 1, 1))) by (vm_compute; reflexivity).
  split; [exact E|].
  pose proof (clip_line_result_inside 5 (-3) 0 10 5 1 6 1 4 6 4 1 1 E) as P.
  split; [exact (proj1 P)|exact (proj1 (proj2 P))].
Defined.

(** X3. On a vertical segment the clipper computes no slope and no float:
    against a box with [top <= bottom] it returns within three passes,
    rejects the segment when it lies left or right of the box or wholly
    above or below it, and otherwise keeps the abscissa and brings each
    ordinate into [[top, bottom]]; the endpoints are returned exchanged when
    the second one had to be moved. *)
Theorem clip_line_vertical {F : Type} `{PyFloat F} (fuel : nat)
    (x y1 y2 l r t b : Z) :
  t <= b ->
  _clip_line (S (S (S fuel))) x y1 x y2 l r t b
  = if (x <? l) || (x >? r) || (y1 <? t) && (y2 <? t) || (y1 >? b) && (y2 >? b)
    then Ok None
    else if (t <=? y2) && (y2 <=? b)
    then Ok (Some (x, clamp t b y1, x, y2))
    else Ok (Some (x, clamp t b y2, x, clamp t b y1)).
Proof.
  intros Htb.
  destruct (Z.ltb_spec x l) as [Hl|Hl]; cbn [orb].
  { apply clip_line_reject. unfold same_side. lia. }
  destruct (Z.gtb_spec x r) as [Hr|Hr]; cbn [orb].
  { apply clip_line_reject. unfold same_side. lia. }
  destruct (Z.ltb_spec y1 t) as [H1t|H1t], (Z.ltb_spec y2 t) as [H2t|H2t];
    cbn [andb orb];
    try (apply clip_line_reject; unfold same_side; lia);
    destruct (Z.gtb_spec y1 b) as [H1b|H1b], (Z.gtb_spec y2 b) as [H2b|H2b];
    cbn [andb orb];
    try (apply clip_line_reject; unfold same_side; lia);
    try lia;
    destruct (Z.leb_spec t y2); try lia; destruct (Z.leb_spec y2 b); try lia;
    cbn [andb].
  all: try (replace (clamp t b y1) with y1 by (unfold clamp; lia);
            apply clip_line_accept; unfold inside; lia).
  all: try (rewrite (clip_line_step_first _ x y1 x y2 l r t b x (clamp t b y1));
            [|unfold inside; lia|unfold same_side; lia
             |apply clip_endpoint_vertical; lia]).
  all: try (apply clip_line_accept; unfold inside, clamp; lia).
  all: try (rewrite (clip_line_step_second _ x _ x y2 l r t b x (clamp t b y2));
            [|unfold inside, clamp; lia|unfold inside; lia
             |apply clip_endpoint_vertical; lia]).
  all: try (replace (clamp t b y1) with y1 by (unfold clamp; lia)).
  all: try (apply clip_line_accept; unfold inside, clamp; lia).
Qed.

Lemma clip_line_vertical_witness :
  1 <= 4 /\
  _clip_line (F:=spec_float) 3 3 (-2) 3 9 1 6 1 4 = Ok (Some (3, 4, 3, 1)).
Proof.
  split; [lia|].
  exact (clip_line_vertical (F:=spec_float) 0 3 (-2) 9 1 6 1 4 ltac:(lia)).
Defined.

(** ** Running a drawing computation *)

Lemma bind_get_surface {A} (k : Surface -> Draw A) s :
  (get_surface ≫= k) s = k s s.
Proof. reflexivity. Qed.

Lemma bind_lift {A B} (r : res A) (k : A -> Draw B) s :
  (lift r ≫= k) s
  = match r with
    | Ok a => k a s
    | Raise e => (s, Raise e)
    | OutOfFuel => (s, OutOfFuel)
    end.
Proof. destruct r; reflexivity. Qed.

Lemma bind_run {A B} (m : Draw A) (k : A -> Draw B) s :
  (m ≫= k) s
  = match m s with
    | (s', Ok a) => k a s'
    | (s', Raise e) => (s', Raise e)
    | (s', OutOfFuel) => (s', OutOfFuel)
    end.
Proof. reflexivity. Qed.

(** ** Colours, lines and polylines *)

Section Polylines.

Context {F : Type} `{PyFloat F}.

(** [line] draws with the pixel value its colour resolves to. *)
Lemma line_resolved fuel color c start_pos end_pos width s :
  _get_color color s = Ok c ->
  line fuel color start_pos end_pos width s
  = line fuel (ColorInt c) start_pos end_pos width s.
Proof.
  intros Ec. unfold line. cbn [line_rec].
  destruct (width <? 1); [reflexivity|].
  rewrite !bind_get_surface, !bind_lift, Ec. reflexivity.
Qed.

(** [line] returns nothing but [None]. *)
Lemma line_returns_none fuel color start_pos end_pos width s v :
  (line fuel color start_pos end_pos width s).2 = Ok v -> v = None.
Proof.
  unfold line. cbn [line_rec]. destruct (width <? 1).
  - cbn. congruence.
  - rewrite bind_get_surface, bind_lift.
    destruct (_get_color color s); cbn; try discriminate.
    rewrite bind_run.
    match goal with
    | |- context [match ?m with _ => _ end] => destruct m as [s' [u| |]]
    end; cbn; congruence.
Qed.

Lemma segments_app fuel color width last l1 l2 s :
  segments fuel color width last (l1 ++ l2) s
  = (last' ← segments fuel color width last l1;
     segments fuel color width last' l2) s.
Proof.
  revert last s. induction l1 as [|p l1 IH]; intros last s; [reflexivity|].
  cbn [app segments]. rewrite !bind_run.
  destruct (line fuel (ColorInt color) last p width s) as [s' [u| |]];
    [|reflexivity|reflexivity].
  rewrite IH. reflexivity.
Qed.

End Polylines.

(** X4. [lines] on two points, not closed, is [line] between them: the
    same surface results, and the same return value or exception, for
    every colour and width. *)
Theorem lines_pair_is_line {F : Type} `{PyFloat F} (fuel : nat)
    (color : color_arg) (p q : Z * Z) (width : Z) (s : Surface) :
  lines fuel color false [p; q] width s = line fuel color p q width s.
Proof.
  unfold lines. destruct (width <? 1) eqn:Ew.
  { unfold line. cbn [line_rec]. rewrite Ew. reflexivity. }
  rewrite bind_get_surface, bind_lift.
  destruct (_get_color color s) as [c|e|] eqn:Ec.
  - rewrite (line_resolved fuel color c p q width s Ec).
    cbn [length Nat.ltb Nat.leb segments].
    rewrite !bind_run.
    pose proof (line_returns_none fuel (ColorInt c) p q width s) as Hn.
    destruct (line fuel (ColorInt c) p q width s) as [s' [u| |]];
      [|reflexivity|reflexivity].
    rewrite (Hn u eq_refl). reflexivity.
  - unfold line. cbn [line_rec]. rewrite Ew.
    rewrite bind_get_surface, bind_lift, Ec. reflexivity.
  - unfold line. cbn [line_rec]. rewrite Ew.
    rewrite bind_get_surface, bind_lift, Ec. reflexivity.
Qed.

(** X5. With at least two points, [lines] closed is [lines] open on the
    points followed by the first one again. *)
Theorem lines_closed_appends_first {F : Type} `{PyFloat F} (fuel : nat)
    (color : color_arg) (first : Z * Z) (rest : list (Z * Z)) (width : Z)
    (s : Surface) :
  rest <> [] ->
  lines fuel color true (first :: rest) width s
  = lines fuel color false (first :: rest ++ [first]) width s.
Proof.
  intros Hne. unfold lines. destruct (width <? 1); [reflexivity|].
  rewrite !bind_get_surface, !bind_lift.
  destruct (_get_color color s) as [c|e|]; [|reflexivity|reflexivity].
  destruct rest as [|q rest]; [contradiction|].
  cbn [length app Nat.ltb Nat.leb].
  rewrite !bind_run.
  rewrite (segments_app fuel c width first (q :: rest) [first] s).
  rewrite bind_run.
  destruct (segments fuel c width first (q :: rest) s) as [s1 [last| |]];
    [|reflexivity|reflexivity].
  cbn [segments]. rewrite !bind_run.
  destruct (line fuel (ColorInt c) last first width s1) as [s2 [u| |]];
    reflexivity.
Qed.

Lemma lines_closed_appends_first_witness :
  [(6, 2); (3, 4)] <> [] /\
  lines (F:=spec_float) 5 (ColorInt 7) true [(1, 1); (6, 2); (3, 4)] 1
    surface_8x6
  = lines 5 (ColorInt 7) false [(1, 1); (6, 2); (3, 4); (1, 1)] 1 surface_8x6.
Proof.
  assert (Hne : [(6, 2); (3, 4)] <> ([] : list (Z * Z))) by discriminate.
  split; [exact Hne|].
  exact (lines_closed_appends_first (F:=spec_float) 5 (ColorInt 7) (1, 1)
           [(6, 2); (3, 4)] 1 surface_8x6 Hne).
Defined.

(** X6. [rect], [polygon] at every width and [lines] at a width of at
    least 1 resolve the colour before anything else: a colour of an invalid
    type raises 'invalid color argument' with the surface untouched, also
    when the point list is too short. *)
Theorem invalid_color_raises {F : Type} `{PyFloat F} (fuel : nat)
    (color : color_arg) (r : SDL_Rect) (closed : bool)
    (pointlist : list (Z * Z)) (width : Z) (s : Surface) :
  ~ valid_color color ->
  rect color r width s = (s, Raise InvalidColor) /\
  polygon fuel color pointlist width s = (s, Raise InvalidColor) /\
  (1 <= width ->
   lines fuel color closed pointlist width s = (s, Raise InvalidColor)).
Proof.
  intros Hc. assert (color = ColorOther) as ->.
  { unfold valid_color in Hc.
    destruct color; try (exfalso; apply Hc; discriminate). reflexivity. }
  assert (Hl : forall closed', 1 <= width ->
            lines fuel ColorOther closed' pointlist width s
            = (s, Raise InvalidColor)).
  { intros closed' Hw. unfold lines.
    destruct (Z.ltb_spec width 1); [lia|reflexivity]. }
  split; [reflexivity|]. split; [|apply Hl].
  unfold polygon. destruct (Z.gtb_spec width 0); [apply Hl; lia|reflexivity].
Qed.

Lemma invalid_color_raises_witness :
  ~ valid_color ColorOther /\
  polygon (F:=spec_float) 5 ColorOther [(1, 1)] 0 surface_8x6
  = (surface_8x6, Raise InvalidColor).
Proof.
  assert (Hc : ~ valid_color ColorOther) by (intros Hv; apply Hv; reflexivity).
  split; [exact Hc|].
  exact (proj1 (proj2 (invalid_color_raises (F:=spec_float) 5 ColorOther
                         (mkRect 0 0 1 1) false [(1, 1)] 0 surface_8x6 Hc))).
Defined.

(** ** Fills that paint nothing *)

Lemma paint_nothing region color px :
  (forall i, region i = false) -> paint region color px = px.
Proof.
  intros Hr. apply list_eq. intros i. unfold paint.
  rewrite list_lookup_imap. destruct (px !! i); cbn; [rewrite Hr|]; reflexivity.
Qed.

Lemma length_paint region color px : length (paint region color px) = length px.
Proof. apply length_imap. Qed.

Lemma lookup_paint region color px (i : nat) :
  region i = false -> paint region color px !! i = px !! i.
Proof.
  intros Hr. unfold paint. rewrite list_lookup_imap.
  destruct (px !! i); cbn; [rewrite Hr|]; reflexivity.
Qed.

Lemma fill_nothing r color s :
  (forall i, fill_region s r i = false) -> SDL_FillRect r color s = (s, Ok tt).
Proof.
  intros Hr. unfold SDL_FillRect. rewrite paint_nothing by exact Hr.
  rewrite set_pixels_same. reflexivity.
Qed.

Lemma in_rect_empty r x y :
  rect_w r <= 0 \/ rect_h r <= 0 -> in_rect r x y = false.
Proof.
  intros Hr. unfold in_rect. apply not_true_is_false.
  rewrite !andb_true_iff, !Z.leb_le, !Z.ltb_lt. lia.
Qed.

(** Two rectangles with no point in common. *)
Lemma fill_region_disjoint s r :
  (forall x y, in_rect r x y = true -> in_rect (clip_rect s) x y = false) ->
  forall i, fill_region s r i = false.
Proof.
  intros Hd i. unfold fill_region.
  destruct (in_rect r _ _) eqn:E; [|reflexivity].
  rewrite (Hd _ _ E). reflexivity.
Qed.

(** ** Lines along an axis *)

Section AxisLines.

Context {F : Type} `{PyFloat F}.

(** The vertical and the horizontal branch of [line]. *)
Lemma line_vertical fuel color c x y1 y2 width s :
  1 <= width -> _get_color color s = Ok c ->
  line fuel color (x, y1) (x, y2) width s
  = (set_pixels s
       (paint (fill_region s (mkRect (x - width / 2) (Z.min y1 y2) width
                                (Z.max y1 y2 - Z.min y1 y2)))
          c (pixels s)),
     Ok None).
Proof.
  intros Hw Ec. unfold line. cbn [line_rec fst snd].
  destruct (Z.ltb_spec width 1); [lia|].
  rewrite bind_get_surface, bind_lift, Ec. rewrite Z.eqb_refl. reflexivity.
Qed.

Lemma line_horizontal fuel color c x1 x2 y width s :
  1 <= width -> _get_color color s = Ok c -> x1 <> x2 ->
  line fuel color (x1, y) (x2, y) width s
  = (set_pixels s
       (paint (fill_region s (mkRect (Z.min x1 x2) (y - width / 2)
                                (Z.max x1 x2 - Z.min x1 x2) width))
          c (pixels s)),
     Ok None).
Proof.
  intros Hw Ec Hx. unfold line. cbn [line_rec fst snd].
  destruct (Z.ltb_spec width 1); [lia|].
  rewrite bind_get_surface, bind_lift, Ec.
  destruct (Z.eqb_spec x1 x2); [contradiction|]. rewrite Z.eqb_refl.
  reflexivity.
Qed.

(** Whatever [line] does when the colour does not resolve or the width is
    below 1, it stores nothing. *)
Lemma line_unresolved fuel color start_pos end_pos width s :
  width < 1 \/ (forall c, _get_color color s <> Ok c) ->
  (line fuel color start_pos end_pos width s).1 = s.
Proof.
  intros Hc. unfold line. cbn [line_rec].
  destruct (Z.ltb_spec width 1); [reflexivity|].
  destruct Hc as [?|Hc]; [lia|].
  rewrite bind_get_surface, bind_lift.
  destruct (_get_color color s) as [c| |]; [|reflexivity..].
  exfalso. apply (Hc c). reflexivity.
Qed.

Lemma get_color_cases color s :
  (exists c, _get_color color s = Ok c) \/
  (forall c, _get_color color s <> Ok c).
Proof. destruct (_get_color color s); eauto; right; discriminate. Qed.

End AxisLines.

(** X7. A vertical or horizontal line is filled as a rectangle that stops
    short of the endpoint with the larger coordinate: a vertical line
    leaves the row of the larger ordinate as it was, a horizontal line the
    column of the larger abscissa, and a line from a point to itself stores
    nothing, whatever the width. *)
Theorem axis_line_half_open {F : Type} `{PyFloat F} (fuel : nat)
    (color : color_arg) (x1 y1 x2 y2 width : Z) (s : Surface) :
  (x1 = x2 ->
   forall i : nat, Z.of_nat i / pitch_px s = Z.max y1 y2 ->
     pixels (line fuel color (x1, y1) (x2, y2) width s).1 !! i
     = pixels s !! i) /\
  (y1 = y2 ->
   forall i : nat, Z.of_nat i mod pitch_px s = Z.max x1 x2 ->
     pixels (line fuel color (x1, y1) (x2, y2) width s).1 !! i
     = pixels s !! i) /\
  (x1 = x2 -> y1 = y2 ->
   (line fuel color (x1, y1) (x2, y2) width s).1 = s).
Proof.
  destruct (Z_lt_ge_dec width 1) as [Hw|Hw].
  { rewrite line_unresolved by (left; exact Hw). repeat split; reflexivity. }
  destruct (get_color_cases color s) as [[c Ec]|Hc].
  2:{ rewrite line_unresolved by (right; exact Hc). repeat split; reflexivity. }
  split; [|split].
  - intros <- i Hi. rewrite (line_vertical fuel color c) by (lia || exact Ec).
    cbn [fst pixels set_pixels]. apply lookup_paint.
    unfold fill_region. rewrite Hi.
    replace (in_rect (mkRect _ _ _ _) _ _) with false; [reflexivity|].
    symmetry. unfold in_rect. cbn. apply not_true_is_false.
    rewrite !andb_true_iff, !Z.leb_le, !Z.ltb_lt. lia.
  - intros <- i Hi. destruct (Z.eq_dec x1 x2) as [<-|Hx].
    + rewrite (line_vertical fuel color c) by (lia || exact Ec).
      cbn [fst pixels set_pixels]. apply lookup_paint.
      unfold fill_region.
      replace (in_rect (mkRect _ _ _ _) _ _) with false; [reflexivity|].
      symmetry. apply in_rect_empty. cbn. lia.
    + rewrite (line_horizontal fuel color c) by (lia || assumption).
      cbn [fst pixels set_pixels]. apply lookup_paint.
      unfold fill_region. rewrite Hi.
      replace (in_rect (mkRect _ _ _ _) _ _) with false; [reflexivity|].
      symmetry. unfold in_rect. cbn. apply not_true_is_false.
      rewrite !andb_true_iff, !Z.leb_le, !Z.ltb_lt. lia.
  - intros <- <-. rewrite (line_vertical fuel color c) by (lia || exact Ec).
    cbn [fst]. rewrite paint_nothing; [apply set_pixels_same|].
    intros i. unfold fill_region.
    replace (in_rect (mkRect _ _ _ _) _ _) with false; [reflexivity|].
    symmetry. apply in_rect_empty. cbn. lia.
Qed.

Lemma axis_line_half_open_witness :
  3 = 3 /\ Z.of_nat 35 / pitch_px surface_8x6 = Z.max 1 4 /\
  pixels (line (F:=spec_float) 5 (ColorInt 7) (3, 1) (3, 4) 1 surface_8x6).1
    !! 35%nat
  = pixels surface_8x6 !! 35%nat.
Proof.
  assert (Hi : Z.of_nat 35 / pitch_px surface_8x6 = Z.max 1 4) by reflexivity.
  split; [reflexivity|]. split; [exact Hi|].
  exact (proj1 (axis_line_half_open (F:=spec_float) 5 (ColorInt 7) 3 1 3 4 1
                  surface_8x6) eq_refl 35%nat Hi).
Defined.

(** ** Slanted lines *)

Section SlantedLines.

Context {F : Type} `{PyFloat F}.

(** The thin branch of [line], taken by a slanted line of width 1. *)
Lemma line_thin depth fuel c start_pos end_pos s :
  start_pos.1 <> end_pos.1 -> start_pos.2 <> end_pos.2 ->
  line_rec (S depth) fuel (ColorInt c) start_pos end_pos 1 s
  = (_ ← thin_line fuel c start_pos end_pos; mret None) s.
Proof.
  intros Hx Hy. cbn [line_rec]. change (1 <? 1) with false. cbv iota.
  rewrite bind_get_surface, bind_lift. cbn [_get_color _rgba_from_obj].
  destruct (Z.eqb_spec start_pos.1 end_pos.1); [contradiction|].
  destruct (Z.eqb_spec start_pos.2 end_pos.2); [contradiction|].
  reflexivity.
Qed.

(** The thick branch, taken by a slanted line of a width above 1: the
    lines of width 1 it is made of are one pixel apart along y when the
    line is closer to horizontal, along x otherwise. *)
Lemma line_thick fuel color c start_pos end_pos width s :
  1 < width -> _get_color color s = Ok c ->
  start_pos.1 <> end_pos.1 -> start_pos.2 <> end_pos.2 ->
  let shallow :=
    Z.abs (end_pos.1 - start_pos.1) >? Z.abs (end_pos.2 - start_pos.2) in
  let xinc := if shallow then 0 else 1 in
  let yinc := if shallow then 1 else 0 in
  line fuel color start_pos end_pos width s
  = (_ ← thick_loop (Z.to_nat width)
           (fun p q => line_rec 1 fuel (ColorInt c) p q 1)
           xinc yinc
           (start_pos.1 - width * xinc / 2) (start_pos.2 - width * yinc / 2)
           (end_pos.1 - width * xinc / 2) (end_pos.2 - width * yinc / 2);
     mret None) s.
Proof.
  intros Hw Ec Hx Hy shallow xinc yinc. subst xinc yinc shallow.
  unfold line. cbn [line_rec].
  destruct (Z.ltb_spec width 1); [lia|].
  rewrite bind_get_surface, bind_lift, Ec.
  destruct (Z.eqb_spec start_pos.1 end_pos.1); [contradiction|].
  destruct (Z.eqb_spec start_pos.2 end_pos.2); [contradiction|].
  destruct (Z.gtb_spec width 1); [|lia].
  destruct (_ >? _); reflexivity.
Qed.

End SlantedLines.

(** X8. On a surface of 3 bytes per pixel a line that is neither vertical
    nor horizontal raises [NotImplementedError] at every width of at least
    1, the surface untouched. *)
Theorem slanted_line_24bit {F : Type} `{PyFloat F} (fuel : nat)
    (color : color_arg) (start_pos end_pos : Z * Z) (width : Z) (s : Surface) :
  BytesPerPixel (format s) = 3 -> valid_color color -> 1 <= width ->
  start_pos.1 <> end_pos.1 -> start_pos.2 <> end_pos.2 ->
  line fuel color start_pos end_pos width s = (s, Raise NotImplementedError).
Proof.
  intros Hb Hc Hw Hx Hy. destruct (get_color_valid color s Hc) as (c & Ec).
  assert (Hthin : forall p q, p.1 <> q.1 -> p.2 <> q.2 ->
            line_rec 1 fuel (ColorInt c) p q 1 s
            = (s, Raise NotImplementedError)).
  { intros p q Hp Hq. rewrite line_thin by assumption.
    rewrite bind_run. unfold thin_line. rewrite bind_get_surface, Hb.
    reflexivity. }
  destruct (Z.eq_dec width 1) as [->|Hw1].
  - rewrite (line_resolved fuel color c) by exact Ec. unfold line.
    rewrite line_thin by assumption.
    rewrite bind_run. unfold thin_line. rewrite bind_get_surface, Hb.
    reflexivity.
  - rewrite (line_thick fuel color c start_pos end_pos width s)
      by (assumption || lia).
    destruct (Z.to_nat width) as [|n] eqn:En; [lia|].
    cbn [thick_loop]. rewrite !bind_run.
    rewrite Hthin by (cbn [fst snd]; lia). reflexivity.
Qed.

Lemma slanted_line_24bit_witness :
  let s := mkSurface (mkFormat 3 0 0 0 0 16 8 0 0 0) 4 4 12 (mkRect 0 0 4 4)
             (replicate 16 0) in
  BytesPerPixel (format s) = 3 /\ valid_color (ColorInt 7) /\ 1 <= 2 /\
  line (F:=spec_float) 5 (ColorInt 7) (0, 0) (3, 2) 2 s
  = (s, Raise NotImplementedError).
Proof.
  intros s.
  assert (Hc : valid_color (ColorInt 7)) by discriminate.
  split; [reflexivity|]. split; [exact Hc|]. split; [lia|].
  apply (slanted_line_24bit (F:=spec_float) 5 (ColorInt 7) (0, 0) (3, 2) 2 s
           eq_refl Hc); cbn; lia.
Defined.

(** X9. A line of width 1 whose endpoints lie beyond the same side of the
    clip rectangle stores nothing, whether it is vertical, horizontal or
    slanted. *)
Theorem line_outside_clip {F : Type} `{PyFloat F} (fuel : nat)
    (color : color_arg) (x1 y1 x2 y2 : Z) (s : Surface) :
  same_side x1 y1 x2 y2
    (clip_left s) (clip_right s) (clip_top s) (clip_bottom s) ->
  (line fuel color (x1, y1) (x2, y2) 1 s).1 = s.
Proof.
  intros Hs. destruct (get_color_cases color s) as [[c Ec]|Hc].
  2:{ apply line_unresolved. right. exact Hc. }
  unfold same_side, clip_left, clip_right, clip_top, clip_bottom in Hs.
  assert (Hempty : forall r,
            (forall x y, in_rect r x y = true ->
               (x = x1 \/ x = x2 \/ Z.min x1 x2 <= x < Z.max x1 x2) /\
               (y = y1 \/ y = y2 \/ Z.min y1 y2 <= y < Z.max y1 y2)) ->
            forall i, fill_region s r i = false).
  { intros r Hr. apply fill_region_disjoint. intros x y Hin.
    apply Hr in Hin. unfold in_rect. apply not_true_is_false.
    rewrite !andb_true_iff, !Z.leb_le, !Z.ltb_lt. lia. }
  destruct (Z.eq_dec x1 x2) as [<-|Hx].
  { rewrite (line_vertical fuel color c) by (lia || exact Ec).
    cbn [fst]. rewrite paint_nothing; [apply set_pixels_same|].
    apply Hempty. intros x y. unfold in_rect. cbn.
    change (1 / 2) with 0.
    rewrite !andb_true_iff, !Z.leb_le, !Z.ltb_lt. lia. }
  destruct (Z.eq_dec y1 y2) as [<-|Hy].
  { rewrite (line_horizontal fuel color c) by (lia || assumption).
    cbn [fst]. rewrite paint_nothing; [apply set_pixels_same|].
    apply Hempty. intros x y. unfold in_rect. cbn.
    change (1 / 2) with 0.
    rewrite !andb_true_iff, !Z.leb_le, !Z.ltb_lt. lia. }
  rewrite (line_resolved fuel color c) by exact Ec. unfold line.
  rewrite line_thin by assumption.
  rewrite bind_run. unfold thin_line. rewrite bind_get_surface.
  destruct (BytesPerPixel (format s) =? 3); [reflexivity|].
  rewrite bind_lift. destruct fuel as [|fuel]; [reflexivity|].
  cbn [fst snd]. rewrite clip_line_reject by exact Hs. reflexivity.
Qed.

Lemma line_outside_clip_witness :
  same_side (-5) 2 0 9 (clip_left surface_8x6) (clip_right surface_8x6)
    (clip_top surface_8x6) (clip_bottom surface_8x6) /\
  (line (F:=spec_float) 5 (ColorInt 7) (-5, 2) (0, 9) 1 surface_8x6).1
  = surface_8x6.
Proof.
  assert (Hs : same_side (-5) 2 0 9 (clip_left surface_8x6)
                 (clip_right surface_8x6) (clip_top surface_8x6)
                 (clip_bottom surface_8x6)) by (left; cbn; lia).
  split; [exact Hs|].
  exact (line_outside_clip (F:=spec_float) 5 (ColorInt 7) (-5) 2 0 9
           surface_8x6 Hs).
Defined.

(** ** Polygons without area, and without convexity *)

Section FlatPolygons.

Context {F : Type} `{PyFloat F}.

(** Vertices on one row give no edge record, and no float is computed. *)
Lemma build_edges_flat points y x1 miny maxy minx maxx (edges : list (@Edge F)) :
  Forall (fun p : Z * Z => p.2 = y) points ->
  exists minx' maxx',
    build_edges points x1 y miny maxy minx maxx edges
    = Ok (edges, (miny, maxy, minx', maxx')).
Proof.
  intros Hp. revert x1 minx maxx.
  induction Hp as [|[x2 y2] points Hy Hp IH]; intros x1 minx maxx.
  - cbn. eauto.
  - cbn in Hy. subst y2. cbn [build_edges].
    rewrite Z.gtb_ltb, Z.ltb_irrefl. cbn. apply IH.
Qed.

Lemma scan_lines_no_edges n y color s :
  scan_lines (F:=F) n y color [] s = (s, Ok tt).
Proof.
  revert y. induction n as [|n IH]; intros y; [reflexivity|].
  cbn. apply IH.
Qed.

End FlatPolygons.

(** X10. A polygon whose vertices all lie on one row is filled with
    nothing: no edge is recorded, no pixel is stored, and with a valid
    colour and at least three vertices a rectangle is returned. *)
Theorem polygon_flat_paints_nothing {F : Type} `{PyFloat F} (fuel : nat)
    (color : color_arg) (pointlist : list (Z * Z)) (y width : Z)
    (s : Surface) :
  Forall (fun p : Z * Z => p.2 = y) pointlist -> width <= 0 ->
  (polygon fuel color pointlist width s).1 = s /\
  (valid_color color -> (3 <= length pointlist)%nat ->
   exists r, (polygon fuel color pointlist width s).2 = Ok (Some r)).
Proof.
  intros Hp Hw. unfold polygon. destruct (Z.gtb_spec width 0); [lia|].
  rewrite bind_get_surface, bind_lift.
  destruct (_get_color color s) as [c|e|] eqn:Ec.
  2,3: split; [reflexivity|]; intros Hc;
       destruct (get_color_valid color s Hc) as (c & Ec'); congruence.
  destruct (Nat.ltb_spec (length pointlist) 3) as [Hn|Hn].
  { split; [reflexivity|]. intros _ Hn'. lia. }
  destruct pointlist as [|[x1 y1] rest]; [cbn in Hn; lia|].
  apply Forall_cons in Hp. destruct Hp as [Hy1 Hrest]. cbn in Hy1. subst y1.
  destruct (build_edges_flat (rest ++ [(x1, y)]) y x1 y y x1 x1 [])
    as (minx & maxx & E).
  { apply Forall_app. split; [exact Hrest|]. repeat constructor. }
  rewrite bind_lift, E. cbv iota beta. rewrite bind_run.
  rewrite scan_lines_no_edges. cbn. split; [reflexivity|]. eauto.
Qed.

Lemma polygon_flat_paints_nothing_witness :
  Forall (fun p : Z * Z => p.2 = 2) [(1, 2); (5, 2); (3, 2)] /\ 0 <= 0 /\
  (polygon (F:=spec_float) 5 (ColorInt 7) [(1, 2); (5, 2); (3, 2)] 0
     surface_8x6).1 = surface_8x6.
Proof.
  assert (Hp : Forall (fun p : Z * Z => p.2 = 2) [(1, 2); (5, 2); (3, 2)])
    by (repeat constructor).
  split; [exact Hp|]. split; [lia|].
  exact (proj1 (polygon_flat_paints_nothing (F:=spec_float) 5 (ColorInt 7)
                  [(1, 2); (5, 2); (3, 2)] 2 0 surface_8x6 Hp ltac:(lia))).
Defined.

(** X11. The even count of active edges needs no convexity: for every
    vertex list, self-intersecting or not, every scanline meets an even
    number of edge records, and the fill, at every width of at most 0,
    never fails its assertion. *)
Theorem polygon_any_outline_even {F : Type} `{PyFloat F}
    (pointlist : list (Z * Z)) :
  (forall x1 y1 rest edges box y,
     pointlist = (x1, y1) :: rest ->
     build_edges (rest ++ [(x1, y1)]) x1 y1 y1 y1 x1 x1 [] = Ok (edges, box) ->
     Nat.even (length (scan_positions y 0 edges)) = true) /\
  (forall fuel color width s,
     width <= 0 ->
     (polygon fuel color pointlist width s).2 <> Raise AssertionError).
Proof.
  split.
  - intros x1 y1 rest edges box y _ E. eapply closed_outline_even, E.
  - intros fuel color width s Hw.
    replace (polygon fuel color pointlist width s)
      with (polygon fuel color pointlist 0 s).
    + apply polygon_fill_no_assert.
    + unfold polygon. destruct (Z.gtb_spec width 0); [lia|]. reflexivity.
Qed.

Lemma polygon_any_outline_even_witness :
  (-1) <= 0 /\
  (polygon (F:=spec_float) 5 (ColorInt 7)
     [(1, 1); (6, 4); (6, 1); (1, 4)] (-1) surface_8x6).2
  <> Raise AssertionError.
Proof.
  split; [lia|].
  exact (proj2 (polygon_any_outline_even (F:=spec_float)
                  [(1, 1); (6, 4); (6, 1); (1, 4)])
           5%nat (ColorInt 7) (-1) surface_8x6 ltac:(lia)).
Defined.

(** ** The walk of the thin line, step by step *)

Lemma length_bresenham_indices n dx dy incx incy y pixel :
  length (bresenham_indices n dx dy incx incy y pixel) = n.
Proof.
  revert y pixel. induction n as [|n IH]; intros y pixel; [reflexivity|].
  cbn [bresenham_indices length]. destruct (y + dy >? dx); rewrite IH;
    reflexivity.
Qed.

Lemma bresenham_indices_head n dx dy incx incy y pixel :
  (0 < n)%nat ->
  bresenham_indices n dx dy incx incy y pixel !! 0%nat = Some pixel.
Proof. destruct n; [lia|reflexivity]. Qed.

Lemma bresenham_indices_adjacent n dx dy incx incy y pixel (k : nat) i j :
  bresenham_indices n dx dy incx incy y pixel !! k = Some i ->
  bresenham_indices n dx dy incx incy y pixel !! S k = Some j ->
  j - i = incx \/ j - i = incx + incy.
Proof.
  revert y pixel k. induction n as [|n IH]; intros y pixel k;
    [discriminate|].
  cbn [bresenham_indices]. destruct k as [|k].
  - cbn [lookup list_lookup]. intros [= <-].
    destruct (y + dy >? dx); intros Hj;
      rewrite bresenham_indices_head in Hj
        by (destruct n; [discriminate Hj|lia]);
      injection Hj as <-; lia.
  - destruct (y + dy >? dx); cbn [lookup list_lookup]; apply IH.
Qed.

(** The increments of the walk are one step along one axis each. *)
Lemma walk_setup_steps pitch x1 y1 x2 y2 :
  let '(dx, dy, incx, incy, pixel) := walk_setup pitch x1 y1 x2 y2 in
  dx = Z.max (Z.abs (x2 - x1)) (Z.abs (y2 - y1)) + 1 /\
  pixel = y1 * pitch + x1 /\
  exists u v, (u = 1 \/ u = -1) /\ (v = 1 \/ v = -1) /\
    ((incx = u /\ incy = v * pitch) \/ (incx = v * pitch /\ incy = u)).
Proof.
  unfold walk_setup.
  set (signx := 1 - (if x2 - x1 <? 0 then 1 else 0) * 2).
  set (signy := 1 - (if y2 - y1 <? 0 then 1 else 0) * 2).
  assert (Hsx : signx * (x2 - x1) = Z.abs (x2 - x1) /\
                (signx = 1 \/ signx = -1))
    by (unfold signx; destruct (Z.ltb_spec (x2 - x1) 0); lia).
  assert (Hsy : signy * (y2 - y1) = Z.abs (y2 - y1) /\
                (signy = 1 \/ signy = -1))
    by (unfold signy; destruct (Z.ltb_spec (y2 - y1) 0); lia).
  destruct Hsx as [Hsx Hsx'], Hsy as [Hsy Hsy']. clearbody signx signy.
  destruct (Z.ltb_spec (signx * (x2 - x1) + 1) (signy * (y2 - y1) + 1));
    (split; [lia|]); (split; [reflexivity|]); exists signx, signy; auto.
Qed.

(** ** Rectangles *)

Lemma paint_ext region region' color px :
  (forall i, region i = region' i) ->
  paint region color px = paint region' color px.
Proof.
  intros Hr. unfold paint. apply imap_ext. intros i v _. rewrite Hr.
  reflexivity.
Qed.

(** Two fills with one colour are the fill of the two regions together. *)
Lemma paint_paint region region' color px :
  paint region' color (paint region color px)
  = paint (fun i => region i || region' i) color px.
Proof.
  apply list_eq. intros i. unfold paint. rewrite !list_lookup_imap.
  destruct (px !! i) as [v|]; cbn; [|reflexivity].
  destruct (region i), (region' i); reflexivity.
Qed.

Lemma normalize_sides r :
  0 <= rect_w (normalize r) /\ 0 <= rect_h (normalize r).
Proof.
  unfold normalize.
  destruct (Z.ltb_spec (rect_w r) 0), (Z.ltb_spec (rect_h r) 0); cbn; lia.
Qed.

(** X13. [rect] at width 1 paints, within the clip rectangle, the boundary
    of the closed rectangle with the corners [(x, y)] and [(x + w, y + h)]
    of the normalised argument, which reaches one pixel beyond the filled
    rectangle on the right and at the bottom; it returns the normalised
    rectangle itself. *)
Theorem rect_outline (color : color_arg) (r : SDL_Rect) (s : Surface) :
  valid_color color ->
  exists c,
    _get_color color s = Ok c /\
    rect color r 1 s
    = (set_pixels s (paint (outline_region s (normalize r)) c (pixels s)),
       Ok (Some (normalize r))).
Proof.
  intros Hc. destruct (get_color_valid color s Hc) as (c & Ec).
  exists c. split; [exact Ec|].
  unfold rect. rewrite bind_get_surface, bind_lift, Ec.
  unfold _get_rect. change (1 =? 0) with false. cbv iota.
  change (1 / 2) with 0.
  destruct (normalize_sides r) as [Hw Hh].
  destruct (normalize r) as [x y w h]. cbn [rect_x rect_y rect_w rect_h] in *.
  unfold SDL_FillRect, mbind, draw_bind, mret, draw_ret.
  cbn [pixels set_pixels]. f_equal. unfold set_pixels. cbn. f_equal.
  rewrite !paint_paint. apply paint_ext. intros i.
  unfold fill_region, outline_region, pitch_px. cbn.
  set (px := Z.of_nat i mod _). set (py := Z.of_nat i / _).
  destruct (in_rect (clip_rect s) px py); [|rewrite !andb_false_r; reflexivity].
  destruct (in_bounds _ px py); [|rewrite !andb_false_r; reflexivity].
  rewrite !andb_true_r. unfold in_rect, on_outline. cbn.
  apply eq_true_iff_eq.
  rewrite !orb_true_iff, !andb_true_iff, !orb_true_iff, !Z.leb_le,
    !Z.ltb_lt, !Z.eqb_eq.
  lia.
Qed.

Lemma rect_outline_witness :
  valid_color (ColorInt 7) /\
  exists c,
    _get_color (ColorInt 7) surface_8x6 = Ok c /\
    rect (ColorInt 7) (mkRect 2 2 3 1) 1 surface_8x6
    = (set_pixels surface_8x6
         (paint (outline_region surface_8x6 (normalize (mkRect 2 2 3 1))) c
            (pixels surface_8x6)),
       Ok (Some (normalize (mkRect 2 2 3 1)))).
Proof.
  assert (Hc : valid_color (ColorInt 7)) by discriminate.
  split; [exact Hc|].
  exact (rect_outline (ColorInt 7) (mkRect 2 2 3 1) surface_8x6 Hc).
Defined.

(** ** The rectangle a filled polygon returns *)

Lemma least_snoc v l u :
  least v l -> least (Z.min v u) (l ++ [u]).
Proof.
  intros [Hin Hall]. split.
  - apply elem_of_app. destruct (Z.min_spec v u) as [[_ ->]|[_ ->]].
    + left. exact Hin.
    + right. apply list_elem_of_singleton. reflexivity.
  - apply Forall_app. split.
    + eapply Forall_impl; [exact Hall|]. cbn. intros. lia.
    + repeat constructor. lia.
Qed.

Lemma greatest_snoc v l u :
  greatest v l -> greatest (Z.max v u) (l ++ [u]).
Proof.
  intros [Hin Hall]. split.
  - apply elem_of_app. destruct (Z.max_spec v u) as [[_ ->]|[_ ->]].
    + right. apply list_elem_of_singleton. reflexivity.
    + left. exact Hin.
  - apply Forall_app. split.
    + eapply Forall_impl; [exact Hall|]. cbn. intros. lia.
    + repeat constructor. lia.
Qed.

Lemma least_le v l u : least v l -> u ∈ l -> v <= u.
Proof. intros [_ Hall] Hu. rewrite Forall_forall in Hall. auto. Qed.

Lemma greatest_ge v l u : greatest v l -> u ∈ l -> u <= v.
Proof. intros [_ Hall] Hu. rewrite Forall_forall in Hall. auto. Qed.

Section PolygonBox.

Context {F : Type} `{PyFloat F}.

(** The bounding box that the edge loop keeps: the extremes of the
    vertices seen so far, the current vertex among them. *)
Lemma build_edges_box points : forall x1 y1 miny maxy minx maxx
    (edges edges' : list (@Edge F)) lx ly miny' maxy' minx' maxx',
  least minx lx -> greatest maxx lx -> x1 ∈ lx ->
  least miny ly -> greatest maxy ly -> y1 ∈ ly ->
  build_edges points x1 y1 miny maxy minx maxx edges
  = Ok (edges', (miny', maxy', minx', maxx')) ->
  least minx' (lx ++ map fst points) /\
  greatest maxx' (lx ++ map fst points) /\
  least miny' (ly ++ map snd points) /\
  greatest maxy' (ly ++ map snd points).
Proof.
  induction points as [|[x2 y2] points IH];
    intros x1 y1 miny maxy minx maxx edges edges' lx ly miny' maxy' minx'
      maxx' Hminx Hmaxx Hx1 Hminy Hmaxy Hy1 E.
  - cbn in E. injection E as _ <- <- <- <-. cbn. rewrite !app_nil_r. auto.
  - cbn [build_edges] in E. cbn [map fst snd].
    pose proof (least_le _ _ _ Hminx Hx1). pose proof (greatest_ge _ _ _ Hmaxx Hx1).
    pose proof (least_le _ _ _ Hminy Hy1). pose proof (greatest_ge _ _ _ Hmaxy Hy1).
    assert (Hstep : forall edges1 miny1 maxy1,
              miny1 = Z.min miny y2 -> maxy1 = Z.max maxy y2 ->
              build_edges points x2 y2 miny1 maxy1
                (Z.min (Z.min minx x1) x2) (Z.max (Z.max maxx x1) x2) edges1
              = Ok (edges', (miny', maxy', minx', maxx')) ->
              least minx' (lx ++ x2 :: map fst points) /\
              greatest maxx' (lx ++ x2 :: map fst points) /\
              least miny' (ly ++ y2 :: map snd points) /\
              greatest maxy' (ly ++ y2 :: map snd points)).
    { intros edges1 miny1 maxy1 -> -> E1.
      replace (Z.min minx x1) with minx in E1 by lia.
      replace (Z.max maxx x1) with maxx in E1 by lia.
      rewrite !(cons_middle _ lx), !(cons_middle _ ly), !app_assoc.
      apply (IH _ _ _ _ _ _ _ _ (lx ++ [x2]) (ly ++ [y2]) _ _ _ _) in E1;
        [exact E1|apply least_snoc|apply greatest_snoc| |apply least_snoc
        |apply greatest_snoc|]; try assumption;
        apply elem_of_app; right; apply list_elem_of_singleton; reflexivity. }
    destruct (Z.gtb_spec y2 y1) as [Hgt|Hle].
    + destruct (inverse_slope x1 y1 x2 y2) as [k| |]; cbn in E;
        try discriminate.
      apply (Hstep _ _ _) in E; [exact E|lia|lia].
    + destruct (Z.ltb_spec y2 y1) as [Hlt|Hge].
      * destruct (inverse_slope x2 y2 x1 y1) as [k| |]; cbn in E;
          try discriminate.
        apply (Hstep _ _ _) in E; [exact E|lia|lia].
      * cbn in E. apply (Hstep _ _ _) in E; [exact E|lia|lia].
Qed.

End PolygonBox.

Lemma least_closed v a l : least v (a :: l ++ [a]) -> least v (a :: l).
Proof.
  intros [Hin Hall]. split.
  - rewrite app_comm_cons in Hin. apply elem_of_app in Hin.
    destruct Hin as [Hin|Hin]; [exact Hin|].
    apply list_elem_of_singleton in Hin. subst. apply elem_of_cons. auto.
  - rewrite app_comm_cons in Hall. apply Forall_app in Hall. tauto.
Qed.

Lemma greatest_closed v a l :
  greatest v (a :: l ++ [a]) -> greatest v (a :: l).
Proof.
  intros [Hin Hall]. split.
  - rewrite app_comm_cons in Hin. apply elem_of_app in Hin.
    destruct Hin as [Hin|Hin]; [exact Hin|].
    apply list_elem_of_singleton in Hin. subst. apply elem_of_cons. auto.
  - rewrite app_comm_cons in Hall. apply Forall_app in Hall. tauto.
Qed.

Lemma least_singleton v : least v [v].
Proof.
  split; [apply list_elem_of_singleton; reflexivity|].
  repeat constructor. lia.
Qed.

Lemma greatest_singleton v : greatest v [v].
Proof.
  split; [apply list_elem_of_singleton; reflexivity|].
  repeat constructor. lia.
Qed.

(** X14. The rectangle a filled polygon returns spans the columns from the
    least to the greatest abscissa of its vertices, unclipped, and the rows
    from the least ordinate, or the top of the clip rectangle if that is
    lower, to one row past the greatest ordinate, or past the bottom of the
    clip rectangle if that is higher: its height is one row more than the
    rows the scanlines cover. *)
Theorem polygon_returns_box {F : Type} `{PyFloat F} (fuel : nat)
    (color : color_arg) (pointlist : list (Z * Z)) (width : Z) (s : Surface)
    (r : SDL_Rect) :
  width <= 0 ->
  (polygon fuel color pointlist width s).2 = Ok (Some r) ->
  exists minx maxx miny maxy,
    least minx (map fst pointlist) /\ greatest maxx (map fst pointlist) /\
    least miny (map snd pointlist) /\ greatest maxy (map snd pointlist) /\
    let top := Z.max miny (rect_y (clip_rect s)) in
    let bottom :=
      Z.min (maxy + 1) (rect_y (clip_rect s) + rect_h (clip_rect s)) in
    r = mkRect minx top (maxx - minx + 1) (bottom - top + 1).
Proof.
  intros Hw. unfold polygon. destruct (Z.gtb_spec width 0); [lia|].
  rewrite bind_get_surface, bind_lift.
  destruct (_get_color color s) as [c| |]; cbn [snd]; try discriminate.
  destruct (length pointlist <? 3)%nat; [discriminate|].
  destruct pointlist as [|[x1 y1] rest]; [discriminate|].
  rewrite bind_lift.
  destruct (build_edges _ _ _ _ _ _ _ _)
    as [[edges [[[miny maxy] minx] maxx]]| |] eqn:Eb; cbn [snd];
    try discriminate.
  rewrite bind_run.
  destruct (scan_lines _ _ _ _ _) as [s' [[]| |]]; cbn [snd];
    try discriminate.
  intros [= <-].
  apply (build_edges_box _ _ _ _ _ _ _ _ _ [x1] [y1]) in Eb;
    try apply least_singleton; try apply greatest_singleton;
    try (apply list_elem_of_singleton; reflexivity).
  destruct Eb as (Hminx & Hmaxx & Hminy & Hmaxy).
  rewrite !map_app in *. cbn [map fst snd app] in *.
  exists minx, maxx, miny, maxy.
  split; [apply least_closed, Hminx|].
  split; [apply greatest_closed, Hmaxx|].
  split; [apply least_closed, Hminy|].
  split; [apply greatest_closed, Hmaxy|]. reflexivity.
Qed.

Lemma polygon_returns_box_witness :
  0 <= 0 /\
  (polygon (F:=spec_float) 5 (ColorInt 7) [(1, 1); (6, 2); (3, 4)] 0
     surface_8x6).2 = Ok (Some (mkRect 1 1 6 5)) /\
  exists minx maxx miny maxy,
    least minx (map fst [(1, 1); (6, 2); (3, 4)]) /\
    greatest maxx (map fst [(1, 1); (6, 2); (3, 4)]) /\
    least miny (map snd [(1, 1); (6, 2); (3, 4)]) /\
    greatest maxy (map snd [(1, 1); (6, 2); (3, 4)]) /\
    mkRect 1 1 6 5
    = mkRect minx (Z.max miny 1) (maxx - minx + 1)
        (Z.min (maxy + 1) (1 + 4) - Z.max miny 1 + 1).
Proof.
  assert (E : (polygon (F:=spec_float) 5 (ColorInt 7)
                 [(1, 1); (6, 2); (3, 4)] 0 surface_8x6).2
              = Ok (Some (mkRect 1 1 6 5))) by (vm_compute; reflexivity).
  split; [lia|]. split; [exact E|].
  exact (polygon_returns_box (F:=spec_float) 5 (ColorInt 7)
           [(1, 1); (6, 2); (3, 4)] 0 surface_8x6 (mkRect 1 1 6 5)
           ltac:(lia) E).
Defined.

(** ** The rows a filled polygon paints *)

Lemma rows_kept_refl painted s : rows_kept painted s s.
Proof.
  exists (pixels s). rewrite set_pixels_same. auto.
Qed.

Lemma rows_kept_trans painted s s' s'' :
  rows_kept painted s s' -> rows_kept painted s' s'' ->
  rows_kept painted s s''.
Proof.
  intros (px & -> & Hlen & Hk) (px' & -> & Hlen' & Hk').
  exists px'. cbn [pixels set_pixels] in *.
  split; [reflexivity|]. split; [congruence|].
  intros i Hi. rewrite <- (Hk i Hi). apply Hk'. exact Hi.
Qed.

(** A fill of one row. *)
Lemma rows_kept_fill (painted : Z -> Prop) x y w color s :
  painted y ->
  rows_kept painted s (SDL_FillRect (mkRect x y w 1) color s).1.
Proof.
  intros Hy. unfold SDL_FillRect. cbn [fst].
  eexists. split; [reflexivity|]. split; [apply length_paint|].
  intros i Hi. apply lookup_paint. unfold fill_region.
  replace (in_rect (mkRect x y w 1) _ _) with false; [reflexivity|].
  symmetry. apply not_true_is_false. unfold in_rect. cbn.
  rewrite !andb_true_iff, !Z.leb_le, !Z.ltb_lt. intros Hin.
  apply Hi. replace (Z.of_nat i / pitch_px s) with y by lia. exact Hy.
Qed.

Section PolygonRows.

Context {F : Type} `{PyFloat F}.

Lemma fill_spans_rows (painted : Z -> Prop) y color scan :
  forall (edges : list (@Edge F)) s,
    (scan <> [] -> painted y) ->
    rows_kept painted s (fill_spans y color scan edges s).1.
Proof.
  induction scan as [scan IH] using (induction_ltof1 _ (@length nat)).
  unfold ltof in IH. intros edges s Hy.
  destruct scan as [|a [|b scan']]; cbn [fill_spans].
  - apply rows_kept_refl.
  - apply rows_kept_refl.
  - rewrite bind_lift.
    destruct (num_int (x_at edges a)) as [x| |]; try apply rows_kept_refl.
    rewrite bind_lift.
    destruct (num_int (x_at edges b)) as [x'| |]; try apply rows_kept_refl.
    rewrite bind_run.
    pose proof (rows_kept_fill painted x y (x' - x) color s
                  (Hy ltac:(discriminate))) as Hfill.
    destruct (SDL_FillRect (mkRect x y (x' - x) 1) color s) as [s1 [[]| |]]
      eqn:Ef; cbn [fst] in Hfill; try exact Hfill.
    rewrite bind_lift.
    destruct (advance edges a) as [e1| |]; try exact Hfill.
    rewrite bind_lift.
    destruct (advance e1 b) as [e2| |]; try exact Hfill.
    eapply rows_kept_trans; [exact Hfill|].
    apply IH; [cbn; lia|]. intros _. apply Hy. discriminate.
Qed.

(** A scanline with an edge record in its list meets the span of one. *)
Lemma scan_positions_active y (edges : list (@Edge F)) i :
  scan_positions y i edges <> [] ->
  exists sp, sp ∈ spans edges /\ sp.1 <= y < sp.2.
Proof.
  revert i. induction edges as [|e edges IH]; intros i; cbn [scan_positions].
  - intros Hn. contradiction.
  - unfold spans. cbn [map]. destruct (active y e) eqn:Ea.
    + intros _. exists (edge_ylow e, edge_yhigh e).
      split; [apply elem_of_cons; auto|]. unfold active in Ea.
      rewrite andb_true_iff, Z.geb_le, Z.ltb_lt in Ea. cbn. lia.
    + intros Hn. destruct (IH _ Hn) as (sp & Hsp & Hy).
      exists sp. split; [apply elem_of_cons; auto|exact Hy].
Qed.

Lemma sort_by_x_nonempty (edges : list (@Edge F)) scan :
  sort_by_x edges scan <> [] -> scan <> [].
Proof. intros Hs ->. apply Hs. reflexivity. Qed.

Lemma scan_lines_rows (painted : Z -> Prop) n color :
  forall y (edges : list (@Edge F)) s,
    (forall y' sp, sp ∈ spans edges -> sp.1 <= y' < sp.2 ->
                   y <= y' < y + Z.of_nat n -> painted y') ->
    rows_kept painted s (scan_lines n y color edges s).1.
Proof.
  induction n as [|n IH]; intros y edges s Hp; cbn [scan_lines].
  - apply rows_kept_refl.
  - destruct (negb _); [apply rows_kept_refl|].
    rewrite bind_run.
    pose proof (fill_spans_rows painted y color
                  (sort_by_x edges (scan_positions y 0 edges)) edges s)
      as Hrow.
    destruct (fill_spans_spans y color
                (sort_by_x edges (scan_positions y 0 edges)) edges s)
      as [_ Hs].
    destruct (fill_spans _ _ _ _ _) as [s' [edges'| |]]; cbn [fst snd] in *.
    + assert (Hk : rows_kept painted s s').
      { apply Hrow. intros Hne. apply sort_by_x_nonempty in Hne.
        destruct (scan_positions_active _ _ _ Hne) as (sp & Hsp & Hy).
        apply (Hp y sp Hsp Hy). lia. }
      eapply rows_kept_trans; [exact Hk|].
      apply IH. intros y' sp Hsp Hy' Hr.
      rewrite (Hs _ eq_refl) in Hsp. apply (Hp y' sp Hsp Hy'). lia.
    + apply Hrow. intros Hne. apply sort_by_x_nonempty in Hne.
      destruct (scan_positions_active _ _ _ Hne) as (sp & Hsp & Hy).
      apply (Hp y sp Hsp Hy). lia.
    + apply Hrow. intros Hne. apply sort_by_x_nonempty in Hne.
      destruct (scan_positions_active _ _ _ Hne) as (sp & Hsp & Hy).
      apply (Hp y sp Hsp Hy). lia.
Qed.

(** The span of every edge record joins two ordinates of the outline. *)
Lemma build_edges_spans points : forall x1 y1 miny maxy minx maxx
    (edges edges' : list (@Edge F)) ly box,
  y1 ∈ ly ->
  Forall (fun sp : Z * Z => sp.1 ∈ ly /\ sp.2 ∈ ly) (spans edges) ->
  build_edges points x1 y1 miny maxy minx maxx edges = Ok (edges', box) ->
  Forall (fun sp : Z * Z => sp.1 ∈ ly ++ map snd points /\
                            sp.2 ∈ ly ++ map snd points) (spans edges').
Proof.
  induction points as [|[x2 y2] points IH];
    intros x1 y1 miny maxy minx maxx edges edges' ly box Hy1 Hsp E.
  - cbn in E. injection E as <- _. cbn. rewrite app_nil_r. exact Hsp.
  - cbn [build_edges] in E. cbn [map snd].
    rewrite (cons_middle _ ly), app_assoc.
    assert (Hy2 : y2 ∈ ly ++ [y2])
      by (apply elem_of_app; right; apply list_elem_of_singleton;
          reflexivity).
    assert (Hy1' : y1 ∈ ly ++ [y2]) by (apply elem_of_app; auto).
    assert (Hsp' : Forall (fun sp : Z * Z => sp.1 ∈ ly ++ [y2] /\
                                             sp.2 ∈ ly ++ [y2])
                     (spans edges)).
    { eapply Forall_impl; [exact Hsp|]. cbn. intros sp [? ?].
      split; apply elem_of_app; auto. }
    destruct (Z.gtb_spec y2 y1) as [Hgt|Hle].
    + destruct (inverse_slope x1 y1 x2 y2) as [k| |]; cbn in E;
        try discriminate.
      eapply IH; [exact Hy2| |exact E].
      unfold spans. rewrite map_app. apply Forall_app.
      split; [exact Hsp'|]. repeat constructor; assumption.
    + destruct (Z.ltb_spec y2 y1) as [Hlt|Hge].
      * destruct (inverse_slope x2 y2 x1 y1) as [k| |]; cbn in E;
          try discriminate.
        eapply IH; [exact Hy2| |exact E].
        unfold spans. rewrite map_app. apply Forall_app.
        split; [exact Hsp'|]. repeat constructor; assumption.
      * cbn in E. eapply IH; [exact Hy2|exact Hsp'|exact E].
Qed.

End PolygonRows.

Lemma elem_of_closed (v a : Z) (l : list Z) :
  v ∈ [a] ++ l ++ [a] -> v ∈ a :: l.
Proof.
  cbn [app]. rewrite app_comm_cons. intros Hin. apply elem_of_app in Hin.
  destruct Hin as [Hin|Hin]; [exact Hin|].
  apply list_elem_of_singleton in Hin. subst. apply elem_of_cons. auto.
Qed.

(** X15. A filled polygon paints no row above its topmost vertex and no
    row at or below its bottommost one: the scanlines cover the rows from
    the least ordinate of the vertices up to, and not including, the
    greatest. *)
Theorem polygon_fill_rows {F : Type} `{PyFloat F} (fuel : nat)
    (color : color_arg) (pointlist : list (Z * Z)) (width : Z) (s : Surface)
    (miny maxy : Z) (i : nat) :
  width <= 0 ->
  least miny (map snd pointlist) -> greatest maxy (map snd pointlist) ->
  Z.of_nat i / pitch_px s < miny \/ maxy <= Z.of_nat i / pitch_px s ->
  pixels (polygon fuel color pointlist width s).1 !! i = pixels s !! i.
Proof.
  intros Hw Hmin Hmax Hrow.
  assert (Hk : rows_kept (fun y => miny <= y < maxy) s
                 (polygon fuel color pointlist width s).1).
  { unfold polygon. destruct (Z.gtb_spec width 0); [lia|].
    rewrite bind_get_surface, bind_lift.
    destruct (_get_color color s) as [c| |]; try apply rows_kept_refl.
    destruct (length pointlist <? 3)%nat; [apply rows_kept_refl|].
    destruct pointlist as [|[x1 y1] rest]; [apply rows_kept_refl|].
    rewrite bind_lift.
    destruct (build_edges _ _ _ _ _ _ _ _)
      as [[edges [[[miny' maxy'] minx] maxx]]| |] eqn:Eb;
      try apply rows_kept_refl.
    apply (build_edges_spans _ _ _ _ _ _ _ _ _ [y1]) in Eb;
      [|apply list_elem_of_singleton; reflexivity|constructor].
    rewrite map_app in Eb. cbn [map snd] in Eb.
    rewrite Forall_forall in Eb.
    rewrite bind_run.
    match goal with
    | |- context [scan_lines ?n ?y0 ?c0 ?e0 ?s0] =>
        pose proof (scan_lines_rows (fun v => miny <= v < maxy)
                      n c0 y0 e0 s0) as Hs;
        destruct (scan_lines n y0 c0 e0 s0) as [s' [[]| |]]
    end; cbn [fst] in *; apply Hs; intros y' sp Hsp Hy' _;
      destruct (Eb sp Hsp) as [H1 H2];
      apply elem_of_closed in H1, H2;
      pose proof (least_le _ _ _ Hmin H1);
      pose proof (greatest_ge _ _ _ Hmax H2); lia. }
  destruct Hk as (px & -> & _ & Hpx). cbn [pixels set_pixels].
  apply Hpx. lia.
Qed.

Lemma polygon_fill_rows_witness :
  0 <= 0 /\
  least 1 (map snd [(1, 1); (6, 2); (3, 4)]) /\
  greatest 4 (map snd [(1, 1); (6, 2); (3, 4)]) /\
  pixels (polygon (F:=spec_float) 5 (ColorInt 7) [(1, 1); (6, 2); (3, 4)] 0
            surface_8x6).1 !! 35%nat
  = pixels surface_8x6 !! 35%nat.
Proof.
  assert (Hmin : least 1 (map snd [(1, 1); (6, 2); (3, 4)])).
  { split; [apply elem_of_cons; auto|]. repeat constructor; cbn; lia. }
  assert (Hmax : greatest 4 (map snd [(1, 1); (6, 2); (3, 4)])).
  { split; [cbn; do 2 (apply elem_of_cons; right);
            apply elem_of_cons; auto|].
    repeat constructor; cbn; lia. }
  split; [lia|]. split; [exact Hmin|]. split; [exact Hmax|].
  apply (polygon_fill_rows (F:=spec_float) 5 (ColorInt 7)
           [(1, 1); (6, 2); (3, 4)] 0 surface_8x6 1 4 35 ltac:(lia)
           Hmin Hmax).
  right. vm_compute. discriminate.
Defined.

(** ** Rounding in binary64 *)


Lemma digits2_pos_bounds p :
  2 ^ (Zpos (digits2_pos p) - 1) <= Zpos p < 2 ^ Zpos (digits2_pos p).
Proof.
  induction p as [p IH|p IH|]; cbn [digits2_pos].
  - rewrite Pos2Z.inj_succ. replace (Z.succ (Zpos (digits2_pos p)) - 1) with (Zpos (digits2_pos p)) by lia.
    rewrite Z.pow_succ_r by lia.
    assert (2 ^ Zpos (digits2_pos p) = 2 * 2 ^ (Zpos (digits2_pos p) - 1)).
    { rewrite <- Z.pow_succ_r by lia. f_equal. lia. }
    lia.
  - rewrite Pos2Z.inj_succ. replace (Z.succ (Zpos (digits2_pos p)) - 1) with (Zpos (digits2_pos p)) by lia.
    rewrite Z.pow_succ_r by lia.
    assert (2 ^ Zpos (digits2_pos p) = 2 * 2 ^ (Zpos (digits2_pos p) - 1)).
    { rewrite <- Z.pow_succ_r by lia. f_equal. lia. }
    lia.
  - cbn. lia.
Qed.

Lemma digits2_pos_unique p d :
  0 < d -> 2 ^ (d - 1) <= Zpos p < 2 ^ d -> Zpos (digits2_pos p) = d.
Proof.
  intros Hd Hb. pose proof (digits2_pos_bounds p) as Hp.
  set (k := Zpos (digits2_pos p)) in *. assert (0 < k) by (unfold k; lia).
  destruct (Z.lt_trichotomy k d) as [Hlt|[->|Hgt]]; [|reflexivity|].
  - assert (2 ^ k <= 2 ^ (d - 1)) by (apply Z.pow_le_mono_r; lia). lia.
  - assert (2 ^ d <= 2 ^ (k - 1)) by (apply Z.pow_le_mono_r; lia). lia.
Qed.

Lemma shr_1_m mrs : 0 <= shr_m mrs -> shr_m (shr_1 mrs) = shr_m mrs / 2.
Proof.
  destruct mrs as [m r s]. cbn. intros Hm.
  destruct m as [|[p|p|]|p]; cbn; try reflexivity; try lia.
  - rewrite Pos2Z.inj_xI. apply Z.div_unique with 1; lia.
  - rewrite Pos2Z.inj_xO. apply Z.div_unique with 0; lia.
Qed.

Lemma pow2_xI n : 2 ^ Zpos n~1 = 2 * (2 ^ Zpos n * 2 ^ Zpos n).
Proof.
  rewrite <- Z.pow_add_r by lia. rewrite <- (Z.pow_succ_r 2) by lia.
  f_equal. lia.
Qed.

Lemma pow2_xO n : 2 ^ Zpos n~0 = 2 ^ Zpos n * 2 ^ Zpos n.
Proof.
  rewrite <- Z.pow_add_r by lia. f_equal. lia.
Qed.

Lemma iter_pos_shr_1_m n : forall mrs,
  0 <= shr_m mrs -> shr_m (SpecFloat.iter_pos shr_1 n mrs) = shr_m mrs / 2 ^ Zpos n.
Proof.
  assert (Hp : forall k, 0 < 2 ^ Zpos k) by (intros; apply Z.pow_pos_nonneg; lia).
  induction n as [n IH|n IH|]; intros mrs Hm; cbn [SpecFloat.iter_pos].
  - assert (H1 : 0 <= shr_m (shr_1 mrs)) by (rewrite shr_1_m by lia; apply Z.div_pos; lia).
    assert (H2 : 0 <= shr_m (SpecFloat.iter_pos shr_1 n (shr_1 mrs))).
    { rewrite IH by lia. apply Z.div_pos; [lia|apply Hp]. }
    rewrite IH, IH, shr_1_m by lia.
    pose proof (Hp n). rewrite !Z.div_div by lia. f_equal. rewrite pow2_xI. lia.
  - assert (H2 : 0 <= shr_m (SpecFloat.iter_pos shr_1 n mrs)).
    { rewrite IH by lia. apply Z.div_pos; [lia|apply Hp]. }
    rewrite IH, IH by lia. pose proof (Hp n). rewrite Z.div_div by lia. f_equal.
    rewrite pow2_xO. lia.
  - rewrite shr_1_m by lia. rewrite Z.pow_1_r. reflexivity.
Qed.

Lemma iter_xO p d : Zpos (Pos.iter xO p d) = Zpos p * 2 ^ Zpos d.
Proof.
  revert p. induction d as [d IH|d IH|]; intros p; cbn [Pos.iter].
  - rewrite Pos2Z.inj_xO, IH, IH. rewrite pow2_xI. lia.
  - rewrite IH, IH. rewrite pow2_xO. lia.
  - rewrite Z.pow_1_r. lia.
Qed.



Lemma fexp_normal e : -1074 <= e - 53 -> fexp Binary64.prec Binary64.emax e = e - 53.
Proof. unfold fexp, emin, Binary64.prec, Binary64.emax. lia. Qed.

Lemma Zdigits2_unique m d :
  0 < d -> 2 ^ (d - 1) <= m < 2 ^ d -> Zdigits2 m = d.
Proof.
  intros Hd Hb. assert (0 < m) by (pose proof (Z.pow_pos_nonneg 2 (d - 1)); lia).
  destruct m as [|p|p]; try lia. cbn. apply digits2_pos_unique; assumption.
Qed.

Lemma shr_m_of_loc m l : shr_m (shr_record_of_loc m l) = m.
Proof. destruct l as [|[]]; reflexivity. Qed.

Lemma round_nearest_even_range m l :
  m <= round_nearest_even m l <= m + 1.
Proof.
  unfold round_nearest_even. destruct l as [|[]]; try lia.
  destruct (Z.even m); lia.
Qed.

(** Rounding a mantissa of at least 53 digits, in the normal range. *)
Lemma round_aux_bracket s mx ex lx :
  let d := Zpos (digits2_pos mx) in
  53 <= d -> -1074 <= ex + d - 53 -> ex + d <= 1023 ->
  let n := d - 53 in
  let m1 := Zpos mx / 2 ^ n in
  exists m2 e2,
    binary_round_aux Binary64.prec Binary64.emax s (Zpos mx) ex lx = S754_finite s m2 e2 /\
    2 ^ 52 <= Zpos m2 < 2 ^ 53 /\
    ((e2 = ex + n /\ m1 <= Zpos m2 <= m1 + 1) \/
     (e2 = ex + n + 1 /\ m1 + 1 = 2 ^ 53 /\ Zpos m2 = 2 ^ 52)) /\
    (n = 0 -> lx = loc_Exact -> m2 = mx /\ e2 = ex).
Proof.
  intros d Hd Hlo Hhi n m1.
  pose proof (digits2_pos_bounds mx) as Hmx. fold d in Hmx.
  assert (Hm1 : 2 ^ 52 <= m1 < 2 ^ 53).
  { unfold m1. replace d with (n + 53) in Hmx by (unfold n; lia).
    replace (n + 53 - 1) with (52 + n) in Hmx by lia.
    rewrite (Z.add_comm n 53) in Hmx.
    rewrite !Z.pow_add_r in Hmx by (unfold n; lia).
    assert (0 < 2 ^ n) by (apply Z.pow_pos_nonneg; unfold n; lia).
    split.
    - apply Z.div_le_lower_bound; lia.
    - apply Z.div_lt_upper_bound; lia. }
  unfold binary_round_aux.
  assert (E1 : shr_fexp Binary64.prec Binary64.emax (Zpos mx) ex lx
               = (let mrs := shr_record_of_loc (Zpos mx) lx in
                  match n with Zpos p => SpecFloat.iter_pos shr_1 p mrs | _ => mrs end,
                  ex + n)).
  { unfold shr_fexp. cbn [Zdigits2]. fold d.
    rewrite fexp_normal by lia.
    replace (d + ex - 53 - ex) with n by (unfold n; lia).
    unfold shr. destruct n eqn:En; try reflexivity; try (f_equal; lia). }
  rewrite E1. cbv zeta.
  set (mrs1 := match n with Zpos p => _ | _ => _ end).
  assert (Hmrs1 : shr_m mrs1 = m1).
  { unfold mrs1, m1. destruct n eqn:En.
    - rewrite shr_m_of_loc, Z.pow_0_r, Z.div_1_r. reflexivity.
    - rewrite iter_pos_shr_1_m; rewrite shr_m_of_loc; [reflexivity|lia].
    - unfold n in En. lia. }
  set (m1' := round_nearest_even (shr_m mrs1) (loc_of_shr_record mrs1)).
  pose proof (round_nearest_even_range (shr_m mrs1) (loc_of_shr_record mrs1)) as Hr.
  fold m1' in Hr. rewrite Hmrs1 in Hr.
  destruct (Z.eq_dec m1' (2 ^ 53)) as [Ecarry|Hnc].
  - (* carry *)
    assert (E2 : shr_fexp Binary64.prec Binary64.emax m1' (ex + n) loc_Exact
                 = ({| shr_m := 2 ^ 52; shr_r := false; shr_s := false |}, ex + n + 1)).
    { unfold shr_fexp. rewrite (Zdigits2_unique m1' 54) by (rewrite ?Ecarry; lia).
      rewrite fexp_normal by (unfold n; lia).
      replace (54 + (ex + n) - 53 - (ex + n)) with 1 by lia.
      rewrite Ecarry. reflexivity. }
    rewrite E2. cbn [shr_m]. change (2 ^ 52) with (Zpos (2 ^ 52)%positive).
    assert (Hle : (ex + n + 1 <=? Binary64.emax - Binary64.prec) = true)
      by (apply Z.leb_le; unfold Binary64.emax, Binary64.prec, n; lia).
    rewrite Hle. exists (2 ^ 52)%positive, (ex + n + 1).
    split; [reflexivity|]. split; [lia|]. split.
    + right. split; [reflexivity|]. split; [|reflexivity]. lia.
    + intros Hn ->. exfalso. unfold m1', mrs1 in Ecarry. rewrite Hn in Ecarry.
      cbn in Ecarry. unfold m1 in Hm1. rewrite Hn, Z.pow_0_r, Z.div_1_r in Hm1. lia.
  - assert (Hm1' : 2 ^ 52 <= m1' < 2 ^ 53) by lia.
    assert (E2 : shr_fexp Binary64.prec Binary64.emax m1' (ex + n) loc_Exact
                 = ({| shr_m := m1'; shr_r := false; shr_s := false |}, ex + n)).
    { unfold shr_fexp. rewrite (Zdigits2_unique m1' 53) by lia.
      rewrite fexp_normal by (unfold n; lia).
      replace (53 + (ex + n) - 53 - (ex + n)) with 0 by lia. reflexivity. }
    rewrite E2. cbn [shr_m].
    destruct m1' as [|p|p] eqn:Ep; try lia.
    assert (Hle : (ex + n <=? Binary64.emax - Binary64.prec) = true)
      by (apply Z.leb_le; unfold Binary64.emax, Binary64.prec, n; lia).
    rewrite Hle. exists p, (ex + n).
    split; [reflexivity|]. split; [lia|]. split.
    + left. split; [reflexivity|lia].
    + intros Hn ->. split; [|lia].
      unfold m1', mrs1 in Ep. rewrite Hn in Ep. cbn in Ep. congruence.
Qed.




Lemma binary_round_exact s mx :
  Zpos mx < 2 ^ 53 ->
  exists m e,
    binary_round Binary64.prec Binary64.emax s mx 0 = S754_finite s m e /\
    normal53 m /\ -52 <= e <= 0 /\ Zpos m = Zpos mx * 2 ^ (- e).
Proof.
  intros Hlt. pose proof (digits2_pos_bounds mx) as Hd.
  set (d := Zpos (digits2_pos mx)) in *.
  assert (Hd53 : 0 < d <= 53).
  { split; [unfold d; lia|].
    destruct (Z_le_gt_dec d 53) as [|Hgt]; [assumption|exfalso].
    assert (2 ^ 53 <= 2 ^ (d - 1)) by (apply Z.pow_le_mono_r; lia). lia. }
  unfold binary_round. fold d. rewrite Z.add_0_r.
  unfold fexp, emin, Binary64.prec, Binary64.emax.
  replace (Z.max (d - 53) (3 - 1024 - 53)) with (d - 53) by lia.
  unfold shl_align. rewrite Z.sub_0_r.
  destruct (d - 53) as [|k|k] eqn:Ek; try lia.
  - (* already 53 digits *)
    assert (d = 53) by lia.
    destruct (round_aux_bracket s mx 0 loc_Exact) as (m2 & e2 & E & Hn & _ & Hex);
      fold d; try lia.
    destruct Hex as [-> ->]; [fold d; lia|reflexivity|].
    exists mx, 0. split; [exact E|]. unfold normal53.
    replace (2 ^ 52) with (2 ^ (d - 1)) by (f_equal; lia).
    replace (2 ^ 53) with (2 ^ d) at 2 by (f_equal; lia).
    split; [lia|]. split; [lia|]. cbn. lia.
  - (* shift left *)
    set (mz := Pos.iter xO mx k).
    assert (Hmz : Zpos mz = Zpos mx * 2 ^ Zpos k) by apply iter_xO.
    assert (Hk : Zpos k = 53 - d) by lia.
    assert (Hmzb : 2 ^ 52 <= Zpos mz < 2 ^ 53).
    { rewrite Hmz, Hk.
      replace (2 ^ 52) with (2 ^ (d - 1) * 2 ^ (53 - d))
        by (rewrite <- Z.pow_add_r by lia; f_equal; lia).
      replace (2 ^ 53) with (2 ^ d * 2 ^ (53 - d))
        by (rewrite <- Z.pow_add_r by lia; f_equal; lia).
      assert (0 < 2 ^ (53 - d)) by (apply Z.pow_pos_nonneg; lia).
      split; [apply Z.mul_le_mono_nonneg_r; lia|apply Z.mul_lt_mono_pos_r; lia]. }
    assert (Hdz : Zpos (digits2_pos mz) = 53) by (apply digits2_pos_unique; lia).
    destruct (round_aux_bracket s mz (Z.neg k) loc_Exact) as (m2 & e2 & E & Hn & _ & Hex);
      rewrite ?Hdz; try lia.
    destruct Hex as [-> ->]; [rewrite Hdz; lia|reflexivity|].
    exists mz, (Z.neg k). split; [exact E|]. split; [exact Hmzb|].
    split; [lia|]. rewrite Hmz. f_equal.
Qed.



Lemma digits_normal53 m : normal53 m -> Zpos (digits2_pos m) = 53.
Proof. intros Hm. apply digits2_pos_unique; [lia|exact Hm]. Qed.

(** The product of two normal floats is at most one part in [2^52] above
    the exact product. *)
Lemma mul_upper sx mx ex sy my ey :
  normal53 mx -> normal53 my -> -900 <= ex + ey <= 900 ->
  exists mp ep,
    SFmul Binary64.prec Binary64.emax (S754_finite sx mx ex) (S754_finite sy my ey)
    = S754_finite (xorb sx sy) mp ep /\
    normal53 mp /\ ex + ey + 52 <= ep <= ex + ey + 54 /\
    Zpos mp * 2 ^ (ep - (ex + ey)) * 2 ^ 52
    <= Zpos mx * Zpos my * (2 ^ 52 + 1).
Proof.
  intros Hx Hy He. unfold normal53 in *. cbn [SFmul].
  set (P := (mx * my)%positive).
  assert (HP : 2 ^ 104 <= Zpos P < 2 ^ 106).
  { unfold P. rewrite Pos2Z.inj_mul.
    change (2 ^ 104) with (2 ^ 52 * 2 ^ 52). change (2 ^ 106) with (2 ^ 53 * 2 ^ 53).
    split; [apply Z.mul_le_mono_nonneg; lia|apply Z.mul_lt_mono_nonneg; lia]. }
  pose proof (digits2_pos_bounds P) as Hd.
  set (d := Zpos (digits2_pos P)) in *.
  assert (Hd' : 105 <= d <= 106).
  { split.
    - destruct (Z_le_gt_dec 105 d); [assumption|exfalso].
      assert (2 ^ d <= 2 ^ 104) by (apply Z.pow_le_mono_r; lia). lia.
    - destruct (Z_le_gt_dec d 106); [assumption|exfalso].
      assert (2 ^ 106 <= 2 ^ (d - 1)) by (apply Z.pow_le_mono_r; lia). lia. }
  destruct (round_aux_bracket (xorb sx sy) P (ex + ey) loc_Exact)
    as (mp & ep & E & Hn & Hb & _); fold d; try lia.
  exists mp, ep. split; [exact E|]. split; [exact Hn|].
  change (Zpos (digits2_pos P)) with d in Hb.
  set (n := d - 53) in *. set (m1 := Zpos P / 2 ^ n) in *.
  assert (Hn0 : 52 <= n <= 53) by (unfold n; lia).
  assert (Hpn : 0 < 2 ^ n) by (apply Z.pow_pos_nonneg; lia).
  assert (Hm1 : m1 * 2 ^ n <= Zpos P)
    by (unfold m1; rewrite Z.mul_comm; apply Z.mul_div_le; lia).
  assert (Hlow : 2 ^ n * 2 ^ 52 <= Zpos P).
  { rewrite <- Z.pow_add_r by lia. replace (n + 52) with (d - 1) by (unfold n; lia). lia. }
  assert (Hval : Zpos mp * 2 ^ (ep - (ex + ey)) <= (m1 + 1) * 2 ^ n).
  { destruct Hb as [[Hep Hb]|(Hep & Hc & Hmp)]; rewrite Hep.
    - replace (ex + ey + n - (ex + ey)) with n by lia.
      apply Z.mul_le_mono_nonneg_r; lia.
    - replace (ex + ey + n + 1 - (ex + ey)) with (1 + n) by lia.
      rewrite Z.pow_add_r by lia. rewrite Hc, Hmp.
      change (2 ^ 53) with (2 ^ 52 * 2 ^ 1). lia. }
  split; [destruct Hb as [[Hep _]|(Hep & _)]; lia|].
  unfold P in *. rewrite Pos2Z.inj_mul in *. nia.
Qed.

(** The quotient of two normal floats is within two units of the last
    place of the exact quotient. *)
Lemma div_bracket sx mx ex sy my ey :
  normal53 mx -> normal53 my -> -900 <= ex - ey <= 900 ->
  exists mq eq k,
    SFdiv Binary64.prec Binary64.emax (S754_finite sx mx ex) (S754_finite sy my ey)
    = S754_finite (xorb sx sy) mq eq /\
    normal53 mq /\ eq = ex - ey - 53 + k /\ 0 <= k <= 2 /\
    Zpos mx * 2 ^ 53 - 2 * Zpos my <= Zpos mq * 2 ^ k * Zpos my
    /\ Zpos mq * 2 ^ k * Zpos my <= Zpos mx * 2 ^ 53 + 2 * Zpos my.
Proof.
  intros Hx Hy He. pose proof Hx as Hx'. pose proof Hy as Hy'.
  unfold normal53 in Hx', Hy'. cbn [SFdiv].
  unfold SFdiv_core_binary. cbn [Zdigits2].
  rewrite (digits_normal53 mx Hx), (digits_normal53 my Hy).
  replace (53 + ex - (53 + ey)) with (ex - ey) by lia.
  rewrite fexp_normal by lia.
  replace (Z.min (ex - ey - 53) (ex - ey)) with (ex - ey - 53) by lia.
  replace (ex - ey - (ex - ey - 53)) with 53 by lia.
  cbv iota. rewrite Z.shiftl_mul_pow2 by lia.
  pose proof (Z_div_mod (Zpos mx * 2 ^ 53) (Zpos my) ltac:(lia)) as Hdm.
  destruct (Z.div_eucl (Zpos mx * 2 ^ 53) (Zpos my)) as [q r].
  destruct Hdm as [Hq Hr].
  assert (Hqb : 2 ^ 52 <= q < 2 ^ 54).
  { change (2 ^ 54) with (2 * 2 ^ 53). change (2 ^ 53) with (2 * 2 ^ 52) in *. nia. }
  destruct q as [|pq|pq]; try lia.
  pose proof (digits2_pos_bounds pq) as Hd.
  set (d := Zpos (digits2_pos pq)) in *.
  assert (Hd' : 53 <= d <= 54).
  { split.
    - destruct (Z_le_gt_dec 53 d); [assumption|exfalso].
      assert (2 ^ d <= 2 ^ 52) by (apply Z.pow_le_mono_r; lia). lia.
    - destruct (Z_le_gt_dec d 54); [assumption|exfalso].
      assert (2 ^ 54 <= 2 ^ (d - 1)) by (apply Z.pow_le_mono_r; lia). lia. }
  destruct (round_aux_bracket (xorb sx sy) pq (ex - ey - 53)
              (new_location (Zpos my) r))
    as (mq & eq & E & Hn & Hb & _); fold d; try lia.
  change (Zpos (digits2_pos pq)) with d in Hb.
  set (n := d - 53) in *. set (m1 := Zpos pq / 2 ^ n) in *.
  assert (Hn0 : n = 0 \/ n = 1) by (unfold n; lia).
  assert (Hm1 : Zpos pq - 1 <= m1 * 2 ^ n <= Zpos pq).
  { unfold m1. destruct Hn0 as [-> | ->].
    - rewrite Z.pow_0_r, Z.div_1_r. lia.
    - rewrite Z.pow_1_r. pose proof (Z_div_mod_eq_full (Zpos pq) 2).
      pose proof (Z.mod_pos_bound (Zpos pq) 2). lia. }
  exists mq, eq.
  destruct Hb as [[Hep Hb]|(Hep & Hc & Hmq)].
  - exists n. split; [exact E|]. split; [exact Hn|]. split; [lia|]. split; [lia|].
    assert (Hpn : 1 <= 2 ^ n <= 2) by (destruct Hn0 as [-> | ->]; cbn; lia).
    assert (Hv : Zpos pq - 1 <= Zpos mq * 2 ^ n <= Zpos pq + 2) by nia.
    set (v := Zpos mq * 2 ^ n) in *. clearbody v.
    set (w := Zpos mx * 2 ^ 53) in *. clearbody w. split; nia.
  - exists (n + 1). split; [exact E|]. split; [exact Hn|]. split; [lia|]. split; [lia|].
    rewrite Hmq. replace (2 ^ 52 * 2 ^ (n + 1)) with ((m1 + 1) * 2 ^ n).
    2:{ rewrite Hc, Z.pow_add_r by lia. change (2 ^ 53) with (2 ^ 52 * 2 ^ 1). lia. }
    assert (Hpn : 1 <= 2 ^ n <= 2) by (destruct Hn0 as [-> | ->]; cbn; lia).
    assert (Hv : Zpos pq - 1 <= (m1 + 1) * 2 ^ n <= Zpos pq + 2) by nia.
    set (v := (m1 + 1) * 2 ^ n) in *. clearbody v.
    set (w := Zpos mx * 2 ^ 53) in *. clearbody w. split; nia.
Qed.



Lemma trunc_finite s m e :
  Binary64.trunc (S754_finite s m e)
  = Ok (if s then - magnitude m e else magnitude m e).
Proof.
  unfold magnitude. destruct e as [|p|p]; cbn [Binary64.trunc].
  - rewrite Z.shiftl_0_r. cbn. rewrite Z.mul_1_r. reflexivity.
  - rewrite Z.shiftl_mul_pow2 by lia. reflexivity.
  - rewrite Z.shiftr_div_pow2 by lia. reflexivity.
Qed.

Lemma magnitude_bound m e c u :
  0 <= c -> 0 <= u -> 0 <= e + u ->
  Zpos m * 2 ^ (e + u) < (c + 1) * 2 ^ u ->
  0 <= magnitude m e <= c.
Proof.
  intros Hc Hu Heu Hlt. unfold magnitude.
  destruct (Z.ltb_spec e 0) as [He|He].
  - assert (Hp : 0 < 2 ^ (- e)) by (apply Z.pow_pos_nonneg; lia).
    assert (Hq : 0 < 2 ^ (e + u)) by (apply Z.pow_pos_nonneg; lia).
    assert (Hu' : 2 ^ u = 2 ^ (e + u) * 2 ^ (- e))
      by (rewrite <- Z.pow_add_r by lia; f_equal; lia).
    rewrite Hu' in Hlt.
    split; [apply Z.div_pos; [lia|exact Hp]|].
    apply Z.lt_succ_r. apply Z.div_lt_upper_bound; [exact Hp|]. nia.
  - assert (Hp : 0 < 2 ^ e) by (apply Z.pow_pos_nonneg; lia).
    assert (Hq : 0 < 2 ^ u) by (apply Z.pow_pos_nonneg; lia).
    rewrite Z.pow_add_r in Hlt by lia. split; [lia|]. nia.
Qed.

Lemma mul_arith A X Y Pa Px Py Pk Pj mp mq :
  0 <= A <= X -> 0 < X -> 0 <= Y ->
  0 < Pa -> 0 < Px -> 16 <= Py -> 0 < Pk -> 0 < Pj -> 0 <= mp -> 0 <= mq ->
  X * Px < 2 ^ 53 -> Y * Py < 2 ^ 53 ->
  mp * Pj * 2 ^ 104 <= (A * Pa) * mq * (2 ^ 52 + 1) ->
  mq * Pk * (X * Px) <= (Y * Py) * 2 ^ 53 + 2 * (X * Px) ->
  mp * Px * Pk * Pj < (Y + 1) * Pa * Py * 2.
Proof.
  intros HA HX HY HPa HPx HPy HPk HPj Hmp Hmq Hmx Hmy H1 H2.
  set (T := mp * Px * Pk * Pj).
  assert (S1 : T * X * 2 ^ 104 <= (A * Pa) * (2 ^ 52 + 1) * (mq * Pk * (X * Px))).
  { unfold T.
    replace (mp * Px * Pk * Pj * X * 2 ^ 104)
      with ((mp * Pj * 2 ^ 104) * (Pk * (X * Px))) by ring.
    replace (A * Pa * (2 ^ 52 + 1) * (mq * Pk * (X * Px)))
      with ((A * Pa * mq * (2 ^ 52 + 1)) * (Pk * (X * Px))) by ring.
    apply Z.mul_le_mono_nonneg_r; [nia|exact H1]. }
  assert (S2 : T * X * 2 ^ 104
               <= (X * Pa) * (2 ^ 52 + 1) * (Y * Py * 2 ^ 53 + 2 * (X * Px))).
  { etransitivity; [exact S1|].
    apply Z.mul_le_mono_nonneg; [nia| |nia|exact H2].
    apply Z.mul_le_mono_nonneg_r; [lia|]. nia. }
  assert (S3 : (2 ^ 52 + 1) * (Y * Py * 2 ^ 53 + 2 * (X * Px))
               < (Y + 1) * Py * 2 ^ 105).
  { set (my := Y * Py) in *. set (mx := X * Px) in *.
    replace ((Y + 1) * Py * 2 ^ 105) with (my * 2 ^ 105 + Py * 2 ^ 105)
      by (unfold my; ring).
    assert (0 <= my) by (unfold my; nia). lia. }
  assert (S4 : T * X * 2 ^ 104 < X * (Pa * ((Y + 1) * Py * 2 ^ 105))).
  { eapply Z.le_lt_trans; [exact S2|].
    replace (X * Pa * (2 ^ 52 + 1) * (Y * Py * 2 ^ 53 + 2 * (X * Px)))
      with (X * (Pa * ((2 ^ 52 + 1) * (Y * Py * 2 ^ 53 + 2 * (X * Px))))) by ring.
    apply Z.mul_lt_mono_pos_l; [lia|]. apply Z.mul_lt_mono_pos_l; [lia|exact S3]. }
  change (2 ^ 105) with (2 * 2 ^ 104) in S4.
  assert (S5 : X * 2 ^ 104 * T < X * 2 ^ 104 * ((Y + 1) * Pa * Py * 2)) by lia.
  apply Z.mul_lt_mono_pos_l in S5; [exact S5|lia].
Qed.

Lemma div_arith A X Y Pa Px Py Pk Pk2 mr mq :
  0 < A <= Y -> 0 < X ->
  0 < Pa -> 4096 <= Px -> 0 < Py -> 1 <= Pk -> 1 <= Pk2 <= 4 ->
  0 <= mr < 2 ^ 53 -> 0 <= mq ->
  2 ^ 52 <= A * Pa -> X * Px < 2 ^ 53 -> Y * Py < 2 ^ 53 ->
  (Y * Py) * 2 ^ 53 - 2 * (X * Px) <= mq * Pk * (X * Px) ->
  mq * Pk * (X * Px) <= (Y * Py) * 2 ^ 53 + 2 * (X * Px) ->
  mr * Pk2 * mq <= (A * Pa) * 2 ^ 53 + 2 * mq ->
  mr * Py * Pk2 < (X + 1) * Pa * Px * Pk.
Proof.
  intros HA HX HPa HPx HPy HPk HPk2 Hmr Hmq Hma Hmx Hmy Hlo Hhi H3.
  set (mx := X * Px) in *. set (my := Y * Py) in *. set (ma := A * Pa) in *.
  set (W := mq * Pk * mx) in *. set (R := mr * Pk2).
  assert (HR : 0 <= R < 2 ^ 55).
  { unfold R. change (2 ^ 55) with (2 ^ 53 * 4). split; [nia|].
    apply Z.lt_le_trans with (2 ^ 53 * Pk2); [|lia].
    apply Z.mul_lt_mono_pos_r; lia. }
  assert (Hmx0 : 0 < mx) by (unfold mx; nia).
  assert (S1 : R * W <= ma * 2 ^ 53 * Pk * mx + 2 * W).
  { unfold R, W.
    replace (mr * Pk2 * (mq * Pk * mx)) with ((mr * Pk2 * mq) * (Pk * mx)) by ring.
    replace (ma * 2 ^ 53 * Pk * mx + 2 * (mq * Pk * mx))
      with ((ma * 2 ^ 53 + 2 * mq) * (Pk * mx)) by ring.
    apply Z.mul_le_mono_nonneg_r; [nia|exact H3]. }
  assert (S2 : R * (my * 2 ^ 53 - 2 * mx) <= R * W)
    by (apply Z.mul_le_mono_nonneg_l; lia).
  assert (HRm : mx * R < 2 ^ 53 * 2 ^ 55)
    by (apply Z.mul_lt_mono_nonneg; lia).
  assert (S3 : R * my * 2 ^ 53 < ma * 2 ^ 53 * Pk * mx + 2 ^ 110).
  { replace (R * (my * 2 ^ 53 - 2 * mx)) with (R * my * 2 ^ 53 - 2 * (mx * R))
      in S2 by ring.
    change (2 ^ 53 * 2 ^ 55) with (2 ^ 108) in HRm. lia. }
  assert (S4 : ma * 2 ^ 53 * Pk * mx <= (Y * Pa) * 2 ^ 53 * Pk * mx).
  { assert (ma <= Y * Pa)
      by (unfold ma; apply Z.mul_le_mono_nonneg_r; lia).
    assert (0 <= 2 ^ 53 * Pk * mx)
      by (apply Z.mul_nonneg_nonneg; [apply Z.mul_nonneg_nonneg|];
          lia).
    replace (ma * 2 ^ 53 * Pk * mx) with (ma * (2 ^ 53 * Pk * mx)) by ring.
    replace (Y * Pa * 2 ^ 53 * Pk * mx) with ((Y * Pa) * (2 ^ 53 * Pk * mx)) by ring.
    apply Z.mul_le_mono_nonneg_r; assumption. }
  assert (Hbig : 2 ^ 110 <= (Y * Pa) * 2 ^ 53 * Pk * Px).
  { assert (HYP : 2 ^ 52 <= Y * Pa).
    { apply Z.le_trans with ma; [exact Hma|].
      unfold ma. apply Z.mul_le_mono_nonneg_r; lia. }
    assert (H1 : 2 ^ 52 * 2 ^ 53 <= (Y * Pa) * 2 ^ 53)
      by (apply Z.mul_le_mono_nonneg_r; [lia|exact HYP]).
    assert (H2 : 2 ^ 52 * 2 ^ 53 * 1 <= (Y * Pa) * 2 ^ 53 * Pk)
      by (apply Z.mul_le_mono_nonneg; lia).
    assert (H4 : 2 ^ 52 * 2 ^ 53 * 1 * 32 <= (Y * Pa) * 2 ^ 53 * Pk * Px)
      by (apply Z.mul_le_mono_nonneg; lia).
    exact H4. }
  assert (S5 : (Y * 2 ^ 53) * (mr * Py * Pk2)
               < (Y * 2 ^ 53) * ((X + 1) * Pa * Px * Pk)).
  { replace (Y * 2 ^ 53 * (mr * Py * Pk2)) with (R * my * 2 ^ 53)
      by (unfold R, my; ring).
    replace (Y * 2 ^ 53 * ((X + 1) * Pa * Px * Pk))
      with ((Y * Pa) * 2 ^ 53 * Pk * mx + (Y * Pa) * 2 ^ 53 * Pk * Px)
      by (unfold mx; ring).
    lia. }
  apply Z.mul_lt_mono_pos_l in S5; [exact S5|lia].
Qed.

(** ** Slopes of small integers in binary64 *)

(** Every integer below [2^53] in magnitude has a float. *)
Lemma of_int_exact z :
  Z.abs z < 2 ^ 53 -> exists f, Binary64.of_int z = Ok f /\ represents f z.
Proof.
  intros Hz. unfold Binary64.of_int, binary_normalize.
  destruct z as [|p|p].
  - eexists. split; reflexivity.
  - destruct (binary_round_exact false p) as (m & e & E & Hn & He & Hm); [lia|].
    rewrite E. eexists. split; [reflexivity|].
    cbn. repeat split; try lia; try apply Hn.
  - destruct (binary_round_exact true p) as (m & e & E & Hn & He & Hm); [lia|].
    rewrite E. eexists. split; [reflexivity|].
    cbn. repeat split; try lia; try apply Hn.
Qed.

(** The float of a non-zero integer of at most 40 bits: a full mantissa
    [|z| * 2^sh] with a shift [sh] of at least 12. *)
Lemma represents_small f z :
  represents f z -> z <> 0 -> Z.abs z <= 2 ^ 40 ->
  exists m sh,
    f = S754_finite (z <? 0) m (- sh) /\ normal53 m /\ 12 <= sh <= 52 /\
    Zpos m = Z.abs z * 2 ^ sh.
Proof.
  intros Hr Hz Hb. destruct f as [s| | |s m e]; cbn in Hr;
    try contradiction.
  destruct Hr as (_ & -> & Hn & He & Hm).
  exists m, (- e). rewrite Z.opp_involutive.
  split; [reflexivity|]. split; [exact Hn|]. split; [|exact Hm].
  split; [|lia].
  destruct (Z_le_gt_dec 12 (- e)) as [|Hlt]; [assumption|exfalso].
  assert (Hp : 2 ^ (- e) <= 2 ^ 11) by (apply Z.pow_le_mono_r; lia).
  assert (Hq : 0 < 2 ^ (- e)) by (apply Z.pow_pos_nonneg; lia).
  unfold normal53 in Hn.
  assert (Z.abs z * 2 ^ (- e) <= 2 ^ 40 * 2 ^ 11)
    by (apply Z.mul_le_mono_nonneg; lia).
  change (2 ^ 40 * 2 ^ 11) with (2 ^ 51) in *.
  assert (2 ^ 51 < 2 ^ 52) by reflexivity. lia.
Qed.

Lemma pow2_shift_bounds sh : 12 <= sh -> 4096 <= 2 ^ sh.
Proof.
  intros H. change 4096 with (2 ^ 12). apply Z.pow_le_mono_r; lia.
Qed.

Lemma pow2_small k : 0 <= k <= 2 -> 1 <= 2 ^ k <= 4.
Proof.
  intros H. assert (Hk : k = 0 \/ k = 1 \/ k = 2) by lia.
  destruct Hk as [Hk|[Hk|Hk]]; subst k; cbn; lia.
Qed.

Lemma of_int_zero f : Binary64.of_int 0 = Ok f -> f = S754_zero false.
Proof. intros [= <-]. reflexivity. Qed.

Lemma sgn_cases z :
  z <> 0 ->
  ((z <? 0) = true /\ Z.sgn z = -1 /\ Z.abs z = - z) \/
  ((z <? 0) = false /\ Z.sgn z = 1 /\ Z.abs z = z).
Proof. intros Hz. destruct (Z.ltb_spec z 0); lia. Qed.

(** The float of a small non-zero integer, taken apart. *)
Lemma of_int_small z f :
  Binary64.of_int z = Ok f -> z <> 0 -> Z.abs z <= 2 ^ 40 ->
  exists m sh,
    f = S754_finite (z <? 0) m (- sh) /\ normal53 m /\ 12 <= sh <= 52 /\
    Zpos m = Z.abs z * 2 ^ sh.
Proof.
  intros E Hz Hb. destruct (of_int_exact z) as (f' & E' & Hr).
  { assert (2 ^ 40 < 2 ^ 53) by reflexivity. lia. }
  rewrite E in E'. injection E' as <-.
  apply represents_small; assumption.
Qed.

(** [dy / float(dx)] for small non-zero [dy] and [dx]. *)
Lemma binary64_quotient dx dy fx fy m :
  Binary64.of_int dx = Ok fx -> Binary64.of_int dy = Ok fy ->
  Binary64.div fy fx = Ok m ->
  dx <> 0 -> dy <> 0 -> Z.abs dx <= 2 ^ 40 -> Z.abs dy <= 2 ^ 40 ->
  exists mq sx sy k,
    m = S754_finite (xorb (dy <? 0) (dx <? 0)) mq (sx - sy - 53 + k) /\
    normal53 mq /\ 12 <= sx <= 52 /\ 12 <= sy <= 52 /\ 0 <= k <= 2 /\
    2 ^ 52 <= Z.abs dx * 2 ^ sx < 2 ^ 53 /\
    2 ^ 52 <= Z.abs dy * 2 ^ sy < 2 ^ 53 /\
    (Z.abs dy * 2 ^ sy) * 2 ^ 53 - 2 * (Z.abs dx * 2 ^ sx)
      <= Zpos mq * 2 ^ k * (Z.abs dx * 2 ^ sx) /\
    Zpos mq * 2 ^ k * (Z.abs dx * 2 ^ sx)
      <= (Z.abs dy * 2 ^ sy) * 2 ^ 53 + 2 * (Z.abs dx * 2 ^ sx).
Proof.
  intros Ex Ey Em Hx Hy Hbx Hby.
  destruct (of_int_small dx fx Ex Hx Hbx) as (mx & sx & -> & Hnx & Hsx & Hmx).
  destruct (of_int_small dy fy Ey Hy Hby) as (my & sy & -> & Hny & Hsy & Hmy).
  unfold Binary64.div, Binary64.is_zero in Em. cbv iota in Em.
  assert (Em' : m = SFdiv Binary64.prec Binary64.emax
                      (S754_finite (dy <? 0) my (- sy))
                      (S754_finite (dx <? 0) mx (- sx))) by congruence.
  clear Em. subst m.
  destruct (div_bracket (dy <? 0) my (- sy) (dx <? 0) mx (- sx) Hny Hnx)
    as (mq & eq & k & E & Hnq & -> & Hk & Hlo & Hhi); [lia|].
  exists mq, sx, sy, k. rewrite E.
  split; [f_equal; lia|]. split; [exact Hnq|].
  split; [exact Hsx|]. split; [exact Hsy|]. split; [exact Hk|].
  rewrite <- Hmx, <- Hmy. unfold normal53 in Hnx, Hny.
  repeat split; try lia.
Qed.

Lemma signed_magnitude (a dy dx v : Z) :
  a <> 0 -> dy <> 0 -> dx <> 0 ->
  (if xorb (a <? 0) (xorb (dy <? 0) (dx <? 0)) then - v else v)
  = Z.sgn a * Z.sgn dy * Z.sgn dx * v.
Proof.
  intros Ha Hy Hx.
  destruct (sgn_cases a Ha) as [(-> & -> & _)|(-> & -> & _)],
    (sgn_cases dy Hy) as [(-> & -> & _)|(-> & -> & _)],
    (sgn_cases dx Hx) as [(-> & -> & _)|(-> & -> & _)]; cbn [xorb]; lia.
Qed.

(** [int(a * m)] with [m = dy / float(dx)]: no further from zero than
    [dy] when [a] is no further from zero than [dx]. *)
Lemma binary64_int_mul a dx dy fx fy m :
  Binary64.of_int dx = Ok fx -> Binary64.of_int dy = Ok fy ->
  Binary64.div fy fx = Ok m ->
  dx <> 0 -> Z.abs dx <= 2 ^ 40 -> Z.abs dy <= 2 ^ 40 ->
  Z.abs a <= Z.abs dx ->
  exists fa v,
    Binary64.of_int a = Ok fa /\
    Binary64.trunc (SFmul Binary64.prec Binary64.emax fa m)
    = Ok (Z.sgn a * Z.sgn dy * Z.sgn dx * v) /\
    0 <= v <= Z.abs dy.
Proof.
  intros Ex Ey Em Hx Hbx Hby Ha.
  destruct (of_int_exact a) as (fa & Ea & Hra).
  { assert (2 ^ 40 < 2 ^ 53) by reflexivity. lia. }
  exists fa.
  destruct (Z.eq_dec dy 0) as [->|Hy].
  { (* a flat segment: the slope is a zero *)
    apply of_int_zero in Ey. subst fy.
    destruct (of_int_small dx fx Ex Hx Hbx) as (mx & sx & -> & _).
    unfold Binary64.div, Binary64.is_zero in Em. cbv iota in Em.
    assert (m = S754_zero (dx <? 0)) as -> by (cbn in Em; congruence).
    exists 0. split; [exact Ea|].
    split; [|lia]. rewrite Z.mul_0_r.
    destruct fa as [s| | |s ma ea]; cbn in Hra; try contradiction;
      reflexivity. }
  destruct (binary64_quotient dx dy fx fy m Ex Ey Em Hx Hy Hbx Hby)
    as (mq & sx & sy & k & -> & Hnq & Hsx & Hsy & Hk & Hmx & Hmy & Hlo & Hhi).
  destruct (Z.eq_dec a 0) as [->|Ha0].
  { apply of_int_zero in Ea. subst fa. exists 0.
    split; [reflexivity|]. split; [reflexivity|lia]. }
  destruct (of_int_small a fa Ea Ha0) as (ma & sa & -> & Hna & Hsa & Hma);
    [lia|].
  destruct (mul_upper (a <? 0) ma (- sa)
              (xorb (dy <? 0) (dx <? 0)) mq (sx - sy - 53 + k) Hna Hnq)
    as (mp & ep & E & Hnp & Hep & Hup); [lia|].
  rewrite E, trunc_finite, signed_magnitude by assumption.
  exists (magnitude mp ep). split; [exact Ea|]. split; [reflexivity|].
  set (j := ep - (- sa + (sx - sy - 53 + k)) - 52).
  assert (Hj : 0 <= j <= 2) by (unfold j; lia).
  apply (magnitude_bound mp ep (Z.abs dy) (sa + sy + 1)); [lia|lia|lia|].
  replace (ep + (sa + sy + 1)) with (sx + k + j) by (unfold j; lia).
  rewrite !Z.pow_add_r by lia. rewrite Z.pow_1_r.
  pose proof (pow2_shift_bounds sx ltac:(lia)) as Hpx.
  pose proof (pow2_shift_bounds sy ltac:(lia)) as Hpy.
  pose proof (pow2_shift_bounds sa ltac:(lia)) as Hpa.
  pose proof (pow2_small k Hk) as Hpk. pose proof (pow2_small j Hj) as Hpj.
  replace (ep - (- sa + (sx - sy - 53 + k))) with (52 + j) in Hup
    by (unfold j; lia).
  rewrite Z.pow_add_r in Hup by lia. rewrite Hma in Hup.
  unfold normal53 in Hnp, Hnq.
  replace (Z.pos mp * (2 ^ sx * 2 ^ k * 2 ^ j))
    with (Z.pos mp * 2 ^ sx * 2 ^ k * 2 ^ j) by ring.
  replace ((Z.abs dy + 1) * (2 ^ sa * 2 ^ sy * 2))
    with ((Z.abs dy + 1) * 2 ^ sa * 2 ^ sy * 2) by ring.
  apply (mul_arith (Z.abs a) (Z.abs dx) (Z.abs dy) (2 ^ sa) (2 ^ sx)
           (2 ^ sy) (2 ^ k) (2 ^ j) (Zpos mp) (Zpos mq)); lia.
Qed.

(** [int(a / m)] with [m = dy / float(dx)]: no further from zero than
    [dx] when [a] is no further from zero than [dy]. *)
Lemma binary64_int_div a dx dy fx fy m :
  Binary64.of_int dx = Ok fx -> Binary64.of_int dy = Ok fy ->
  Binary64.div fy fx = Ok m ->
  dx <> 0 -> dy <> 0 -> Z.abs dx <= 2 ^ 40 -> Z.abs dy <= 2 ^ 40 ->
  Z.abs a <= Z.abs dy ->
  exists fa q v,
    Binary64.of_int a = Ok fa /\ Binary64.div fa m = Ok q /\
    Binary64.trunc q = Ok (Z.sgn a * Z.sgn dy * Z.sgn dx * v) /\
    0 <= v <= Z.abs dx.
Proof.
  intros Ex Ey Em Hx Hy Hbx Hby Ha.
  destruct (of_int_exact a) as (fa & Ea & Hra).
  { assert (2 ^ 40 < 2 ^ 53) by reflexivity. lia. }
  exists fa.
  destruct (binary64_quotient dx dy fx fy m Ex Ey Em Hx Hy Hbx Hby)
    as (mq & sx & sy & k & -> & Hnq & Hsx & Hsy & Hk & Hmx & Hmy & Hlo & Hhi).
  destruct (Z.eq_dec a 0) as [->|Ha0].
  { apply of_int_zero in Ea. subst fa.
    exists (S754_zero (xorb false (xorb (dy <? 0) (dx <? 0)))), 0.
    split; [reflexivity|]. split; [reflexivity|]. split; [reflexivity|lia]. }
  destruct (of_int_small a fa Ea Ha0) as (ma & sa & -> & Hna & Hsa & Hma);
    [lia|].
  destruct (div_bracket (a <? 0) ma (- sa)
              (xorb (dy <? 0) (dx <? 0)) mq (sx - sy - 53 + k) Hna Hnq)
    as (mr & er & k2 & E & Hnr & -> & Hk2 & Hrlo & Hrhi); [lia|].
  exists (S754_finite (xorb (a <? 0) (xorb (dy <? 0) (dx <? 0))) mr
            (- sa - (sx - sy - 53 + k) - 53 + k2)),
    (magnitude mr (- sa - (sx - sy - 53 + k) - 53 + k2)).
  split; [exact Ea|].
  split; [unfold Binary64.div; cbn [Binary64.is_zero]; rewrite E; reflexivity|].
  rewrite trunc_finite, signed_magnitude by assumption.
  split; [reflexivity|].
  apply (magnitude_bound mr _ (Z.abs dx) (sa + sx + k)); [lia|lia|lia|].
  replace (- sa - (sx - sy - 53 + k) - 53 + k2 + (sa + sx + k))
    with (sy + k2) by lia.
  rewrite !Z.pow_add_r by lia.
  pose proof (pow2_shift_bounds sx ltac:(lia)) as Hpx.
  pose proof (pow2_shift_bounds sy ltac:(lia)) as Hpy.
  pose proof (pow2_shift_bounds sa ltac:(lia)) as Hpa.
  pose proof (pow2_small k Hk) as Hpk. pose proof (pow2_small k2 Hk2) as Hpk2.
  rewrite Hma in Hrlo, Hrhi. unfold normal53 in Hnr, Hnq, Hna.
  rewrite Hma in Hna.
  replace (Z.pos mr * (2 ^ sy * 2 ^ k2))
    with (Z.pos mr * 2 ^ sy * 2 ^ k2) by ring.
  replace ((Z.abs dx + 1) * (2 ^ sa * 2 ^ sx * 2 ^ k))
    with ((Z.abs dx + 1) * 2 ^ sa * 2 ^ sx * 2 ^ k) by ring.
  apply (div_arith (Z.abs a) (Z.abs dx) (Z.abs dy) (2 ^ sa) (2 ^ sx)
           (2 ^ sy) (2 ^ k) (2 ^ k2) (Zpos mr) (Zpos mq)); lia.
Qed.

(** ** The interpolation laws in binary64 *)

Lemma signed_between a dx dy v :
  0 <= v <= Z.abs dy -> between a 0 dx ->
  between (Z.sgn a * Z.sgn dy * Z.sgn dx * v) 0 dy.
Proof.
  intros Hv Ha. unfold between in *.
  destruct (Z.eq_dec a 0) as [->|Ha0]; [cbn; lia|].
  destruct (Z.eq_dec dy 0) as [->|Hy0]; [rewrite Z.mul_0_r; cbn; lia|].
  assert (Hx0 : dx <> 0) by lia.
  destruct (sgn_cases a Ha0) as [(_ & -> & ?)|(_ & -> & ?)],
    (sgn_cases dy Hy0) as [(_ & -> & ?)|(_ & -> & ?)],
    (sgn_cases dx Hx0) as [(_ & -> & ?)|(_ & -> & ?)]; lia.
Qed.

Lemma signed_abs a dx dy v :
  0 <= v -> Z.abs (Z.sgn a * Z.sgn dy * Z.sgn dx * v) <= v.
Proof.
  intros Hv.
  destruct (Z.sgn_spec a) as [(_ & ->)|[(_ & ->)|(_ & ->)]],
    (Z.sgn_spec dy) as [(_ & ->)|[(_ & ->)|(_ & ->)]],
    (Z.sgn_spec dx) as [(_ & ->)|[(_ & ->)|(_ & ->)]]; lia.
Qed.

Lemma binary64_interpolates : @interpolates spec_float binary64 (2 ^ 40).
Proof.
  intros x1 y1 x2 y2 Hne Hbx Hby.
  destruct (of_int_exact (x2 - x1)) as (fx & Ex & _).
  { assert (2 ^ 40 < 2 ^ 53) by reflexivity. lia. }
  destruct (of_int_exact (y2 - y1)) as (fy & Ey & _).
  { assert (2 ^ 40 < 2 ^ 53) by reflexivity. lia. }
  destruct (of_int_small (x2 - x1) fx Ex ltac:(lia) Hbx)
    as (mx & sx & Efx & _).
  assert (Em : Binary64.div fy fx
               = Ok (SFdiv Binary64.prec Binary64.emax fy fx))
    by (rewrite Efx; reflexivity).
  exists (SFdiv Binary64.prec Binary64.emax fy fx). split; [|split].
  - unfold slope. destruct (Z.eqb_spec x1 x2); [contradiction|].
    cbn [negb float_of_int f_div binary64]. rewrite Ex. cbn [mbind res_bind].
    rewrite Ey. cbn [mbind res_bind]. exact Em.
  - intros a Ha.
    destruct (binary64_int_mul a (x2 - x1) (y2 - y1) fx fy _ Ex Ey Em)
      as (fa & v & Ea & Et & Hv); try lia.
    eexists. split; [|split].
    + unfold int_mul. cbn [float_of_int int_of_float f_mul binary64].
      rewrite Ea. cbn [mbind res_bind]. exact Et.
    + pose proof (signed_abs a (x2 - x1) (y2 - y1) v). lia.
    + apply signed_between. exact Hv.
  - intros Hy a Ha.
    destruct (binary64_int_div a (x2 - x1) (y2 - y1) fx fy _ Ex Ey Em)
      as (fa & q & v & Ea & Eq & Et & Hv); try lia.
    eexists. split; [|split].
    + unfold int_div. cbn [float_of_int int_of_float f_div binary64].
      rewrite Ea. cbn [mbind res_bind]. rewrite Eq. cbn [mbind res_bind].
      exact Et.
    + pose proof (signed_abs a (y2 - y1) (x2 - x1) v).
      replace (Z.sgn a * Z.sgn (y2 - y1) * Z.sgn (x2 - x1) * v)
        with (Z.sgn a * Z.sgn (x2 - x1) * Z.sgn (y2 - y1) * v) in * by ring.
      lia.
    + replace (Z.sgn a * Z.sgn (y2 - y1) * Z.sgn (x2 - x1) * v)
        with (Z.sgn a * Z.sgn (x2 - x1) * Z.sgn (y2 - y1) * v) by ring.
      apply signed_between. exact Hv.
Qed.

(** ** A clipping pass, forwards *)

Section ClipForwards.

Context {F : Type} `{PyFloat F}.

Lemma clip_horizontal_skip c bit bound (m : F) p :
  has_bit c bit = false -> clip_horizontal c bit bound m p = Ok p.
Proof. destruct p. unfold clip_horizontal. intros ->. reflexivity. Qed.

Lemma clip_horizontal_move c bit bound (m : F) x1 y1 d :
  has_bit c bit = true -> int_mul (bound - x1) m = Ok d ->
  clip_horizontal c bit bound m (x1, y1) = Ok (bound, y1 + d).
Proof. unfold clip_horizontal. intros -> ->. reflexivity. Qed.

Lemma clip_vertical_skip c bit bound (m : F) x2 p :
  has_bit c bit = false -> clip_vertical c bit bound m x2 p = Ok p.
Proof. destruct p. unfold clip_vertical. intros ->. reflexivity. Qed.

Lemma clip_vertical_straight c bit bound (m : F) x2 y1 :
  has_bit c bit = true ->
  clip_vertical c bit bound m x2 (x2, y1) = Ok (x2, bound).
Proof.
  unfold clip_vertical. intros ->. rewrite Z.eqb_refl. reflexivity.
Qed.

Lemma clip_vertical_move c bit bound (m : F) x2 x1 y1 e :
  has_bit c bit = true -> x1 <> x2 -> int_div (bound - y1) m = Ok e ->
  clip_vertical c bit bound m x2 (x1, y1) = Ok (x1 + e, bound).
Proof.
  unfold clip_vertical. intros -> Hne ->.
  destruct (Z.eqb_spec x1 x2); [contradiction|]. reflexivity.
Qed.

(** A pass is its two horizontal tests followed by its two vertical ones. *)
Lemma clip_endpoint_phases c x1 y1 x2 y2 l r t b (m : F) ph :
  slope x1 y1 x2 y2 = Ok m ->
  (clip_horizontal c _LEFT l m (x1, y1) ≫= clip_horizontal c _RIGHT r m)
  = Ok ph ->
  clip_endpoint c x1 y1 x2 y2 l r t b
  = (clip_vertical c _BOTTOM b m x2 ph ≫= clip_vertical c _TOP t m x2).
Proof.
  unfold clip_endpoint. intros -> E. cbn [mbind res_bind].
  destruct (clip_horizontal c _LEFT l m (x1, y1)) as [p| |];
    cbn [mbind res_bind] in *; try discriminate.
  rewrite E. reflexivity.
Qed.

Lemma horizontal_phase x1 y1 x2 y2 l r t b (m : F) :
  ~ (x1 < l /\ x2 < l) -> ~ (x1 > r /\ x2 > r) ->
  (x1 <> x2 ->
   forall a, Z.abs a <= Z.abs (x2 - x1) ->
     exists d, int_mul a m = Ok d /\ Z.abs d <= Z.abs (y2 - y1) /\
               (between a 0 (x2 - x1) -> between d 0 (y2 - y1))) ->
  exists xh d,
    (clip_horizontal (_endpoint_code x1 y1 l r t b) _LEFT l m (x1, y1)
       ≫= clip_horizontal (_endpoint_code x1 y1 l r t b) _RIGHT r m)
    = Ok (xh, y1 + d) /\
    ((x1 < l /\ xh = l) \/ (x1 > r /\ xh = r) \/
     (l <= x1 <= r /\ xh = x1 /\ d = 0)) /\
    between d 0 (y2 - y1).
Proof.
  intros Hl Hr Hm.
  destruct (Z.ltb_spec x1 l) as [Hxl|Hxl].
  - destruct (Hm ltac:(lia) (l - x1) ltac:(lia)) as (d & Ed & _ & Hd).
    exists l, d.
    rewrite (clip_horizontal_move _ _ _ _ _ _ d)
      by (try exact Ed; rewrite has_bit_LEFT; apply Z.ltb_lt; lia).
    cbn [mbind res_bind].
    rewrite clip_horizontal_skip
      by (rewrite has_bit_RIGHT, Z.gtb_ltb; apply Z.ltb_ge; lia).
    split; [reflexivity|]. split; [left; lia|].
    apply Hd. unfold between. lia.
  - rewrite clip_horizontal_skip
      by (rewrite has_bit_LEFT; apply Z.ltb_ge; lia).
    cbn [mbind res_bind].
    destruct (Z_lt_ge_dec r x1) as [Hxr|Hxr].
    + destruct (Hm ltac:(lia) (r - x1) ltac:(lia)) as (d & Ed & _ & Hd).
      exists r, d.
      rewrite (clip_horizontal_move _ _ _ _ _ _ d)
        by (try exact Ed; rewrite has_bit_RIGHT, Z.gtb_ltb;
            apply Z.ltb_lt; lia).
      split; [reflexivity|]. split; [right; left; lia|].
      apply Hd. unfold between. lia.
    + exists x1, 0.
      rewrite clip_horizontal_skip
        by (rewrite has_bit_RIGHT, Z.gtb_ltb; apply Z.ltb_ge; lia).
      rewrite Z.add_0_r. split; [reflexivity|].
      split; [right; right; lia|]. unfold between. lia.
Qed.

Lemma vertical_phase x1 y1 x2 y2 l r t b (m : F) xh d :
  ~ (y1 < t /\ y2 < t) -> ~ (y1 > b /\ y2 > b) ->
  between d 0 (y2 - y1) ->
  (xh <> x2 -> y1 <> y2 ->
   forall a, Z.abs a <= Z.abs (y2 - y1) ->
     exists e, int_div a m = Ok e /\ Z.abs e <= Z.abs (x2 - x1) /\
               (between a 0 (y2 - y1) -> between e 0 (x2 - x1))) ->
  exists x' y' e,
    (clip_vertical (_endpoint_code x1 y1 l r t b) _BOTTOM b m x2 (xh, y1 + d)
       ≫= clip_vertical (_endpoint_code x1 y1 l r t b) _TOP t m x2)
    = Ok (x', y') /\
    ((y1 < t /\ y' = t /\ x' = xh + e) \/
     (y1 > b /\ y' = b /\ x' = xh + e) \/
     (t <= y1 <= b /\ y' = y1 + d /\ x' = xh)) /\
    Z.abs e <= Z.abs (x2 - x1) /\
    (d = 0 -> between e 0 (x2 - x1)).
Proof.
  intros Ht Hb Hd Hdiv. unfold between in Hd.
  destruct (Z_lt_ge_dec b y1) as [Hyb|Hyb].
  - (* below the box: the bottom test moves it, the top test does not *)
    destruct (Z.eq_dec xh x2) as [->|Hne].
    + exists x2, b, 0.
      rewrite clip_vertical_straight
        by (rewrite has_bit_BOTTOM, Z.gtb_ltb; apply Z.ltb_lt; lia).
      cbn [mbind res_bind].
      rewrite clip_vertical_skip
        by (rewrite has_bit_TOP; apply Z.ltb_ge; lia).
      split; [reflexivity|]. split; [right; left; lia|].
      split; [lia|]. unfold between. lia.
    + destruct (Hdiv Hne ltac:(lia) (b - (y1 + d)) ltac:(lia))
        as (e & Ee & Hea & Heb).
      exists (xh + e), b, e.
      rewrite (clip_vertical_move _ _ _ _ _ _ _ e)
        by (try exact Ee; try exact Hne;
            rewrite has_bit_BOTTOM, Z.gtb_ltb; apply Z.ltb_lt; lia).
      cbn [mbind res_bind].
      rewrite clip_vertical_skip
        by (rewrite has_bit_TOP; apply Z.ltb_ge; lia).
      split; [reflexivity|]. split; [right; left; lia|].
      split; [exact Hea|]. intros ->. apply Heb. unfold between. lia.
  - rewrite clip_vertical_skip
      by (rewrite has_bit_BOTTOM, Z.gtb_ltb; apply Z.ltb_ge; lia).
    cbn [mbind res_bind].
    destruct (Z_lt_ge_dec y1 t) as [Hyt|Hyt].
    + destruct (Z.eq_dec xh x2) as [->|Hne].
      * exists x2, t, 0.
        rewrite clip_vertical_straight
          by (rewrite has_bit_TOP; apply Z.ltb_lt; lia).
        split; [reflexivity|]. split; [left; lia|].
        split; [lia|]. unfold between. lia.
      * destruct (Hdiv Hne ltac:(lia) (t - (y1 + d)) ltac:(lia))
          as (e & Ee & Hea & Heb).
        exists (xh + e), t, e.
        rewrite (clip_vertical_move _ _ _ _ _ _ _ e)
          by (try exact Ee; try exact Hne;
              rewrite has_bit_TOP; apply Z.ltb_lt; lia).
        split; [reflexivity|]. split; [left; lia|].
        split; [exact Hea|]. intros ->. apply Heb. unfold between. lia.
    + exists xh, (y1 + d), 0.
      rewrite clip_vertical_skip
        by (rewrite has_bit_TOP; apply Z.ltb_ge; lia).
      split; [reflexivity|]. split; [right; right; lia|].
      split; [lia|]. unfold between. lia.
Qed.

End ClipForwards.

(** ** Clipping with arithmetic that interpolates within a bound *)

(** Where two clips of one endpoint against a fixed other one leave it:
    the facts of [clip_endpoint_bounded] for the first pass and for the
    second. *)
Lemma two_clips_settle x1 y1 x2 y2 l r t b xa ya xb yb xh1 d1 e1 xh2 d2 e2 :
  ~ same_side x1 y1 x2 y2 l r t b ->
  ~ settled xa ya x2 y2 l r t b ->
  ((x1 < l /\ xh1 = l) \/ (x1 > r /\ xh1 = r) \/
   (l <= x1 <= r /\ xh1 = x1 /\ d1 = 0)) ->
  ((y1 < t /\ ya = t /\ xa = xh1 + e1) \/
   (y1 > b /\ ya = b /\ xa = xh1 + e1) \/
   (t <= y1 <= b /\ ya = y1 + d1 /\ xa = xh1)) ->
  ((xa < l /\ xh2 = l) \/ (xa > r /\ xh2 = r) \/
   (l <= xa <= r /\ xh2 = xa /\ d2 = 0)) ->
  between d2 0 (y2 - ya) ->
  ((ya < t /\ yb = t /\ xb = xh2 + e2) \/
   (ya > b /\ yb = b /\ xb = xh2 + e2) \/
   (t <= ya <= b /\ yb = ya + d2 /\ xb = xh2)) ->
  (l <= xa <= r -> between e2 0 (x2 - xa)) ->
  settled xb yb x2 y2 l r t b.
Proof.
  intros Hs Hn H1 H1' H2 Hd2 H2' He2.
  unfold settled, inside, same_side, between in *.
  destruct H1 as [(? & ->) | [(? & ->) | (? & -> & ->)]];
    destruct H1' as [(? & -> & ->) | [(? & -> & ->) | (? & -> & ->)]];
    destruct H2 as [(? & ->) | [(? & ->) | (? & -> & ->)]];
    destruct H2' as [(? & -> & ->) | [(? & -> & ->) | (? & -> & ->)]];
    lia.
Qed.

Lemma fits_bounds K x1 y1 x2 y2 l r t b :
  fits K x1 y1 x2 y2 l r t b ->
  (- K <= x1 <= K /\ - K <= y1 <= K) /\ (- K <= x2 <= K /\ - K <= y2 <= K) /\
  (- K <= l <= K /\ - K <= r <= K) /\ (- K <= t <= K /\ - K <= b <= K).
Proof. unfold fits. rewrite <- !Z.abs_le. tauto. Qed.

Lemma abs_diff_le K p q :
  - K <= p <= K -> - K <= q <= K -> Z.abs (q - p) <= 2 * K.
Proof. intros Hp Hq. apply Z.abs_le. lia. Qed.

Section ClipBounded.

Context {F : Type} `{PyFloat F}.
Variable B : Z.
Hypothesis Hint : interpolates B.

(** One pass on a segment whose spans are within the bound: it raises
    nothing, and leaves the endpoint where [xh], [d] and [e] say: [xh] is
    its abscissa after the horizontal tests, [d] the shift along y of a
    horizontal clip and [e] the shift along x of a vertical one. *)
Lemma clip_endpoint_bounded x1 y1 x2 y2 l r t b :
  ~ same_side x1 y1 x2 y2 l r t b ->
  Z.abs (x2 - x1) <= B -> Z.abs (y2 - y1) <= B ->
  exists x' y' xh d e,
    clip_endpoint (_endpoint_code x1 y1 l r t b) x1 y1 x2 y2 l r t b
    = Ok (x', y') /\
    ((x1 < l /\ xh = l) \/ (x1 > r /\ xh = r) \/
     (l <= x1 <= r /\ xh = x1 /\ d = 0)) /\
    between d 0 (y2 - y1) /\
    ((y1 < t /\ y' = t /\ x' = xh + e) \/
     (y1 > b /\ y' = b /\ x' = xh + e) \/
     (t <= y1 <= b /\ y' = y1 + d /\ x' = xh)) /\
    Z.abs e <= Z.abs (x2 - x1) /\
    (l <= x1 <= r -> between e 0 (x2 - x1)).
Proof.
  intros Hns Hbx Hby. unfold same_side in Hns.
  assert (Hs : exists m : F,
            slope x1 y1 x2 y2 = Ok m /\
            (x1 <> x2 ->
             (forall a, Z.abs a <= Z.abs (x2 - x1) ->
                exists d, int_mul a m = Ok d /\
                          Z.abs d <= Z.abs (y2 - y1) /\
                          (between a 0 (x2 - x1) -> between d 0 (y2 - y1)))
             /\
             (y1 <> y2 ->
              forall a, Z.abs a <= Z.abs (y2 - y1) ->
                exists e, int_div a m = Ok e /\
                          Z.abs e <= Z.abs (x2 - x1) /\
                          (between a 0 (y2 - y1) -> between e 0 (x2 - x1))))).
  { destruct (Z.eq_dec x1 x2) as [E|Hne].
    - exists f_one. split; [|intros; contradiction].
      unfold slope. rewrite E, Z.eqb_refl. reflexivity.
    - destruct (Hint x1 y1 x2 y2 Hne Hbx Hby) as (m & Em & Hm & Hd).
      exists m. auto. }
  destruct Hs as (m & Em & Hlaw).
  destruct (horizontal_phase x1 y1 x2 y2 l r t b m)
    as (xh & d & Eh & Hxh & Hd); [lia|lia| |].
  { intros Hne. apply Hlaw, Hne. }
  destruct (vertical_phase x1 y1 x2 y2 l r t b m xh d)
    as (x' & y' & e & Ev & Hv & He & He0); [lia|lia|exact Hd| |].
  { intros Hne Hy. apply Hlaw; [|exact Hy]. lia. }
  exists x', y', xh, d, e.
  rewrite (clip_endpoint_phases _ _ _ _ _ _ _ _ _ m (xh, y1 + d) Em Eh).
  split; [exact Ev|]. split; [exact Hxh|]. split; [exact Hd|].
  split; [exact Hv|]. split; [exact He|].
  intros Hin. apply He0. lia.
Qed.

(** The endpoint a pass returns lies within three times the bound of the
    coordinates. *)
Lemma clip_endpoint_fits K x1 y1 x2 y2 l r t b x' y' :
  fits K x1 y1 x2 y2 l r t b -> 2 * K <= B ->
  ~ same_side x1 y1 x2 y2 l r t b ->
  clip_endpoint (_endpoint_code x1 y1 l r t b) x1 y1 x2 y2 l r t b
  = Ok (x', y') ->
  - (3 * K) <= x' <= 3 * K /\ - K <= y' <= K.
Proof.
  intros Hf HK Hns E. apply fits_bounds in Hf.
  destruct Hf as ((Hx1 & Hy1) & (Hx2 & Hy2) & (Hl & Hr) & (Ht & Hb)).
  pose proof (abs_diff_le K x1 x2 Hx1 Hx2) as Hdx.
  pose proof (abs_diff_le K y1 y2 Hy1 Hy2) as Hdy.
  destruct (clip_endpoint_bounded x1 y1 x2 y2 l r t b Hns)
    as (x'' & y'' & xh & d & e & E' & Hxh & Hd & Hv & He & _);
    [lia|lia|].
  rewrite E in E'. injection E' as <- <-. unfold between in Hd.
  assert (He' : - (2 * K) <= e <= 2 * K) by (apply Z.abs_le; lia).
  clear He Hdx Hdy E Hns.
  destruct Hxh as [(? & ->) | [(? & ->) | (? & -> & ->)]];
    destruct Hv as [(? & -> & ->) | [(? & -> & ->) | (? & -> & ->)]];
    lia.
Qed.

(** Two passes on one endpoint settle it. *)
Lemma two_passes_settle_bounded K x1 y1 x2 y2 l r t b xa ya xb yb :
  fits K x1 y1 x2 y2 l r t b -> 4 * K <= B ->
  ~ same_side x1 y1 x2 y2 l r t b ->
  clip_endpoint (_endpoint_code x1 y1 l r t b) x1 y1 x2 y2 l r t b
  = Ok (xa, ya) ->
  ~ settled xa ya x2 y2 l r t b ->
  clip_endpoint (_endpoint_code xa ya l r t b) xa ya x2 y2 l r t b
  = Ok (xb, yb) ->
  settled xb yb x2 y2 l r t b.
Proof.
  intros Hf HK Hs E1 Hn E2.
  pose proof (fits_bounds _ _ _ _ _ _ _ _ _ Hf)
    as ((Hx1 & Hy1) & (Hx2 & Hy2) & _).
  assert (HK0 : 0 <= K) by lia.
  destruct (clip_endpoint_fits K _ _ _ _ _ _ _ _ _ _ Hf ltac:(lia) Hs E1)
    as [Hxa Hya].
  assert (Hs2 : ~ same_side xa ya x2 y2 l r t b)
    by (intros ?; apply Hn; right; assumption).
  pose proof (abs_diff_le K x1 x2 Hx1 Hx2) as Hdx.
  pose proof (abs_diff_le K y1 y2 Hy1 Hy2) as Hdy.
  destruct (clip_endpoint_bounded x1 y1 x2 y2 l r t b Hs)
    as (x' & y' & xh1 & d1 & e1 & E1' & H1 & _ & H1' & _); [lia|lia|].
  rewrite E1 in E1'. injection E1' as <- <-.
  assert (Hdxa : Z.abs (x2 - xa) <= B) by (apply Z.abs_le; lia).
  assert (Hdya : Z.abs (y2 - ya) <= B) by (apply Z.abs_le; lia).
  destruct (clip_endpoint_bounded xa ya x2 y2 l r t b Hs2 Hdxa Hdya)
    as (x' & y' & xh2 & d2 & e2 & E2' & H2 & Hd2 & H2' & _ & He2).
  rewrite E2 in E2'. injection E2' as <- <-.
  eapply (two_clips_settle x1 y1 x2 y2 l r t b xa ya xb yb); eassumption.
Qed.

End ClipBounded.

(** ** Runs of the loop that return *)

Section Returns.

Context {F : Type} `{PyFloat F}.

Lemma returns_mono n n' x1 y1 x2 y2 l r t b :
  (n <= n')%nat -> returns n x1 y1 x2 y2 l r t b ->
  returns n' x1 y1 x2 y2 l r t b.
Proof.
  intros Hle (res & Hres). exists res. intros fuel Hfuel. apply Hres. lia.
Qed.

Lemma returns_settled x1 y1 x2 y2 l r t b :
  (inside x1 y1 l r t b /\ inside x2 y2 l r t b) \/
  same_side x1 y1 x2 y2 l r t b ->
  returns 1 x1 y1 x2 y2 l r t b.
Proof.
  intros [[H1 H2]|Hs].
  - exists (Some (x1, y1, x2, y2)). intros [|fuel] Hfuel; [lia|].
    apply clip_line_accept; assumption.
  - exists None. intros [|fuel] Hfuel; [lia|].
    apply clip_line_reject; assumption.
Qed.

Lemma returns_step_first n x1 y1 x2 y2 l r t b x' y' :
  ~ inside x1 y1 l r t b -> ~ same_side x1 y1 x2 y2 l r t b ->
  clip_endpoint (_endpoint_code x1 y1 l r t b) x1 y1 x2 y2 l r t b
  = Ok (x', y') ->
  returns n x' y' x2 y2 l r t b ->
  returns (S n) x1 y1 x2 y2 l r t b.
Proof.
  intros Hout Hns E (res & Hres). exists res.
  intros [|fuel] Hfuel; [lia|].
  rewrite (clip_line_step_first fuel _ _ _ _ _ _ _ _ _ _ Hout Hns E).
  apply Hres. lia.
Qed.

Lemma returns_step_second n x1 y1 x2 y2 l r t b x' y' :
  inside x1 y1 l r t b -> ~ inside x2 y2 l r t b ->
  clip_endpoint (_endpoint_code x2 y2 l r t b) x2 y2 x1 y1 l r t b
  = Ok (x', y') ->
  returns n x' y' x1 y1 l r t b ->
  returns (S n) x1 y1 x2 y2 l r t b.
Proof.
  intros Hin Hout E (res & Hres). exists res.
  intros [|fuel] Hfuel; [lia|].
  rewrite (clip_line_step_second fuel _ _ _ _ _ _ _ _ _ _ Hin Hout E).
  apply Hres. lia.
Qed.

End Returns.

Lemma fits_swap K x1 y1 x2 y2 l r t b :
  fits K x1 y1 x2 y2 l r t b -> fits K x2 y2 x1 y1 l r t b.
Proof. unfold fits. tauto. Qed.

Lemma fits_inside K x1 y1 x2 y2 l r t b x y :
  fits K x1 y1 x2 y2 l r t b -> inside x y l r t b ->
  fits K x y x2 y2 l r t b.
Proof.
  intros Hf Hin. pose proof (fits_bounds _ _ _ _ _ _ _ _ _ Hf) as Hb.
  unfold fits in *. unfold inside in Hin.
  split; [|tauto]. split; apply Z.abs_le; lia.
Qed.

Section ReturnsBounded.

Context {F : Type} `{PyFloat F}.
Variable B : Z.
Hypothesis Hint : interpolates B.

(** The first endpoint is inside: the second takes at most two passes. *)
Lemma returns_first_inside K x1 y1 x2 y2 l r t b :
  fits K x1 y1 x2 y2 l r t b -> 4 * K <= B ->
  inside x1 y1 l r t b -> returns 3 x1 y1 x2 y2 l r t b.
Proof.
  intros Hf HK Hin.
  pose proof (fits_bounds _ _ _ _ _ _ _ _ _ Hf)
    as ((Hx1 & Hy1) & (Hx2 & Hy2) & _).
  destruct (inside_dec x2 y2 l r t b) as [Hin2|Hout2].
  { apply (returns_mono 1); [lia|]. apply returns_settled. auto. }
  assert (Hns : ~ same_side x2 y2 x1 y1 l r t b)
    by (unfold same_side, inside in *; lia).
  destruct (clip_endpoint_bounded B Hint x2 y2 x1 y1 l r t b Hns)
    as (xa & ya & _ & _ & _ & Ea & _);
    [apply Z.abs_le; lia|apply Z.abs_le; lia|].
  apply (returns_step_second 2 _ _ _ _ _ _ _ _ xa ya Hin Hout2 Ea).
  destruct (inside_dec xa ya l r t b) as [Hina|Houta].
  { apply (returns_mono 1); [lia|]. apply returns_settled. auto. }
  assert (Hnsa : ~ same_side xa ya x1 y1 l r t b)
    by (unfold same_side, inside in *; lia).
  assert (Hdxa : - (3 * K) <= xa <= 3 * K /\ - K <= ya <= K)
    by (apply (clip_endpoint_fits B Hint K x2 y2 x1 y1 l r t b);
        [apply fits_swap, Hf|lia|exact Hns|exact Ea]).
  destruct (clip_endpoint_bounded B Hint xa ya x1 y1 l r t b Hnsa)
    as (xb & yb & _ & _ & _ & Eb & _);
    [apply Z.abs_le; lia|apply Z.abs_le; lia|].
  apply (returns_step_first 1 _ _ _ _ _ _ _ _ xb yb Houta Hnsa Eb).
  apply returns_settled.
  destruct (two_passes_settle_bounded B Hint K x2 y2 x1 y1 l r t b
              xa ya xb yb) as [Hi|Hs];
    [apply fits_swap, Hf|exact HK|exact Hns|exact Ea| |exact Eb|auto|].
  - unfold settled. intros [?|?]; contradiction.
  - exfalso. unfold same_side, inside in *. lia.
Qed.

(** Every run on coordinates within the bound returns within five
    passes: at most two clip each endpoint, and the last one accepts or
    rejects. *)
Lemma returns_five K x1 y1 x2 y2 l r t b :
  fits K x1 y1 x2 y2 l r t b -> 4 * K <= B ->
  returns 5 x1 y1 x2 y2 l r t b.
Proof.
  intros Hf HK.
  pose proof (fits_bounds _ _ _ _ _ _ _ _ _ Hf)
    as ((Hx1 & Hy1) & (Hx2 & Hy2) & _).
  destruct (inside_dec x1 y1 l r t b) as [Hin|Hout].
  { apply (returns_mono 3); [lia|]. apply (returns_first_inside K); auto. }
  assert (Hdec : forall x y, same_side x y x2 y2 l r t b \/
                             ~ same_side x y x2 y2 l r t b)
    by (intros; unfold same_side; lia).
  destruct (Hdec x1 y1) as [Hs|Hns].
  { apply (returns_mono 1); [lia|]. apply returns_settled. auto. }
  destruct (clip_endpoint_bounded B Hint x1 y1 x2 y2 l r t b Hns)
    as (xa & ya & _ & _ & _ & Ea & _);
    [apply Z.abs_le; lia|apply Z.abs_le; lia|].
  apply (returns_step_first 4 _ _ _ _ _ _ _ _ xa ya Hout Hns Ea).
  destruct (inside_dec xa ya l r t b) as [Hina|Houta].
  { apply (returns_mono 3); [lia|].
    apply (returns_first_inside K); [|exact HK|exact Hina].
    apply (fits_inside K x1 y1); assumption. }
  destruct (Hdec xa ya) as [Hsa|Hnsa].
  { apply (returns_mono 1); [lia|]. apply returns_settled. auto. }
  assert (Hdxa : - (3 * K) <= xa <= 3 * K /\ - K <= ya <= K)
    by (apply (clip_endpoint_fits B Hint K x1 y1 x2 y2 l r t b);
        [exact Hf|lia|exact Hns|exact Ea]).
  destruct (clip_endpoint_bounded B Hint xa ya x2 y2 l r t b Hnsa)
    as (xb & yb & _ & _ & _ & Eb & _);
    [apply Z.abs_le; lia|apply Z.abs_le; lia|].
  apply (returns_step_first 3 _ _ _ _ _ _ _ _ xb yb Houta Hnsa Eb).
  destruct (two_passes_settle_bounded B Hint K x1 y1 x2 y2 l r t b
              xa ya xb yb) as [Hi|Hs];
    [exact Hf|exact HK|exact Hns|exact Ea| |exact Eb| |].
  - unfold settled. intros [?|?]; contradiction.
  - apply (returns_first_inside K); [|exact HK|exact Hi].
    apply (fits_inside K x1 y1); assumption.
  - apply (returns_mono 1); [lia|]. apply returns_settled. auto.
Qed.

End ReturnsBounded.

(** ** The clipper in binary64 *)

(** X16. In IEEE double arithmetic, on a segment whose spans [x2 - x1 <> 0]
    and [y2 - y1] are at most [2^40] in magnitude, the slope
    [(y2 - y1) / float(x2 - x1)] is computed without an exception, and a
    clip step interpolates without overshoot: [int(a * m)] is computed and
    lies between 0 and [y2 - y1] when [a] lies between 0 and [x2 - x1], and
    on a segment that is not flat [int(a / m)] is computed and lies between
    0 and [x2 - x1] when [a] lies between 0 and [y2 - y1]. *)
Theorem binary64_no_overshoot (x1 y1 x2 y2 a : Z) :
  x1 <> x2 -> Z.abs (x2 - x1) <= 2 ^ 40 -> Z.abs (y2 - y1) <= 2 ^ 40 ->
  exists m : spec_float,
    slope x1 y1 x2 y2 = Ok m /\
    (between a 0 (x2 - x1) ->
     exists d, int_mul a m = Ok d /\ between d 0 (y2 - y1)) /\
    (y1 <> y2 -> between a 0 (y2 - y1) ->
     exists e, int_div a m = Ok e /\ between e 0 (x2 - x1)).
Proof.
  intros Hne Hbx Hby.
  destruct (binary64_interpolates x1 y1 x2 y2 Hne Hbx Hby)
    as (m & Em & Hm & Hd).
  exists m. split; [exact Em|]. split.
  - intros Ha. destruct (Hm a) as (d & Ed & _ & Hb).
    + unfold between in Ha. lia.
    + exists d. auto.
  - intros Hy Ha. destruct (Hd Hy a) as (e & Ee & _ & Hb).
    + unfold between in Ha. lia.
    + exists e. auto.
Qed.

Lemma binary64_no_overshoot_witness :
  (-3) <> 10 /\ Z.abs (10 - (-3)) <= 2 ^ 40 /\ Z.abs (5 - 0) <= 2 ^ 40 /\
  exists m : spec_float,
    slope (-3) 0 10 5 = Ok m /\
    (between 4 0 (10 - (-3)) ->
     exists d, int_mul 4 m = Ok d /\ between d 0 (5 - 0)).
Proof.
  assert (H1 : (-3) <> 10) by lia.
  assert (H2 : Z.abs (10 - (-3)) <= 2 ^ 40) by (cbn; lia).
  assert (H3 : Z.abs (5 - 0) <= 2 ^ 40) by (cbn; lia).
  split; [exact H1|]. split; [exact H2|]. split; [exact H3|].
  destruct (binary64_no_overshoot (-3) 0 10 5 4 H1 H2 H3) as (m & Em & Hm & _).
  exists m. split; [exact Em|exact Hm].
Defined.

(** X17. In IEEE double arithmetic, on a segment and a box whose
    coordinates are all at most [2^38] in magnitude, the clipping loop
    returns within five passes, a segment or the rejection, and raises no
    exception: at most two passes clip each endpoint. *)
Theorem binary64_clip_line_returns (x1 y1 x2 y2 l r t b : Z) :
  fits (2 ^ 38) x1 y1 x2 y2 l r t b ->
  exists result,
    forall fuel, (5 <= fuel)%nat ->
      _clip_line (F:=spec_float) fuel x1 y1 x2 y2 l r t b = Ok result.
Proof.
  intros Hf.
  apply (returns_five (2 ^ 40) binary64_interpolates (2 ^ 38)); [exact Hf|].
  reflexivity.
Qed.

Lemma binary64_clip_line_returns_witness :
  fits (2 ^ 38) (-300000) 7 250000 (-90001) 0 639 0 479 /\
  exists result,
    forall fuel, (5 <= fuel)%nat ->
      _clip_line (F:=spec_float) fuel (-300000) 7 250000 (-90001) 0 639 0 479
      = Ok result.
Proof.
  assert (Hf : fits (2 ^ 38) (-300000) 7 250000 (-90001) 0 639 0 479)
    by (unfold fits; cbn; lia).
  split; [exact Hf|].
  exact (binary64_clip_line_returns (-300000) 7 250000 (-90001) 0 639 0 479
           Hf).
Defined.

Section CrossingBounded.

Context {F : Type} `{PyFloat F}.
Variable B : Z.
Hypothesis Hint : interpolates B.

(** One pass settles an endpoint that is beyond one boundary only, the
    other endpoint being inside: it lands on that boundary, inside. *)
Lemma single_crossing_bounded x1 y1 x2 y2 l r t b :
  one_boundary (_endpoint_code x1 y1 l r t b) ->
  inside x2 y2 l r t b ->
  Z.abs (x2 - x1) <= B -> Z.abs (y2 - y1) <= B ->
  exists xa ya,
    clip_endpoint (_endpoint_code x1 y1 l r t b) x1 y1 x2 y2 l r t b
    = Ok (xa, ya) /\
    inside xa ya l r t b /\
    on_boundary (_endpoint_code x1 y1 l r t b) xa ya l r t b /\
    between xa x1 x2 /\ between ya y1 y2.
Proof.
  intros Hone Hin Hbx Hby. apply one_boundary_cases in Hone.
  destruct (clip_endpoint_bounded B Hint x1 y1 x2 y2 l r t b)
    as (xa & ya & xh & d & e & E & Hh & Hd & Hv & _ & He);
    [unfold same_side, inside in *; lia|exact Hbx|exact Hby|].
  exists xa, ya. split; [exact E|]. clear E Hbx Hby.
  unfold inside, on_boundary, between in *.
  destruct Hone as [(? & ? & ? & ->) | [(? & ? & ? & ->) |
                   [(? & ? & ? & ->) | (? & ? & ? & ->)]]];
    destruct Hh as [(? & ->) | [(? & ->) | (? & -> & ->)]];
    destruct Hv as [(? & -> & ->) | [(? & -> & ->) | (? & -> & ->)]];
    unfold _LEFT, _RIGHT, _TOP, _BOTTOM; try lia;
    (assert (Hx : l <= x1 <= r) by lia); specialize (He Hx); lia.
Qed.

Lemma clip_line_crossing_bounded fuel x1 y1 x2 y2 l r t b :
  one_boundary (_endpoint_code x1 y1 l r t b) ->
  inside x2 y2 l r t b ->
  Z.abs (x2 - x1) <= B -> Z.abs (y2 - y1) <= B ->
  exists xa ya,
    _clip_line (S (S fuel)) x1 y1 x2 y2 l r t b
    = Ok (Some (xa, ya, x2, y2)) /\
    inside xa ya l r t b /\
    on_boundary (_endpoint_code x1 y1 l r t b) xa ya l r t b /\
    between xa x1 x2 /\ between ya y1 y2.
Proof.
  intros Hone Hin Hbx Hby.
  destruct (single_crossing_bounded x1 y1 x2 y2 l r t b Hone Hin Hbx Hby)
    as (xa & ya & E & Hia & Hon & Hx & Hy).
  exists xa, ya. split; [|auto].
  apply one_boundary_cases in Hone.
  rewrite (clip_line_step_first _ x1 y1 x2 y2 l r t b xa ya);
    [|unfold inside; lia|unfold same_side, inside in *; lia|exact E].
  apply clip_line_accept; assumption.
Qed.

End CrossingBounded.

(** X18. In IEEE double arithmetic, on coordinates of at most [2^38] in
    magnitude, a segment with one endpoint inside the box and the other
    beyond exactly one boundary is clipped in one pass and without an
    exception: the endpoint outside is moved onto that boundary, to a point
    of the box between the two given endpoints, the endpoint inside is
    kept, and the moved endpoint is returned first, so the two are
    exchanged when the first was inside. *)
Theorem binary64_single_crossing (fuel : nat) (x1 y1 x2 y2 l r t b : Z) :
  fits (2 ^ 38) x1 y1 x2 y2 l r t b ->
  let code1 := _endpoint_code x1 y1 l r t b in
  let code2 := _endpoint_code x2 y2 l r t b in
  (one_boundary code1 -> code2 = 0 ->
   exists xa ya,
     _clip_line (F:=spec_float) (S (S fuel)) x1 y1 x2 y2 l r t b
     = Ok (Some (xa, ya, x2, y2)) /\
     inside xa ya l r t b /\ on_boundary code1 xa ya l r t b /\
     between xa x1 x2 /\ between ya y1 y2) /\
  (code1 = 0 -> one_boundary code2 ->
   exists xa ya,
     _clip_line (F:=spec_float) (S (S fuel)) x1 y1 x2 y2 l r t b
     = Ok (Some (xa, ya, x1, y1)) /\
     inside xa ya l r t b /\ on_boundary code2 xa ya l r t b /\
     between xa x2 x1 /\ between ya y2 y1).
Proof.
  intros Hf code1 code2. subst code1 code2.
  pose proof (fits_bounds _ _ _ _ _ _ _ _ _ Hf)
    as ((Hx1 & Hy1) & (Hx2 & Hy2) & _).
  assert (HB : 2 * 2 ^ 38 <= 2 ^ 40) by (cbn; lia).
  split.
  - intros Hone E2. apply Z.eqb_eq, code_zero_inside in E2.
    apply (clip_line_crossing_bounded (2 ^ 40) binary64_interpolates);
      [exact Hone|exact E2|apply Z.abs_le; lia|apply Z.abs_le; lia].
  - intros E1 Hone. apply Z.eqb_eq, code_zero_inside in E1.
    destruct (clip_line_crossing_bounded (2 ^ 40) binary64_interpolates
                fuel x2 y2 x1 y1 l r t b Hone E1)
      as (xa & ya & E & Hrest);
      [apply Z.abs_le; lia|apply Z.abs_le; lia|].
    exists xa, ya. split; [|exact Hrest].
    pose proof (one_boundary_cases _ _ _ _ _ _ Hone) as Hc.
    destruct (single_crossing_bounded (2 ^ 40) binary64_interpolates
                x2 y2 x1 y1 l r t b Hone E1)
      as (xa' & ya' & Ee & Hia & _); [apply Z.abs_le; lia..|].
    rewrite (clip_line_step_second _ x1 y1 x2 y2 l r t b xa' ya');
      [|exact E1|unfold inside; lia|exact Ee].
    rewrite (clip_line_step_first _ x2 y2 x1 y1 l r t b xa' ya') in E;
      [exact E|unfold inside; lia|unfold same_side, inside in *; lia
      |exact Ee].
Qed.

Lemma binary64_single_crossing_witness :
  fits (2 ^ 38) 2 4 (-2) 0 0 10 0 10 /\
  _endpoint_code 2 4 0 10 0 10 = 0 /\
  one_boundary (_endpoint_code (-2) 0 0 10 0 10) /\
  exists xa ya,
    _clip_line (F:=spec_float) 2 2 4 (-2) 0 0 10 0 10
    = Ok (Some (xa, ya, 2, 4)) /\
    inside xa ya 0 10 0 10 /\
    on_boundary (_endpoint_code (-2) 0 0 10 0 10) xa ya 0 10 0 10 /\
    between xa (-2) 2 /\ between ya 0 4.
Proof.
  assert (Hf : fits (2 ^ 38) 2 4 (-2) 0 0 10 0 10)
    by (unfold fits; cbn; lia).
  assert (H1 : _endpoint_code 2 4 0 10 0 10 = 0) by reflexivity.
  assert (H2 : one_boundary (_endpoint_code (-2) 0 0 10 0 10))
    by (left; reflexivity).
  split; [exact Hf|]. split; [exact H1|]. split; [exact H2|].
  exact (proj2 (binary64_single_crossing 0 2 4 (-2) 0 0 10 0 10 Hf) H1 H2).
Defined.

(** ** The clipper as the code runs it *)

(** C3, amended.  In IEEE double arithmetic: a segment with both endpoints
    inside the box is returned unchanged; a segment whose outcodes share a
    bit is rejected; and a segment that spans at most [2^40] along each
    axis, with one endpoint inside and the other beyond exactly one
    boundary, is clipped in one pass and without an exception: the
    endpoint outside is moved onto that boundary, to a point of the box
    between the two given endpoints (both its coordinates may change), the
    endpoint inside is kept, and the moved endpoint is returned first, so
    the two are exchanged when the first was inside. *)
Theorem clip_line_cases (fuel : nat) (x1 y1 x2 y2 l r t b : Z) :
  let code1 := _endpoint_code x1 y1 l r t b in
  let code2 := _endpoint_code x2 y2 l r t b in
  (code1 = 0 -> code2 = 0 ->
   _clip_line (F:=spec_float) (S fuel) x1 y1 x2 y2 l r t b
   = Ok (Some (x1, y1, x2, y2))) /\
  (Z.land code1 code2 <> 0 ->
   _clip_line (F:=spec_float) (S fuel) x1 y1 x2 y2 l r t b = Ok None) /\
  (Z.abs (x2 - x1) <= 2 ^ 40 -> Z.abs (y2 - y1) <= 2 ^ 40 ->
   one_boundary code1 -> code2 = 0 ->
   exists xa ya,
     _clip_line (F:=spec_float) (S (S fuel)) x1 y1 x2 y2 l r t b
     = Ok (Some (xa, ya, x2, y2)) /\
     inside xa ya l r t b /\ on_boundary code1 xa ya l r t b /\
     between xa x1 x2 /\ between ya y1 y2) /\
  (Z.abs (x2 - x1) <= 2 ^ 40 -> Z.abs (y2 - y1) <= 2 ^ 40 ->
   code1 = 0 -> one_boundary code2 ->
   exists xa ya,
     _clip_line (F:=spec_float) (S (S fuel)) x1 y1 x2 y2 l r t b
     = Ok (Some (xa, ya, x1, y1)) /\
     inside xa ya l r t b /\ on_boundary code2 xa ya l r t b /\
     between xa x2 x1 /\ between ya y2 y1).
Proof.
  intros code1 code2. subst code1 code2. split; [|split; [|split]].
  - intros E1 E2. apply clip_line_accept; apply code_zero_inside;
      apply Z.eqb_eq; assumption.
  - intros Hs. apply clip_line_reject. apply codes_share_same_side.
    apply negb_true_iff, Z.eqb_neq. exact Hs.
  - intros Hbx Hby Hone E2. apply Z.eqb_eq, code_zero_inside in E2.
    apply (clip_line_crossing_bounded (2 ^ 40) binary64_interpolates);
      assumption.
  - intros Hbx Hby E1 Hone. apply Z.eqb_eq, code_zero_inside in E1.
    assert (Hbx' : Z.abs (x1 - x2) <= 2 ^ 40) by lia.
    assert (Hby' : Z.abs (y1 - y2) <= 2 ^ 40) by lia.
    destruct (clip_line_crossing_bounded (2 ^ 40) binary64_interpolates
                fuel x2 y2 x1 y1 l r t b Hone E1 Hbx' Hby')
      as (xa & ya & E & Hrest).
    exists xa, ya. split; [|exact Hrest].
    pose proof (one_boundary_cases _ _ _ _ _ _ Hone) as Hc.
    destruct (single_crossing_bounded (2 ^ 40) binary64_interpolates
                x2 y2 x1 y1 l r t b Hone E1 Hbx' Hby')
      as (xa' & ya' & Ee & Hia & _).
    rewrite (clip_line_step_second _ x1 y1 x2 y2 l r t b xa' ya');
      [|exact E1|unfold inside; lia|exact Ee].
    rewrite (clip_line_step_first _ x2 y2 x1 y1 l r t b xa' ya') in E;
      [exact E|unfold inside; lia|unfold same_side, inside in *; lia
      |exact Ee].
Qed.

Lemma clip_line_cases_witness :
  Z.abs (9 - 15) <= 2 ^ 40 /\ Z.abs (3 - 7) <= 2 ^ 40 /\
  one_boundary (_endpoint_code 15 7 0 10 0 10) /\
  _endpoint_code 9 3 0 10 0 10 = 0 /\
  exists xa ya,
    _clip_line (F:=spec_float) 2 15 7 9 3 0 10 0 10
    = Ok (Some (xa, ya, 9, 3)) /\
    inside xa ya 0 10 0 10 /\
    on_boundary (_endpoint_code 15 7 0 10 0 10) xa ya 0 10 0 10 /\
    between xa 15 9 /\ between ya 7 3.
Proof.
  assert (Hx : Z.abs (9 - 15) <= 2 ^ 40) by (cbn; lia).
  assert (Hy : Z.abs (3 - 7) <= 2 ^ 40) by (cbn; lia).
  assert (H1 : one_boundary (_endpoint_code 15 7 0 10 0 10))
    by (right; left; reflexivity).
  assert (H2 : _endpoint_code 9 3 0 10 0 10 = 0) by reflexivity.
  split; [exact Hx|]. split; [exact Hy|]. split; [exact H1|].
  split; [exact H2|].
  exact (proj1 (proj2 (proj2 (clip_line_cases 0 15 7 9 3 0 10 0 10)))
           Hx Hy H1 H2).
Defined.

(** On a longer segment rounding can carry the moved endpoint past the
    kept one: here it lands at [2^53 + 4], beyond [2^53 + 3]. *)
Lemma clip_line_long_segment :
  _clip_line (F:=spec_float) 2 (-1) 0 0 (2 ^ 53 + 3) 0 10 0 (2 ^ 53 + 10)
  = Ok (Some (0, 2 ^ 53 + 4, 0, 2 ^ 53 + 3)).
Proof. vm_compute. reflexivity. Qed.


(** Beyond that range five passes are not always enough: this segment
    takes six. *)
Lemma clip_line_six_passes :
  _clip_line (F:=spec_float) 5
    (-8) 0 (2 ^ 60 - 8) (- 2 ^ 60 - 2) 0 5 (8 - 2 ^ 60) (-1)
  = OutOfFuel /\
  _clip_line (F:=spec_float) 6
    (-8) 0 (2 ^ 60 - 8) (- 2 ^ 60 - 2) 0 5 (8 - 2 ^ 60) (-1)
  = Ok (Some (3, -1, 0, -8)).
Proof. split; vm_compute; reflexivity. Qed.



(** ** Lines that return *)

Lemma set_pixel_in_range i color s :
  0 <= i < Z.of_nat (length (pixels s)) ->
  set_pixel i color s
  = (set_pixels s (<[Z.to_nat i := color]> (pixels s)), Ok tt).
Proof.
  intros Hi. unfold set_pixel, buffer_index.
  destruct (Z.ltb_spec i 0); [lia|].
  destruct (Z.leb_spec 0 i); [|lia].
  destruct (Z.ltb_spec i (Z.of_nat (length (pixels s)))); [|lia].
  reflexivity.
Qed.

(** Stores within the buffer all succeed, and leave its length. *)
Lemma store_all_in_range indices color s :
  Forall (fun i => 0 <= i < Z.of_nat (length (pixels s))) indices ->
  exists px,
    length px = length (pixels s) /\
    store_all indices color s = (set_pixels s px, Ok tt).
Proof.
  revert s. induction indices as [|i indices IH]; intros s Hr.
  - exists (pixels s). split; [reflexivity|].
    cbn. rewrite set_pixels_same. reflexivity.
  - apply Forall_cons in Hr. destruct Hr as [Hi Hr].
    cbn [store_all]. rewrite bind_run, set_pixel_in_range by exact Hi.
    destruct (IH (set_pixels s (<[Z.to_nat i := color]> (pixels s))))
      as (px & Hlen & E).
    { cbn [pixels set_pixels]. rewrite length_insert. exact Hr. }
    exists px. cbn [pixels set_pixels] in Hlen.
    rewrite length_insert in Hlen. split; [exact Hlen|].
    rewrite E. reflexivity.
Qed.

Lemma drawable_set_pixels s px :
  drawable s -> length px = length (pixels s) -> drawable (set_pixels s px).
Proof.
  unfold drawable, wf_surface, pitch_px. cbn. intros Hd ->. exact Hd.
Qed.

(** The clip box of a drawable surface of at most [2^37] pixels a side
    lies within [2^38] of the origin. *)
Lemma drawable_fits s x1 y1 x2 y2 :
  drawable s -> surf_w s <= 2 ^ 37 -> surf_h s <= 2 ^ 37 ->
  Z.abs x1 <= 2 ^ 38 -> Z.abs y1 <= 2 ^ 38 ->
  Z.abs x2 <= 2 ^ 38 -> Z.abs y2 <= 2 ^ 38 ->
  fits (2 ^ 38) x1 y1 x2 y2
    (rect_x (clip_rect s)) (rect_x (clip_rect s) + rect_w (clip_rect s) - 1)
    (rect_y (clip_rect s)) (rect_y (clip_rect s) + rect_h (clip_rect s) - 1).
Proof.
  intros ((Hp & Hx & Hy & Hw & Hh) & Hrw & Hrh & _) Hsw Hsh H1 H2 H3 H4.
  assert (H38 : 2 ^ 38 = 2 * 2 ^ 37) by reflexivity.
  unfold fits. repeat split; try assumption; apply Z.abs_le; lia.
Qed.

(** The thin line on a drawable surface: every store succeeds. *)
Lemma thin_line_returns color start_pos end_pos s :
  drawable s -> surf_w s <= 2 ^ 37 -> surf_h s <= 2 ^ 37 ->
  Z.abs start_pos.1 <= 2 ^ 38 -> Z.abs start_pos.2 <= 2 ^ 38 ->
  Z.abs end_pos.1 <= 2 ^ 38 -> Z.abs end_pos.2 <= 2 ^ 38 ->
  exists px,
    length px = length (pixels s) /\
    forall fuel, (5 <= fuel)%nat ->
      thin_line (F:=spec_float) fuel color start_pos end_pos s
      = (set_pixels s px, Ok tt).
Proof.
  intros Hd Hsw Hsh H1 H2 H3 H4.
  pose proof (drawable_fits s _ _ _ _ Hd Hsw Hsh H1 H2 H3 H4) as Hf.
  destruct (returns_five (2 ^ 40) binary64_interpolates (2 ^ 38) _ _ _ _
              _ _ _ _ Hf (Z.le_refl (2 ^ 40))) as (result & Hres).
  destruct Hd as (Hwf & Hrw & Hrh & Hlen & Hb3 & Hb0).
  assert (Hidx : forall i, i ∈ thin_line_indices (F:=spec_float) 5 s
                                 start_pos end_pos ->
                  0 <= i < Z.of_nat (length (pixels s))).
  { intros i Hi. apply thin_line_indices_in_clip in Hi.
    destruct Hi as (x & y & Hin & ->).
    destruct Hwf as (Hp & Hx & Hy & Hw & Hh).
    unfold in_rect in Hin.
    rewrite !andb_true_iff, !Z.leb_le, !Z.ltb_lt in Hin.
    assert (0 <= x < pitch_px s) by lia.
    assert (0 <= y < surf_h s) by lia.
    assert (y * pitch_px s + x < pitch_px s * surf_h s) by nia.
    nia. }
  apply Forall_forall in Hidx.
  destruct (store_all_in_range _ color s Hidx) as (px & Hpx & E).
  exists px. split; [exact Hpx|]. intros fuel Hfuel.
  unfold thin_line. rewrite bind_get_surface.
  destruct (Z.eqb_spec (BytesPerPixel (format s)) 3); [contradiction|].
  rewrite bind_lift, (Hres fuel Hfuel).
  unfold thin_line_indices in E.
  destruct (Z.eqb_spec (BytesPerPixel (format s)) 3); [contradiction|].
  rewrite (Hres 5%nat (le_n 5)) in E.
  destruct result as [[[[x1 y1] x2] y2]|]; [|exact E].
  destruct (Z.eqb_spec (BytesPerPixel (format s)) 0); [contradiction|].
  destruct (walk_setup _ x1 y1 x2 y2) as [[[[dx dy] incx] incy] pixel].
  rewrite bresenham_stores. exact E.
Qed.

(** A slanted line of width 1 on a drawable surface. *)
Lemma line_thin_returns depth color x1 y1 x2 y2 s :
  drawable s -> surf_w s <= 2 ^ 37 -> surf_h s <= 2 ^ 37 ->
  x1 <> x2 -> y1 <> y2 ->
  Z.abs x1 <= 2 ^ 38 -> Z.abs y1 <= 2 ^ 38 ->
  Z.abs x2 <= 2 ^ 38 -> Z.abs y2 <= 2 ^ 38 ->
  exists px,
    length px = length (pixels s) /\
    forall fuel, (5 <= fuel)%nat ->
      line_rec (F:=spec_float) (S depth) fuel (ColorInt color)
        (x1, y1) (x2, y2) 1 s
      = (set_pixels s px, Ok None).
Proof.
  intros Hd Hsw Hsh Hx Hy H1 H2 H3 H4.
  destruct (thin_line_returns color (x1, y1) (x2, y2) s Hd Hsw Hsh)
    as (px & Hpx & E); try assumption.
  exists px. split; [exact Hpx|]. intros fuel Hfuel.
  rewrite line_thin by assumption. rewrite bind_run, (E fuel Hfuel).
  reflexivity.
Qed.

(** The lines of width 1 a thick line is made of. *)
Lemma thick_loop_returns color xinc yinc n : forall x1 y1 x2 y2 s,
  drawable s -> surf_w s <= 2 ^ 37 -> surf_h s <= 2 ^ 37 ->
  0 <= xinc <= 1 -> 0 <= yinc <= 1 ->
  x1 <> x2 -> y1 <> y2 ->
  - 2 ^ 38 <= x1 -> x1 + Z.of_nat n <= 2 ^ 38 ->
  - 2 ^ 38 <= y1 -> y1 + Z.of_nat n <= 2 ^ 38 ->
  - 2 ^ 38 <= x2 -> x2 + Z.of_nat n <= 2 ^ 38 ->
  - 2 ^ 38 <= y2 -> y2 + Z.of_nat n <= 2 ^ 38 ->
  exists px,
    length px = length (pixels s) /\
    forall fuel, (5 <= fuel)%nat ->
      thick_loop n
        (fun p q => line_rec (F:=spec_float) 1 fuel (ColorInt color) p q 1)
        xinc yinc x1 y1 x2 y2 s
      = (set_pixels s px, Ok tt).
Proof.
  induction n as [|n IH];
    intros x1 y1 x2 y2 s Hd Hsw Hsh Hxi Hyi Hx Hy Hx1 Hx1' Hy1 Hy1'
      Hx2 Hx2' Hy2 Hy2'.
  - exists (pixels s). split; [reflexivity|]. intros fuel _.
    cbn. rewrite set_pixels_same. reflexivity.
  - destruct (line_thin_returns 0 color x1 y1 x2 y2 s Hd Hsw Hsh Hx Hy)
      as (px1 & Hpx1 & E1); try (apply Z.abs_le; lia).
    destruct (IH (x1 + xinc) (y1 + yinc) (x2 + xinc) (y2 + yinc)
                (set_pixels s px1)) as (px & Hpx & E); try lia;
      try assumption.
    { apply drawable_set_pixels; assumption. }
    exists px. cbn [pixels set_pixels] in Hpx.
    split; [congruence|]. intros fuel Hfuel.
    cbn [thick_loop]. rewrite bind_run, (E1 fuel Hfuel), (E fuel Hfuel).
    reflexivity.
Qed.

(** [line] on a drawable surface. *)
Lemma line_returns (color : color_arg) (start_pos end_pos : Z * Z)
    (width : Z) (s : Surface) :
  drawable s -> surf_w s <= 2 ^ 37 -> surf_h s <= 2 ^ 37 ->
  valid_color color -> width <= 2 ^ 37 ->
  Z.abs start_pos.1 <= 2 ^ 37 -> Z.abs start_pos.2 <= 2 ^ 37 ->
  Z.abs end_pos.1 <= 2 ^ 37 -> Z.abs end_pos.2 <= 2 ^ 37 ->
  exists px,
    length px = length (pixels s) /\
    forall fuel, (5 <= fuel)%nat ->
      line (F:=spec_float) fuel color start_pos end_pos width s
      = (set_pixels s px, Ok None).
Proof.
  intros Hd Hsw Hsh Hc Hw H1 H2 H3 H4.
  destruct start_pos as [x1 y1], end_pos as [x2 y2]. cbn [fst snd] in *.
  apply Z.abs_le in H1, H2, H3, H4.
  assert (H38 : 2 ^ 38 = 2 * 2 ^ 37) by reflexivity.
  assert (H37 : 0 < 2 ^ 37) by reflexivity.
  destruct (Z_lt_ge_dec width 1) as [Hw1|Hw1].
  { exists (pixels s). split; [reflexivity|]. intros fuel _.
    rewrite set_pixels_same. unfold line. cbn [line_rec].
    destruct (Z.ltb_spec width 1); [reflexivity|lia]. }
  destruct (get_color_valid color s Hc) as (c & Ec).
  destruct (Z.eq_dec x1 x2) as [<-|Hx].
  { eexists. split; [|intros fuel _; apply (line_vertical fuel color c)];
      [apply length_paint|lia|exact Ec]. }
  destruct (Z.eq_dec y1 y2) as [<-|Hy].
  { eexists. split; [|intros fuel _; apply (line_horizontal fuel color c)];
      [apply length_paint|lia|exact Ec|exact Hx]. }
  destruct (Z.eq_dec width 1) as [->|Hwn].
  { destruct (line_thin_returns 1 c x1 y1 x2 y2 s Hd Hsw Hsh Hx Hy)
      as (px & Hpx & E); try (apply Z.abs_le; lia).
    exists px. split; [exact Hpx|]. intros fuel Hfuel.
    rewrite (line_resolved fuel color c) by exact Ec. apply E, Hfuel. }
  assert (Hhalf : 0 <= width / 2 <= width)
    by (split; [apply Z.div_pos; lia|apply Z.div_le_upper_bound; lia]).
  assert (Hthick : forall xinc yinc,
            (xinc = 0 /\ yinc = 1) \/ (xinc = 1 /\ yinc = 0) ->
            exists px,
              length px = length (pixels s) /\
              forall fuel, (5 <= fuel)%nat ->
                thick_loop (Z.to_nat width)
                  (fun p q =>
                     line_rec (F:=spec_float) 1 fuel (ColorInt c) p q 1)
                  xinc yinc
                  (x1 - width * xinc / 2) (y1 - width * yinc / 2)
                  (x2 - width * xinc / 2) (y2 - width * yinc / 2) s
                = (set_pixels s px, Ok tt)).
  { intros xinc yinc Hinc.
    assert (Hsh' : forall k, k = 0 \/ k = 1 -> 0 <= width * k / 2 <= width).
    { intros k [->| ->]; [rewrite Z.mul_0_r; change (0 / 2) with 0; lia|].
      rewrite Z.mul_1_r. exact Hhalf. }
    pose proof (Hsh' xinc ltac:(lia)) as Hsx.
    pose proof (Hsh' yinc ltac:(lia)) as Hsy.
    apply thick_loop_returns; try assumption; try lia;
      rewrite Z2Nat.id by lia; lia. }
  set (shallow := Z.abs (x2 - x1) >? Z.abs (y2 - y1)).
  destruct (Hthick (if shallow then 0 else 1) (if shallow then 1 else 0))
    as (px & Hpx & E); [destruct shallow; lia|].
  exists px. split; [exact Hpx|]. intros fuel Hfuel.
  rewrite (line_thick fuel color c (x1, y1) (x2, y2) width s)
    by (assumption || lia).
  cbn [fst snd]. fold shallow. rewrite bind_run, (E fuel Hfuel). reflexivity.
Qed.

Lemma last_elem_of {A} (l : list A) (d : A) : List.last l d ∈ d :: l.
Proof.
  revert d. induction l as [|a l IH]; intros d.
  - cbn. apply elem_of_cons. left. reflexivity.
  - rewrite last_cons_default. apply elem_of_cons. right. apply IH.
Qed.

(** The segments of a polyline on a drawable surface. *)
Lemma segments_returns color width points : forall last s,
  drawable s -> surf_w s <= 2 ^ 37 -> surf_h s <= 2 ^ 37 ->
  width <= 2 ^ 37 ->
  Forall (fun p : Z * Z => Z.abs p.1 <= 2 ^ 37 /\ Z.abs p.2 <= 2 ^ 37)
    (last :: points) ->
  exists px,
    length px = length (pixels s) /\
    forall fuel, (5 <= fuel)%nat ->
      segments (F:=spec_float) fuel color width last points s
      = (set_pixels s px, Ok (List.last points last)).
Proof.
  induction points as [|p points IH]; intros last s Hd Hsw Hsh Hw Hp.
  - exists (pixels s). split; [reflexivity|]. intros fuel _.
    cbn. rewrite set_pixels_same. reflexivity.
  - apply Forall_cons in Hp. destruct Hp as [[Hl1 Hl2] Hp].
    pose proof Hp as Hp'. apply Forall_cons in Hp'.
    destruct Hp' as [[Hp1 Hp2] _].
    destruct (line_returns (ColorInt color) last p width s)
      as (px1 & Hpx1 & E1); try assumption; [discriminate|].
    destruct (IH p (set_pixels s px1)) as (px & Hpx & E); try assumption.
    { apply drawable_set_pixels; assumption. }
    exists px. cbn [pixels set_pixels] in Hpx. split; [congruence|].
    intros fuel Hfuel. cbn [segments].
    rewrite bind_run, (E1 fuel Hfuel), (E fuel Hfuel).
    rewrite last_cons_default. reflexivity.
Qed.

(** X19. In IEEE double arithmetic, on a surface whose pixels are not 3
    bytes wide, of at most [2^37] pixels a side, whose clip rectangle lies
    within its bounds and whose buffer holds every row, [line] with a valid
    colour, a width of at most [2^37] and endpoints within [2^37] of the
    origin returns [None] and raises nothing: the clipping loop returns,
    every store falls within the buffer, and only the pixels change. *)
Theorem binary64_line_returns (color : color_arg) (start_pos end_pos : Z * Z)
    (width : Z) (s : Surface) :
  drawable s -> surf_w s <= 2 ^ 37 -> surf_h s <= 2 ^ 37 ->
  valid_color color -> width <= 2 ^ 37 ->
  Z.abs start_pos.1 <= 2 ^ 37 -> Z.abs start_pos.2 <= 2 ^ 37 ->
  Z.abs end_pos.1 <= 2 ^ 37 -> Z.abs end_pos.2 <= 2 ^ 37 ->
  exists px,
    length px = length (pixels s) /\
    forall fuel, (5 <= fuel)%nat ->
      line (F:=spec_float) fuel color start_pos end_pos width s
      = (set_pixels s px, Ok None).
Proof. apply line_returns. Qed.

Lemma binary64_line_returns_witness :
  drawable surface_8x6 /\ valid_color (ColorInt 7) /\
  exists px,
    length px = length (pixels surface_8x6) /\
    forall fuel, (5 <= fuel)%nat ->
      line (F:=spec_float) fuel (ColorInt 7) (-3, 0) (10, 5) 3 surface_8x6
      = (set_pixels surface_8x6 px, Ok None).
Proof.
  assert (Hd : drawable surface_8x6).
  { unfold drawable, wf_surface. vm_compute. intuition discriminate. }
  assert (Hc : valid_color (ColorInt 7)) by discriminate.
  split; [exact Hd|]. split; [exact Hc|].
  apply (binary64_line_returns (ColorInt 7) (-3, 0) (10, 5) 3 surface_8x6 Hd);
    try exact Hc; cbn; lia.
Defined.

(** X20. In IEEE double arithmetic, on a surface whose pixels are not 3
    bytes wide, of at most [2^37] pixels a side, whose clip rectangle lies
    within its bounds and whose buffer holds every row, [lines] with a
    valid colour, a width of at most [2^37] and at least two points, each
    within [2^37] of the origin, returns [None] and raises nothing, closed
    or not: every segment is drawn, and only the pixels change. *)
Theorem binary64_lines_returns (color : color_arg) (closed : bool)
    (pointlist : list (Z * Z)) (width : Z) (s : Surface) :
  drawable s -> surf_w s <= 2 ^ 37 -> surf_h s <= 2 ^ 37 ->
  valid_color color -> width <= 2 ^ 37 ->
  Forall (fun p : Z * Z => Z.abs p.1 <= 2 ^ 37 /\ Z.abs p.2 <= 2 ^ 37)
    pointlist ->
  (2 <= length pointlist)%nat ->
  exists px,
    length px = length (pixels s) /\
    forall fuel, (5 <= fuel)%nat ->
      lines (F:=spec_float) fuel color closed pointlist width s
      = (set_pixels s px, Ok None).
Proof.
  intros Hd Hsw Hsh Hc Hw Hp Hn.
  destruct (Z_lt_ge_dec width 1) as [Hw1|Hw1].
  { exists (pixels s). split; [reflexivity|]. intros fuel _.
    rewrite set_pixels_same. unfold lines.
    destruct (Z.ltb_spec width 1); [reflexivity|lia]. }
  destruct (get_color_valid color s Hc) as (c & Ec).
  destruct pointlist as [|first rest]; [cbn in Hn; lia|].
  destruct (segments_returns c width rest first s Hd Hsw Hsh Hw Hp)
    as (px1 & Hpx1 & E1).
  assert (Hlast : Z.abs (List.last rest first).1 <= 2 ^ 37 /\
                  Z.abs (List.last rest first).2 <= 2 ^ 37).
  { rewrite Forall_forall in Hp. apply Hp, last_elem_of. }
  pose proof Hp as Hp'. apply Forall_cons in Hp'. destruct Hp' as [Hf _].
  destruct (line_returns (ColorInt c) (List.last rest first) first width
              (set_pixels s px1)) as (px2 & Hpx2 & E2);
    try tauto; try assumption; [apply drawable_set_pixels; assumption
                               |discriminate|].
  cbn [pixels set_pixels] in Hpx2.
  exists (if closed then px2 else px1).
  split; [destruct closed; congruence|]. intros fuel Hfuel.
  unfold lines. destruct (Z.ltb_spec width 1); [lia|].
  rewrite bind_get_surface, bind_lift, Ec.
  destruct (Nat.ltb_spec (length (first :: rest)) 2); [lia|].
  rewrite bind_run, (E1 fuel Hfuel). destruct closed.
  - rewrite bind_run, (E2 fuel Hfuel). reflexivity.
  - reflexivity.
Qed.

Lemma binary64_lines_returns_witness :
  let pointlist : list (Z * Z) := [(-3, 0); (10, 5); (2, 9)] in
  drawable surface_8x6 /\ valid_color (ColorInt 7) /\
  (2 <= length pointlist)%nat /\
  exists px,
    length px = length (pixels surface_8x6) /\
    forall fuel, (5 <= fuel)%nat ->
      lines (F:=spec_float) fuel (ColorInt 7) true pointlist 2 surface_8x6
      = (set_pixels surface_8x6 px, Ok None).
Proof.
  intros pointlist.
  assert (Hd : drawable surface_8x6).
  { unfold drawable, wf_surface. vm_compute. intuition discriminate. }
  assert (Hc : valid_color (ColorInt 7)) by discriminate.
  assert (Hn : (2 <= length pointlist)%nat) by (cbn; lia).
  split; [exact Hd|]. split; [exact Hc|]. split; [exact Hn|].
  destruct (binary64_lines_returns (ColorInt 7) true pointlist 2 surface_8x6
              Hd)
    as (px & Hpx & E); try exact Hc; try exact Hn;
    try (cbn; lia); [repeat constructor; cbn; lia|].
  exists px. split; [exact Hpx|exact E].
Defined.

(** ** The pixels of the thin line *)

(** Stores within the buffer paint the elements they name. *)
Lemma store_all_paint indices color : forall s,
  Forall (fun i => 0 <= i < Z.of_nat (length (pixels s))) indices ->
  store_all indices color s
  = (set_pixels s (paint (stored indices) color (pixels s)), Ok tt).
Proof.
  induction indices as [|i indices IH]; intros s Hr.
  - cbn [store_all]. rewrite paint_nothing, set_pixels_same; [reflexivity|].
    intros j. unfold stored. apply bool_decide_eq_false. apply not_elem_of_nil.
  - apply Forall_cons in Hr. destruct Hr as [Hi Hr].
    cbn [store_all]. rewrite bind_run, set_pixel_in_range by exact Hi.
    rewrite IH by (cbn [pixels set_pixels]; rewrite length_insert; exact Hr).
    rewrite set_pixels_twice. cbn [pixels set_pixels]. do 2 f_equal.
    apply list_eq. intros j. unfold paint. rewrite !list_lookup_imap.
    destruct (Nat.eq_dec j (Z.to_nat i)) as [->|Hj].
    + rewrite list_lookup_insert_eq by lia.
      destruct (lookup_lt_is_Some_2 (pixels s) (Z.to_nat i)) as [v ->]; [lia|].
      cbn. assert (E : stored (i :: indices) (Z.to_nat i) = true).
      { unfold stored. apply bool_decide_eq_true. rewrite Z2Nat.id by lia.
        apply elem_of_cons. left. reflexivity. }
      rewrite E. destruct (stored indices (Z.to_nat i)); reflexivity.
    + rewrite list_lookup_insert_ne by lia.
      assert (E : stored (i :: indices) j = stored indices j).
      { unfold stored. apply bool_decide_ext. rewrite elem_of_cons.
        split; [intros [E|E]; [lia|exact E]|auto]. }
      rewrite E. reflexivity.
Qed.

(** X12. On a drawable surface, a slanted line of width 1 whose clipped
    endpoints are [(x1, y1)] and [(x2, y2)] raises nothing and paints
    exactly the pixels its walk stores to: one store for each step along
    the longer axis, [max(|x2 - x1|, |y2 - y1|) + 1] in all, each within
    the buffer, the first at [(x1, y1)], and each one after the first next
    to the one before it, along a row, a column or a diagonal. *)
Theorem thin_line_walk {F : Type} `{PyFloat F} (fuel : nat) (s : Surface)
    (color : color_arg) (c : Z) (start_pos end_pos : Z * Z)
    (x1 y1 x2 y2 : Z) :
  drawable s ->
  _get_color color s = Ok c ->
  start_pos.1 <> end_pos.1 -> start_pos.2 <> end_pos.2 ->
  _clip_line fuel start_pos.1 start_pos.2 end_pos.1 end_pos.2
    (rect_x (clip_rect s)) (rect_x (clip_rect s) + rect_w (clip_rect s) - 1)
    (rect_y (clip_rect s)) (rect_y (clip_rect s) + rect_h (clip_rect s) - 1)
  = Ok (Some (x1, y1, x2, y2)) ->
  exists stores : list Z,
    line fuel color start_pos end_pos 1 s
    = (set_pixels s (paint (stored stores) c (pixels s)), Ok None) /\
    Forall (fun i => 0 <= i < Z.of_nat (length (pixels s))) stores /\
    Z.of_nat (length stores)
    = Z.max (Z.abs (x2 - x1)) (Z.abs (y2 - y1)) + 1 /\
    stores !! 0%nat = Some (y1 * pitch_px s + x1) /\
    forall (k : nat) i j,
      stores !! k = Some i -> stores !! S k = Some j ->
      exists u v, -1 <= u <= 1 /\ -1 <= v <= 1 /\ (u <> 0 \/ v <> 0) /\
                  j - i = v * pitch_px s + u.
Proof.
  intros Hd Ecol Hx Hy Ec.
  destruct Hd as (Hwf & Hrw & Hrh & Hlen & Hb3 & Hb0).
  set (stores := thin_line_indices fuel s start_pos end_pos).
  assert (Hidx : Forall (fun i => 0 <= i < Z.of_nat (length (pixels s)))
                   stores).
  { apply Forall_forall. intros i Hi.
    apply thin_line_indices_in_clip in Hi.
    destruct Hi as (x & y & Hin & ->).
    destruct Hwf as (Hp & Hx' & Hy' & Hw & Hh).
    unfold in_rect in Hin.
    rewrite !andb_true_iff, !Z.leb_le, !Z.ltb_lt in Hin.
    assert (0 <= x < pitch_px s) by lia.
    assert (0 <= y < surf_h s) by lia.
    assert (y * pitch_px s + x < pitch_px s * surf_h s) by nia.
    nia. }
  exists stores. split; [|split; [exact Hidx|]].
  - rewrite (line_resolved fuel color c) by exact Ecol.
    unfold line. rewrite line_thin by assumption.
    rewrite bind_run.
    assert (E : thin_line fuel c start_pos end_pos s
                = store_all stores c s).
    { unfold stores, thin_line, thin_line_indices.
      rewrite bind_get_surface.
      destruct (Z.eqb_spec (BytesPerPixel (format s)) 3); [contradiction|].
      rewrite bind_lift, Ec.
      destruct (Z.eqb_spec (BytesPerPixel (format s)) 0); [contradiction|].
      destruct (walk_setup _ x1 y1 x2 y2) as [[[[dx dy] incx] incy] pixel].
      apply bresenham_stores. }
    rewrite E, store_all_paint by exact Hidx. reflexivity.
  - clear Hidx. subst stores. unfold thin_line_indices.
    destruct (Z.eqb_spec (BytesPerPixel (format s)) 3); [contradiction|].
    rewrite Ec.
    destruct (Z.eqb_spec (BytesPerPixel (format s)) 0); [contradiction|].
    fold (pitch_px s).
    pose proof (walk_setup_steps (pitch_px s) x1 y1 x2 y2) as Hw.
    destruct (walk_setup (pitch_px s) x1 y1 x2 y2)
      as [[[[dx dy] incx] incy] pixel].
    destruct Hw as (Hdx & Hp & u & v & Hu & Hv & Hinc).
    rewrite length_bresenham_indices. split; [lia|]. split.
    + rewrite bresenham_indices_head by lia. congruence.
    + intros k i j Hi Hj.
      destruct (bresenham_indices_adjacent _ _ _ _ _ _ _ _ _ _ Hi Hj)
        as [E|E]; rewrite E; destruct Hinc as [[-> ->]|[-> ->]].
      * exists u, 0. lia.
      * exists 0, v. lia.
      * exists u, v. lia.
      * exists u, v. lia.
Qed.

Lemma thin_line_walk_witness :
  drawable surface_8x6 /\
  _clip_line (F:=spec_float) 5 (-3) 0 10 5 1 6 1 4 = Ok (Some (6, 4, 1, 1)) /\
  exists stores : list Z,
    line (F:=spec_float) 5 (ColorInt 7) (-3, 0) (10, 5) 1 surface_8x6
    = (set_pixels surface_8x6
         (paint (stored stores) 7 (pixels surface_8x6)), Ok None) /\
    Forall (fun i => 0 <= i < Z.of_nat (length (pixels surface_8x6)))
      stores /\
    Z.of_nat (length stores) = Z.max (Z.abs (1 - 6)) (Z.abs (1 - 4)) + 1 /\
    stores !! 0%nat = Some (4 * pitch_px surface_8x6 + 6).
Proof.
  assert (Hd : drawable surface_8x6).
  { unfold drawable, wf_surface. vm_compute. intuition discriminate. }
  assert (Ec : _clip_line (F:=spec_float) 5 (-3) 0 10 5 1 6 1 4
               = Ok (Some (6, 4, 1, 1))) by (vm_compute; reflexivity).
  split; [exact Hd|]. split; [exact Ec|].
  destruct (thin_line_walk (F:=spec_float) 5 surface_8x6 (ColorInt 7) 7
              (-3, 0) (10, 5) 6 4 1 1 Hd eq_refl)
    as (stores & E & Hr & Hl & H0 & _);
    [cbn; lia|cbn; lia|exact Ec|].
  exists stores. auto.
Defined.

(** ** pygame.image: the rows of a string *)

Lemma image_bind_returned {A B} (k : A -> image_res B) (m : image_res A) b :
  m ≫= k = Returned b -> exists a, m = Returned a /\ k a = Returned b.
Proof. destruct m as [a|e]; cbn; [eauto|discriminate]. Qed.

Lemma mapM_image_cons {A B} (f : A -> image_res B) x l :
  mapM f (x :: l) = y ← f x; k ← mapM f l; mret (y :: k).
Proof. reflexivity. Qed.

Lemma mapM_image_app {A B} (f : A -> image_res B) l1 l2 r1 r2 :
  mapM f l1 = Returned r1 -> mapM f l2 = Returned r2 ->
  mapM f (l1 ++ l2) = Returned (r1 ++ r2).
Proof.
  revert r1. induction l1 as [|x l1 IH]; intros r1 H1 H2.
  - cbn in H1. injection H1 as <-. exact H2.
  - rewrite <- app_comm_cons, mapM_image_cons. rewrite mapM_image_cons in H1.
    apply image_bind_returned in H1 as (y & -> & H1).
    apply image_bind_returned in H1 as (k & Hk & H1).
    cbn in H1. injection H1 as <-. cbn. rewrite (IH k Hk H2). reflexivity.
Qed.

Lemma mapM_image_app_inv {A B} (f : A -> image_res B) l1 l2 r :
  mapM f (l1 ++ l2) = Returned r ->
  exists r1 r2, r = r1 ++ r2 /\
    mapM f l1 = Returned r1 /\ mapM f l2 = Returned r2.
Proof.
  revert r. induction l1 as [|x l1 IH]; intros r Hr.
  - exists [], r. auto.
  - rewrite <- app_comm_cons, mapM_image_cons in Hr.
    apply image_bind_returned in Hr as (y & Hy & Hr).
    apply image_bind_returned in Hr as (k & Hk & Hr).
    cbn in Hr. injection Hr as <-.
    destruct (IH k Hk) as (r1 & r2 & -> & H1 & H2).
    exists (y :: r1), r2. rewrite mapM_image_cons, Hy, H1. auto.
Qed.

Lemma mapM_image_reverse {A B} (f : A -> image_res B) l r :
  mapM f l = Returned r -> mapM f (reverse l) = Returned (reverse r).
Proof.
  revert r. induction l as [|x l IH]; intros r Hr.
  - cbn in Hr. injection Hr as <-. reflexivity.
  - rewrite mapM_image_cons in Hr.
    apply image_bind_returned in Hr as (y & Hy & Hr).
    apply image_bind_returned in Hr as (k & Hk & Hr).
    cbn in Hr. injection Hr as <-.
    rewrite !reverse_cons. apply mapM_image_app; [auto|].
    cbn. rewrite Hy. reflexivity.
Qed.

Lemma mapM_image_tail {A B} (f : A -> image_res B) l r :
  mapM f l = Returned r -> mapM f (tail l) = Returned (tail r).
Proof.
  destruct l as [|x l]; intros Hr.
  - cbn in Hr. injection Hr as <-. reflexivity.
  - rewrite mapM_image_cons in Hr.
    apply image_bind_returned in Hr as (y & Hy & Hr).
    apply image_bind_returned in Hr as (k & Hk & Hr).
    cbn in Hr. injection Hr as <-. exact Hk.
Qed.

Lemma mapM_image_length {A B} (f : A -> image_res B) l r :
  mapM f l = Returned r -> length r = length l.
Proof.
  revert r. induction l as [|x l IH]; intros r Hr.
  - cbn in Hr. injection Hr as <-. reflexivity.
  - rewrite mapM_image_cons in Hr.
    apply image_bind_returned in Hr as (y & Hy & Hr).
    apply image_bind_returned in Hr as (k & Hk & Hr).
    cbn in Hr. injection Hr as <-. cbn. rewrite (IH k Hk). reflexivity.
Qed.

Lemma map_reverse_tail {A B} (g : A -> B) (l : list A) :
  map g (reverse (tail l)) = reverse (tail (map g l)).
Proof.
  change (g <$> reverse (tail l) = reverse (tail (g <$> l))).
  rewrite fmap_reverse, fmap_tail. reflexivity.
Qed.

(** The flipped range is the range without its first row, backwards. *)
Lemma h_range_flipped h : h_range h true = reverse (tail (h_range h false)).
Proof.
  unfold h_range. destruct (Z_lt_le_dec 0 h) as [Hh|Hh].
  - rewrite (seqZ_cons 0 h Hh). cbn [tail].
    replace (Z.succ 0) with 1 by lia. replace (Z.pred h) with (h - 1) by lia.
    reflexivity.
  - rewrite !seqZ_nil by lia. reflexivity.
Qed.

(** X21. [tostring] with [flipped] set gives the rows of the unflipped
    string in reverse order without the top row, row 0; so it is one row
    short of the image.  (The one exception is format ['P'] on a surface
    whose pitch is its width, where the whole buffer is returned whatever
    [flipped] is.) *)
Theorem tostring_flipped_drops_top_row surface fmt rows :
  (fmt = FormatP -> pitch (_surf surface) <> surf_w (_surf surface)) ->
  tostring_rows surface fmt false = Returned rows ->
  tostring surface fmt true = Returned (concat (reverse (tail rows))).
Proof.
  intros Hp Hrows. unfold tostring.
  enough (E : tostring_rows surface fmt true = Returned (reverse (tail rows)))
    by (rewrite E; reflexivity).
  unfold tostring_rows in *. rewrite h_range_flipped.
  destruct (truthy (Z.land (flags surface) SDL_OPENGL)); [discriminate|].
  set (hr := h_range (surf_h (_surf surface)) false) in *.
  assert (Hm : forall g, mapM g hr = Returned rows ->
                 mapM g (reverse (tail hr)) = Returned (reverse (tail rows))).
  { intros g Hg. apply mapM_image_reverse, mapM_image_tail, Hg. }
  destruct fmt.
  - destruct (negb (BytesPerPixel (format (_surf surface)) =? 1));
      [discriminate|].
    destruct (Z.eqb_spec (pitch (_surf surface)) (surf_w (_surf surface)))
      as [E|_]; [destruct (Hp eq_refl E)|].
    cbn in Hrows |- *. injection Hrows as <-.
    rewrite map_reverse_tail. reflexivity.
  - destruct (pixel_tuples surface FormatRGB); [|discriminate]. cbn in *. auto.
  - destruct (pixel_tuples surface FormatRGBX); [|discriminate]. cbn in *. auto.
  - destruct (pixel_tuples surface FormatRGBA); [|discriminate]. cbn in *. auto.
  - destruct (pixel_tuples surface FormatARGB); [|discriminate]. cbn in *. auto.
  - destruct (pixel_tuples surface FormatOther); [|discriminate].
    cbn in *. injection Hrows as <-. reflexivity.
Qed.

Lemma tostring_flipped_drops_top_row_witness :
  let surface :=
    mkImage (mkSurface (mkFormat 1 0 0 0 0 0 0 0 0 0) 2 3 4 (mkRect 0 0 2 3)
               [1; 2; 0; 0; 3; 4; 0; 0; 5; 6; 0; 0])
            0 0 0 0 [] 0 in
  tostring_rows surface FormatP false = Returned [[1; 2]; [3; 4]; [5; 6]] /\
  tostring surface FormatP true = Returned [5; 6; 3; 4].
Proof.
  intros surface. split; [reflexivity|].
  apply (tostring_flipped_drops_top_row surface FormatP
           [[1; 2]; [3; 4]; [5; 6]]); [intros _; cbn; lia|reflexivity].
Defined.

(** X22. On an 8-bit surface that has a colour key (and is no OpenGL
    surface), [tostring] to any format other than ['P'] raises
    [UnboundLocalError]: the palette branch tests [Amask], which only the
    branch of the deeper surfaces assigns. *)
Theorem tostring_colorkey_8bit_raises surface fmt flipped :
  BytesPerPixel (format (_surf surface)) = 1 ->
  Z.land (flags surface) SDL_OPENGL = 0 ->
  Z.land (flags surface) SDL_SRCCOLORKEY <> 0 ->
  fmt <> FormatP ->
  tostring surface fmt flipped = Raised UnboundLocalError.
Proof.
  intros Hb Hgl Hck Hf.
  assert (Ht : truthy (Z.land (flags surface) SDL_SRCCOLORKEY) = true).
  { unfold truthy. apply negb_true_iff, Z.eqb_neq, Hck. }
  unfold tostring, tostring_rows, pixel_tuples.
  rewrite Hgl, Hb, Ht. change (truthy 0) with false. change (1 =? 1) with true.
  destruct fmt; [contradiction| reflexivity ..].
Qed.

Lemma tostring_colorkey_8bit_raises_witness :
  let surface :=
    mkImage (mkSurface (mkFormat 1 0 0 0 0 0 0 0 0 0) 2 1 2 (mkRect 0 0 2 1)
               [0; 1])
            4096 0 0 0 [(10, 20, 30); (40, 50, 60)] 1 in
  tostring surface FormatRGB false = Raised UnboundLocalError.
Proof.
  intros surface.
  apply (tostring_colorkey_8bit_raises surface FormatRGB false);
    [reflexivity|reflexivity|discriminate|discriminate].
Defined.

(** ** pygame.image: the order of the channels *)

Lemma exchange_quads (cs : list (list Z)) (rest : list Z) :
  Forall (fun q => length q = 4%nat) cs ->
  exchange_first_fourth (concat cs ++ rest)
  = exchange_first_fourth (concat cs) ++ exchange_first_fourth rest.
Proof.
  induction 1 as [|q cs Hq _ IH]; [reflexivity|].
  destruct q as [|c0 [|c1 [|c2 [|c3 [|]]]]]; try discriminate.
  cbn. rewrite IH. reflexivity.
Qed.

Lemma chars_ARGB_of_RGBA c q :
  chars_RGBA c = Returned q ->
  length q = 4%nat /\ chars_ARGB c = Returned (exchange_first_fourth q).
Proof.
  destruct c as [[[r g] b] a]. unfold chars_RGBA, chars_ARGB.
  destruct (chr r) as [r'|]; [|discriminate].
  destruct (chr g) as [g'|]; [|discriminate].
  destruct (chr b) as [b'|]; [|discriminate].
  destruct (chr a) as [a'|]; [|discriminate].
  cbn. intros [= <-]. auto.
Qed.

Lemma join_row_ARGB_of_RGBA pixels pitch w y row :
  join_row chars_RGBA pixels pitch w y = Returned row ->
  (exists cs, Forall (fun q => length q = 4%nat) cs /\ row = concat cs) /\
  join_row chars_ARGB pixels pitch w y = Returned (exchange_first_fourth row).
Proof.
  unfold join_row. generalize (py_slice pixels (y * pitch) (y * pitch + w)).
  intros l. revert row. induction l as [|c l IH]; intros row Hr.
  - cbn in Hr. injection Hr as <-. split; [exists []; auto|reflexivity].
  - apply image_bind_returned in Hr as (cs & Hcs & Hr).
    cbn in Hr. injection Hr as <-.
    rewrite mapM_image_cons in Hcs.
    apply image_bind_returned in Hcs as (q & Hq & Hcs).
    apply image_bind_returned in Hcs as (k & Hk & Hcs).
    cbn in Hcs. injection Hcs as <-.
    destruct (chars_ARGB_of_RGBA c q Hq) as [Hlen Hq'].
    destruct (IH (concat k)) as [(cs & Hall & Ecs) Hrow].
    { rewrite Hk. reflexivity. }
    apply image_bind_returned in Hrow as (k' & Hk' & Hrow).
    cbn in Hrow. injection Hrow as Hrow.
    split.
    + exists (q :: cs). split; [constructor; assumption|].
      cbn. rewrite Ecs. reflexivity.
    + pose proof (exchange_quads [q] (concat k)) as E.
      cbn [concat] in E. rewrite app_nil_r in E.
      rewrite mapM_image_cons, Hq', Hk'. cbn. rewrite Hrow, E; [reflexivity|].
      constructor; auto.
Qed.

Lemma rows_ARGB_of_RGBA pixels pitch w hr rows :
  mapM (join_row chars_RGBA pixels pitch w) hr = Returned rows ->
  exists rows',
    mapM (join_row chars_ARGB pixels pitch w) hr = Returned rows' /\
    concat rows' = exchange_first_fourth (concat rows).
Proof.
  revert rows. induction hr as [|y hr IH]; intros rows Hr.
  - cbn in Hr. injection Hr as <-. exists []. auto.
  - rewrite mapM_image_cons in Hr.
    apply image_bind_returned in Hr as (row & Hrow & Hr).
    apply image_bind_returned in Hr as (k & Hk & Hr).
    cbn in Hr. injection Hr as <-.
    destruct (join_row_ARGB_of_RGBA _ _ _ _ _ Hrow) as [(cs & Hall & ->) Hrow'].
    destruct (IH k Hk) as (k' & Hk' & Ek).
    exists (exchange_first_fourth (concat cs) :: k').
    rewrite mapM_image_cons, Hrow', Hk'. split; [reflexivity|].
    cbn. rewrite Ek, exchange_quads by assumption. reflexivity.
Qed.

(** X23. The ['ARGB'] string of a surface is its ['RGBA'] string with the
    first and the fourth byte of every pixel exchanged: each pixel is
    written alpha, green, blue, red. *)
Theorem tostring_ARGB_exchanges surface flipped out :
  tostring surface FormatRGBA flipped = Returned out ->
  tostring surface FormatARGB flipped
  = Returned (exchange_first_fourth out).
Proof.
  unfold tostring, tostring_rows.
  destruct (truthy (Z.land (flags surface) SDL_OPENGL)); [discriminate|].
  change (pixel_tuples surface FormatARGB)
    with (pixel_tuples surface FormatRGBA).
  destruct (pixel_tuples surface FormatRGBA) as [pixels|]; [|discriminate].
  cbn [mbind image_bind]. intros Hr.
  apply image_bind_returned in Hr as (rows & Hrows & Hr).
  cbn in Hr. injection Hr as <-.
  destruct (rows_ARGB_of_RGBA _ _ _ _ _ Hrows) as (rows' & -> & E).
  cbn. rewrite E. reflexivity.
Qed.

Lemma tostring_ARGB_exchanges_witness :
  let surface :=
    mkImage (mkSurface (mkFormat 4 0 0 0 0 16 8 0 24 4278190080) 1 1 1
               (mkRect 0 0 1 1) [287454020])
            0 16711680 65280 255 [] 0 in
  tostring surface FormatRGBA false = Returned [34; 51; 68; 17] /\
  tostring surface FormatARGB false = Returned [17; 51; 68; 34].
Proof.
  intros surface. split; [reflexivity|].
  apply (tostring_ARGB_exchanges surface false [34; 51; 68; 17]).
  reflexivity.
Defined.

(** ** pygame.image: strings that are always made *)

Lemma land_mask_bounds c m : 0 <= m -> 0 <= Z.land c m <= m.
Proof.
  intros Hm. split; [apply Z.land_nonneg; auto|].
  assert (E : Z.land (Z.ldiff m c) (Z.land m c) = 0).
  { rewrite (Z.land_comm m c), Z.land_assoc, Z.land_ldiff. apply Z.land_0_l. }
  pose proof (Z.lor_ldiff_and m c) as Hl.
  rewrite <- (Z.lxor_lor _ _ E), <- (Z.add_nocarry_lxor _ _ E) in Hl.
  assert (0 <= Z.ldiff m c) by (apply Z.ldiff_nonneg; auto).
  rewrite (Z.land_comm c m). lia.
Qed.

Lemma channel_bounds c mask shift loss :
  byte_channel mask shift loss -> 0 <= channel c mask shift loss < 256.
Proof.
  intros (Hm & Hs & Hl & Hb). unfold channel.
  pose proof (land_mask_bounds c mask Hm) as [H0 H1].
  rewrite Z.shiftl_mul_pow2, Z.shiftr_div_pow2 in * by assumption.
  assert (Hp : 0 < 2 ^ shift) by (apply Z.pow_pos_nonneg; lia).
  assert (Hq : 0 < 2 ^ loss) by (apply Z.pow_pos_nonneg; lia).
  assert (0 <= Z.land c mask / 2 ^ shift) by (apply Z.div_pos; lia).
  assert (Z.land c mask / 2 ^ shift <= mask / 2 ^ shift)
    by (apply Z.div_le_mono; lia).
  split; [apply Z.mul_nonneg_nonneg; lia|].
  apply Z.le_lt_trans with (mask / 2 ^ shift * 2 ^ loss); [|exact Hb].
  apply Z.mul_le_mono_nonneg_r; lia.
Qed.

Lemma chr_byte c : 0 <= c < 256 -> chr c = Returned c.
Proof.
  intros Hc. unfold chr.
  destruct (Z.leb_spec 0 c); [|lia]. destruct (Z.ltb_spec c 256); [|lia].
  reflexivity.
Qed.

Lemma mapM_image_returns {A B} (f : A -> image_res B) (P : A -> Prop) l :
  (forall x, P x -> exists y, f x = Returned y) ->
  Forall P l -> exists r, mapM f l = Returned r.
Proof.
  intros Hf. induction 1 as [|x l Hx _ [r IH]]; [exists []; reflexivity|].
  destruct (Hf x Hx) as [y Hy]. exists (y :: r).
  rewrite mapM_image_cons, Hy, IH. reflexivity.
Qed.

Lemma Forall_py_slice {A} (P : A -> Prop) l i j :
  Forall P l -> Forall P (py_slice l i j).
Proof. intros Hl. unfold py_slice. apply Forall_take, Forall_drop, Hl. Qed.

Lemma join_row_returns chars pixels pitch w y :
  (forall c, byte_tuple c -> exists q, chars c = Returned q) ->
  Forall byte_tuple pixels ->
  exists row, join_row chars pixels pitch w y = Returned row.
Proof.
  intros Hc Hp. unfold join_row.
  destruct (mapM_image_returns chars byte_tuple
              (py_slice pixels (y * pitch) (y * pitch + w)) Hc)
    as [cs Hcs]; [apply Forall_py_slice, Hp|].
  rewrite Hcs. eexists. reflexivity.
Qed.

Lemma rows_return chars pixels pitch w hr :
  (forall c, byte_tuple c -> exists q, chars c = Returned q) ->
  Forall byte_tuple pixels ->
  exists rows, mapM (join_row chars pixels pitch w) hr = Returned rows.
Proof.
  intros Hc Hp.
  apply (mapM_image_returns _ (fun _ => True)); [|apply Forall_true; auto].
  intros y _. apply join_row_returns; assumption.
Qed.

Lemma chars_RGB_returns c : byte_tuple c -> exists q, chars_RGB c = Returned q.
Proof.
  destruct c as [[[r g] b] a]. intros (Hr & Hg & Hb & Ha). cbn in *.
  rewrite !chr_byte by assumption. eexists. reflexivity.
Qed.

Lemma chars_RGBA_returns c :
  byte_tuple c -> exists q, chars_RGBA c = Returned q.
Proof.
  destruct c as [[[r g] b] a]. intros (Hr & Hg & Hb & Ha). cbn in *.
  rewrite !chr_byte by assumption. eexists. reflexivity.
Qed.

Lemma chars_ARGB_returns c :
  byte_tuple c -> exists q, chars_ARGB c = Returned q.
Proof.
  destruct c as [[[r g] b] a]. intros (Hr & Hg & Hb & Ha). cbn in *.
  rewrite !chr_byte by assumption. eexists. reflexivity.
Qed.

(** X24. On a surface that is no OpenGL surface and has no palette, and
    whose four channels each fit in a byte, [tostring] raises nothing
    for any format other than ['P']: whatever the pixel values, the size
    and the pitch are, and whatever string the format is, it returns a
    string. *)
Theorem tostring_returns surface fmt flipped :
  Z.land (flags surface) SDL_OPENGL = 0 ->
  BytesPerPixel (format (_surf surface)) <> 1 ->
  fmt <> FormatP ->
  byte_channel (Rmask surface) (Rshift (format (_surf surface)))
    (Rloss (format (_surf surface))) ->
  byte_channel (Gmask surface) (Gshift (format (_surf surface)))
    (Gloss (format (_surf surface))) ->
  byte_channel (Bmask surface) (Bshift (format (_surf surface)))
    (Bloss (format (_surf surface))) ->
  byte_channel (Amask (format (_surf surface)))
    (Ashift (format (_surf surface))) (Aloss (format (_surf surface))) ->
  exists out, tostring surface fmt flipped = Returned out.
Proof.
  set (f := format (_surf surface)). intros Hgl Hb Hf HR HG HB HA.
  assert (Hpx : exists pixels, pixel_tuples surface fmt = Returned pixels /\
                               Forall byte_tuple pixels).
  { unfold pixel_tuples. fold f.
    destruct (Z.eqb_spec (BytesPerPixel f) 1) as [E|_]; [contradiction|].
    match goal with |- context [if ?b then _ else _] => destruct b end;
      eexists; (split; [reflexivity|]); apply List.Forall_map, Forall_forall;
      intros c _; repeat split; cbn;
      try apply channel_bounds; try assumption;
      destruct (c =? colorkey surface); lia. }
  destruct Hpx as (pixels & Hpx & Hall).
  unfold tostring, tostring_rows. rewrite Hgl. change (truthy 0) with false.
  cbv iota.
  destruct fmt; [contradiction|rewrite Hpx; cbn [mbind image_bind]..].
  - destruct (rows_return chars_RGB pixels (pitch (_surf surface))
                (surf_w (_surf surface))
                (h_range (surf_h (_surf surface)) flipped)
                chars_RGB_returns Hall) as [rows ->].
    eexists. reflexivity.
  - destruct (rows_return chars_RGBA pixels (pitch (_surf surface))
                (surf_w (_surf surface))
                (h_range (surf_h (_surf surface)) flipped)
                chars_RGBA_returns Hall) as [rows ->].
    eexists. reflexivity.
  - destruct (rows_return chars_RGBA pixels (pitch (_surf surface))
                (surf_w (_surf surface))
                (h_range (surf_h (_surf surface)) flipped)
                chars_RGBA_returns Hall) as [rows ->].
    eexists. reflexivity.
  - destruct (rows_return chars_ARGB pixels (pitch (_surf surface))
                (surf_w (_surf surface))
                (h_range (surf_h (_surf surface)) flipped)
                chars_ARGB_returns Hall) as [rows ->].
    eexists. reflexivity.
  - eexists. reflexivity.
Qed.

Lemma tostring_returns_witness :
  let surface :=
    mkImage (mkSurface (mkFormat 4 0 0 0 0 16 8 0 24 4278190080) 1 2 4
               (mkRect 0 0 1 2) [287454020; -1])
            0 16711680 65280 255 [] 0 in
  exists out, tostring surface FormatRGBX true = Returned out.
Proof.
  intros surface.
  apply (tostring_returns surface FormatRGBX true);
    [reflexivity|discriminate|discriminate|..];
    (split; [|split; [|split]]); vm_compute; congruence.
Defined.

(** ** pygame.image: where the rows are taken from *)

Lemma py_slice_length {A} (l : list A) i j :
  0 <= i -> i <= j ->
  Z.of_nat (length (py_slice l i j))
  = Z.min j (Z.of_nat (length l)) - Z.min i (Z.of_nat (length l)).
Proof.
  intros Hi Hj. unfold py_slice, slice_bound.
  destruct (Z.ltb_spec i 0); [lia|]. destruct (Z.ltb_spec j 0); [lia|].
  rewrite length_take, length_drop. lia.
Qed.

Lemma pixel_tuples_length surface fmt px :
  pixel_tuples surface fmt = Returned px ->
  length px = length (pixels (_surf surface)).
Proof.
  unfold pixel_tuples.
  destruct (BytesPerPixel (format (_surf surface)) =? 1).
  - destruct (truthy _); [discriminate|]. apply mapM_image_length.
  - match goal with |- context [if ?b then _ else _] => destruct b end;
      intros [= <-]; apply length_map.
Qed.

Lemma chars_RGBA_length l cs :
  mapM chars_RGBA l = Returned cs ->
  length (concat cs) = (4 * length l)%nat.
Proof.
  revert cs. induction l as [|c l IH]; intros cs Hcs.
  - cbn in Hcs. injection Hcs as <-. reflexivity.
  - rewrite mapM_image_cons in Hcs.
    apply image_bind_returned in Hcs as (q & Hq & Hcs).
    apply image_bind_returned in Hcs as (k & Hk & Hcs).
    cbn in Hcs. injection Hcs as <-.
    destruct (chars_ARGB_of_RGBA c q Hq) as [Hlen _].
    cbn [concat]. rewrite length_app, Hlen, (IH k Hk). cbn [length]. lia.
Qed.

Lemma join_row_RGBA_length pixels pitch w y row :
  join_row chars_RGBA pixels pitch w y = Returned row ->
  length row = (4 * length (py_slice pixels (y * pitch) (y * pitch + w)))%nat.
Proof.
  unfold join_row. intros Hr.
  apply image_bind_returned in Hr as (cs & Hcs & Hr).
  cbn in Hr. injection Hr as <-. apply chars_RGBA_length, Hcs.
Qed.

(** The rows [0 .. m - 1] of a buffer of [w * h] pixels, located with the
    pitch [k * w]: the rows up to [(h - 1) / k] are whole, the others are
    empty. *)
Lemma rows_RGBA_length (pixels : list (Z * Z * Z * Z)) k w h (m : nat) rows :
  1 <= k -> 0 < w -> 0 < h ->
  Z.of_nat (length pixels) = w * h ->
  mapM (join_row chars_RGBA pixels (k * w) w) (seqZ 0 (Z.of_nat m))
  = Returned rows ->
  Z.of_nat (length (concat rows))
  = 4 * w * Z.min (Z.of_nat m) ((h - 1) / k + 1).
Proof.
  intros Hk Hw Hh Hn. revert rows.
  pose proof (Z.div_mod (h - 1) k ltac:(lia)) as Hdm.
  pose proof (Z.mod_pos_bound (h - 1) k ltac:(lia)) as Hr.
  assert (Hq : 0 <= (h - 1) / k) by (apply Z.div_pos; lia).
  set (q := (h - 1) / k) in *. set (r := (h - 1) mod k) in *.
  induction m as [|m IH]; intros rows Hrows.
  - cbn in Hrows. injection Hrows as <-. cbn [concat length]. lia.
  - replace (Z.of_nat (S m)) with (Z.of_nat m + 1) in Hrows |- * by lia.
    rewrite seqZ_app in Hrows by lia.
    apply mapM_image_app_inv in Hrows as (r1 & r2 & -> & H1 & H2).
    specialize (IH r1 H1).
    change (seqZ (0 + Z.of_nat m) 1) with [0 + Z.of_nat m] in H2.
    rewrite Z.add_0_l, mapM_image_cons in H2.
    apply image_bind_returned in H2 as (row & Hrow & H2).
    cbn in H2. injection H2 as <-.
    apply join_row_RGBA_length in Hrow.
    assert (Hs : Z.of_nat (length (py_slice pixels (Z.of_nat m * (k * w))
                                     (Z.of_nat m * (k * w) + w)))
                 = if Z.of_nat m <=? q then w else 0).
    { assert (Hi : 0 <= Z.of_nat m * (k * w)) by nia.
      rewrite py_slice_length by lia. rewrite Hn.
      destruct (Z.leb_spec (Z.of_nat m) q) as [Hm|Hm].
      - assert (Hmk : Z.of_nat m * k + 1 <= h).
        { assert (Z.of_nat m * k <= q * k)
            by (apply Z.mul_le_mono_nonneg_r; lia). lia. }
        assert (Hle : Z.of_nat m * (k * w) + w <= w * h).
        { replace (Z.of_nat m * (k * w) + w)
            with (w * (Z.of_nat m * k + 1)) by ring.
          apply Z.mul_le_mono_nonneg_l; lia. }
        revert Hi Hle. generalize (Z.of_nat m * (k * w)), (w * h). lia.
      - assert (Hmk : h <= Z.of_nat m * k).
        { assert ((q + 1) * k <= Z.of_nat m * k)
            by (apply Z.mul_le_mono_nonneg_r; lia). lia. }
        assert (Hle : w * h <= Z.of_nat m * (k * w)).
        { replace (Z.of_nat m * (k * w)) with (w * (Z.of_nat m * k)) by ring.
          apply Z.mul_le_mono_nonneg_l; lia. }
        revert Hi Hle. generalize (Z.of_nat m * (k * w)), (w * h). lia. }
    rewrite concat_app, length_app, Nat2Z.inj_add, IH. cbn [concat].
    rewrite app_nil_r, Hrow, Nat2Z.inj_mul, Hs.
    destruct (Z.leb_spec (Z.of_nat m) q).
    + rewrite !Z.min_l by lia. ring.
    + rewrite !Z.min_r by lia. ring.
Qed.

(** X25. [tostring] locates row [y] at index [y * pitch] of the pixel
    array, with the pitch in bytes.  On a surface of [BytesPerPixel = k]
    whose pitch is [k * w] and whose pixel array holds its [w * h] pixels,
    the unflipped ['RGBA'] string therefore has [(h - 1) / k + 1] rows of
    [4 * w] bytes, which is all [h] rows when [k = 1]. *)
Theorem tostring_rows_by_byte_pitch surface out :
  1 <= BytesPerPixel (format (_surf surface)) ->
  pitch (_surf surface)
  = BytesPerPixel (format (_surf surface)) * surf_w (_surf surface) ->
  0 < surf_w (_surf surface) -> 0 < surf_h (_surf surface) ->
  Z.of_nat (length (pixels (_surf surface)))
  = surf_w (_surf surface) * surf_h (_surf surface) ->
  tostring surface FormatRGBA false = Returned out ->
  Z.of_nat (length out)
  = 4 * surf_w (_surf surface)
    * ((surf_h (_surf surface) - 1) / BytesPerPixel (format (_surf surface))
       + 1).
Proof.
  intros Hk Hp Hw Hh Hn. unfold tostring, tostring_rows.
  destruct (truthy (Z.land (flags surface) SDL_OPENGL)); [discriminate|].
  destruct (pixel_tuples surface FormatRGBA) as [px|] eqn:Epx; [|discriminate].
  cbn [mbind image_bind]. intros Hr.
  apply image_bind_returned in Hr as (rows & Hrows & Hr).
  cbn in Hr. injection Hr as <-.
  apply pixel_tuples_length in Epx.
  unfold h_range in Hrows. rewrite Hp in Hrows.
  rewrite <- (Z2Nat.id (surf_h (_surf surface))) in Hrows by lia.
  apply (rows_RGBA_length px _ _ (surf_h (_surf surface))) in Hrows;
    [|lia|lia|lia|rewrite Epx; exact Hn].
  rewrite Hrows, Z2Nat.id by lia.
  assert ((surf_h (_surf surface) - 1)
          / BytesPerPixel (format (_surf surface)) + 1
          <= surf_h (_surf surface)).
  { assert ((surf_h (_surf surface) - 1)
            / BytesPerPixel (format (_surf surface))
            <= surf_h (_surf surface) - 1); [|lia].
    apply Z.div_le_upper_bound; [lia|]. nia. }
  lia.
Qed.

Lemma tostring_rows_by_byte_pitch_witness :
  let surface :=
    mkImage (mkSurface (mkFormat 4 0 0 0 0 16 8 0 24 4278190080) 1 2 4
               (mkRect 0 0 1 2) [287454020; 1432778632])
            0 16711680 65280 255 [] 0 in
  tostring surface FormatRGBA false = Returned [34; 51; 68; 17] /\
  Z.of_nat (length [34; 51; 68; 17]) = 4 * 1 * ((2 - 1) / 4 + 1).
Proof.
  intros surface. split; [reflexivity|].
  apply (tostring_rows_by_byte_pitch surface [34; 51; 68; 17]);
    [cbn; lia|reflexivity|reflexivity|reflexivity|reflexivity|reflexivity].
Defined.

(** ** pygame.image: the palette indices of an 8-bit surface *)

Lemma py_slice_inside {A} (l : list A) i w :
  0 <= i -> 0 <= w -> i + w <= Z.of_nat (length l) ->
  py_slice l i (i + w) = take (Z.to_nat w) (drop (Z.to_nat i) l).
Proof.
  intros Hi Hw Hl. unfold py_slice, slice_bound.
  destruct (Z.ltb_spec i 0); [lia|]. destruct (Z.ltb_spec (i + w) 0); [lia|].
  rewrite !Z.min_l by lia. f_equal. lia.
Qed.

Lemma concat_rows_lookup {A} (g : Z -> list A) (wn n : nat) :
  (forall y : nat, (y < n)%nat -> length (g (Z.of_nat y)) = wn) ->
  length (concat (map g (seqZ 0 (Z.of_nat n)))) = (n * wn)%nat /\
  forall y x : nat, (y < n)%nat -> (x < wn)%nat ->
    concat (map g (seqZ 0 (Z.of_nat n))) !! (y * wn + x)%nat
    = g (Z.of_nat y) !! x.
Proof.
  induction n as [|n IH]; intros Hg.
  - split; [reflexivity|]. intros y x Hy. lia.
  - destruct IH as [IHl IHx]; [intros y Hy; apply Hg; lia|].
    rewrite seqZ_S, map_app, concat_app, Z.add_0_l.
    cbn [map concat]. rewrite app_nil_r. split.
    + rewrite length_app, IHl, Hg by lia. lia.
    + intros y x Hy Hx. destruct (Nat.eq_dec y n) as [->|Hn].
      * rewrite lookup_app_r by (rewrite IHl; lia).
        rewrite IHl. f_equal. lia.
      * rewrite lookup_app_l by (rewrite IHl; nia).
        apply IHx; lia.
Qed.

(** X26. On an 8-bit surface whose buffer holds [h] rows of [pitch] bytes,
    with [0 <= w <= pitch], the unflipped ['P'] string is the image
    without the padding of its rows: it has [w * h] bytes, and the byte
    at [y * w + x] is the pixel at [(x, y)], the buffer element
    [y * pitch + x]. *)
Theorem tostring_P_pixels surface :
  Z.land (flags surface) SDL_OPENGL = 0 ->
  BytesPerPixel (format (_surf surface)) = 1 ->
  0 <= surf_w (_surf surface) <= pitch (_surf surface) ->
  0 <= surf_h (_surf surface) ->
  Z.of_nat (length (pixels (_surf surface)))
  = pitch (_surf surface) * surf_h (_surf surface) ->
  exists out,
    tostring surface FormatP false = Returned out /\
    Z.of_nat (length out)
    = surf_w (_surf surface) * surf_h (_surf surface) /\
    forall x y,
      0 <= x < surf_w (_surf surface) -> 0 <= y < surf_h (_surf surface) ->
      out !! Z.to_nat (y * surf_w (_surf surface) + x)
      = pixels (_surf surface) !! Z.to_nat (y * pitch (_surf surface) + x).
Proof.
  intros Hgl Hb Hw Hh Hn. unfold tostring, tostring_rows.
  rewrite Hgl, Hb. change (truthy 0) with false. change (1 =? 1) with true.
  cbv iota. cbn [negb].
  set (p := pitch (_surf surface)) in *. set (w := surf_w (_surf surface)) in *.
  set (h := surf_h (_surf surface)) in *. set (px := pixels (_surf surface)) in *.
  destruct (Z.eqb_spec p w) as [E|E].
  - exists px. cbn. rewrite app_nil_r. split; [reflexivity|].
    split; [lia|]. intros x y _ _. rewrite E. reflexivity.
  - set (g := fun y => py_slice px (y * p) (y * p + w)).
    assert (Hg : forall y, 0 <= y < h ->
                   g y = take (Z.to_nat w) (drop (Z.to_nat (y * p)) px)).
    { intros y Hy. apply py_slice_inside; [nia|lia|]. rewrite Hn.
      assert (p * (y + 1) <= p * h) by (apply Z.mul_le_mono_nonneg_l; lia).
      lia. }
    destruct (concat_rows_lookup g (Z.to_nat w) (Z.to_nat h)) as [Hlen Hx].
    { intros y Hy. rewrite Hg by lia. rewrite length_take, length_drop.
      assert (p * (Z.of_nat y + 1) <= p * h)
        by (apply Z.mul_le_mono_nonneg_l; lia).
      assert (0 <= Z.of_nat y * p) by nia. lia. }
    exists (concat (map g (seqZ 0 h))).
    split; [reflexivity|].
    replace (seqZ 0 h) with (seqZ 0 (Z.of_nat (Z.to_nat h)))
      by (f_equal; lia).
    split.
    + rewrite Hlen, Nat2Z.inj_mul, !Z2Nat.id by lia. ring.
    + intros x y Hx' Hy'.
      replace (Z.to_nat (y * w + x))
        with (Z.to_nat y * Z.to_nat w + Z.to_nat x)%nat by nia.
      rewrite Hx by lia. rewrite Z2Nat.id, Hg by lia.
      rewrite lookup_take_lt, lookup_drop by lia. f_equal.
      assert (0 <= y * p) by nia. lia.
Qed.

Lemma tostring_P_pixels_witness :
  let surface :=
    mkImage (mkSurface (mkFormat 1 0 0 0 0 0 0 0 0 0) 2 3 4 (mkRect 0 0 2 3)
               [1; 2; 0; 0; 3; 4; 0; 0; 5; 6; 0; 0])
            0 0 0 0 [] 0 in
  exists out,
    tostring surface FormatP false = Returned out /\
    Z.of_nat (length out) = 2 * 3 /\
    forall x y, 0 <= x < 2 -> 0 <= y < 3 ->
      out !! Z.to_nat (y * 2 + x)
      = [1; 2; 0; 0; 3; 4; 0; 0; 5; 6; 0; 0] !! Z.to_nat (y * 4 + x).
Proof.
  intros surface.
  apply (tostring_P_pixels surface);
    [reflexivity|reflexivity|cbn; lia|cbn; lia|reflexivity].
Defined.
